(** * difftar: a shallow embedding of the diff pipeline and its properties

    The development follows the modules of the repository:
    errors.js (typed errors, credential sanitisation), fetch.js (acquisition),
    tar.js (extraction), binary.js (binary classification), diff.js
    (per-file diffs), format.js (unified output) and index.js (entry points).

    JavaScript strings are modelled by [string]: one [ascii] per code unit,
    so the strings of the model are the JavaScript strings whose code units
    are below 256.  Byte buffers ([Uint8Array]) are lists of [byte]. *)

From Stdlib Require Import ZArith Lia List String Ascii Bool Strings.Byte.
From Stdlib Require Import Sorting.Sorted Permutation.
From stdpp Require Import base tactics option list strings sorting lexico.

Import ListNotations.
Set Warnings "-register-all".

(** ** Strings as JavaScript sees them *)

Module JsString.

(** The code unit of a character, as [charCodeAt] returns it. *)
Definition code (c : ascii) : N := N_of_ascii c.

Definition in_range (lo hi : N) (c : ascii) : bool :=
  (lo <=? code c)%N && (code c <=? hi)%N.

(** The double quote, built from its code. *)
Definition dquote : ascii := ascii_of_N 34.

Definition is_upper (c : ascii) : bool := in_range 65 90 c.
Definition is_lower (c : ascii) : bool := in_range 97 122 c.
Definition is_digit (c : ascii) : bool := in_range 48 57 c.

(** [toLowerCase] and [toUpperCase] on one code unit below 256: the ASCII
    letters and the Latin-1 letters whose counterpart is below 256. *)
Definition lower_char (c : ascii) : ascii :=
  if is_upper c || (in_range 192 222 c && negb (code c =? 215)%N)
  then ascii_of_N (code c + 32) else c.

Definition upper_char (c : ascii) : ascii :=
  if is_lower c || (in_range 224 254 c && negb (code c =? 247)%N)
  then ascii_of_N (code c - 32) else c.

Fixpoint toLowerCase (s : string) : string :=
  match s with
  | EmptyString => EmptyString
  | String c s' => String (lower_char c) (toLowerCase s')
  end.

(** White space and line terminators below 256: what [\s] and [trim] see. *)
Definition is_space (c : ascii) : bool :=
  in_range 9 13 c || (code c =? 32)%N || (code c =? 160)%N.

Fixpoint startsWith (p s : string) : bool :=
  match p, s with
  | EmptyString, _ => true
  | String a p', String b s' => if Ascii.eqb a b then startsWith p' s' else false
  | String _ _, EmptyString => false
  end.

(** [s.includes(sub)]. *)
Fixpoint includes (sub s : string) : bool :=
  startsWith sub s ||
  match s with
  | EmptyString => false
  | String _ s' => includes sub s'
  end.

(** [s.indexOf(c)] for a single character; [None] stands for -1. *)
Fixpoint indexOf (c : ascii) (s : string) : option nat :=
  match s with
  | EmptyString => None
  | String a s' => if Ascii.eqb a c then Some 0 else S <$> indexOf c s'
  end.

(** [s.lastIndexOf(c)] for a single character; [None] stands for -1. *)
Fixpoint lastIndexOf (c : ascii) (s : string) : option nat :=
  match s with
  | EmptyString => None
  | String a s' =>
      match lastIndexOf c s' with
      | Some i => Some (S i)
      | None => if Ascii.eqb a c then Some 0 else None
      end
  end.

(** [s.slice(0, n)] and [s.slice(n)] for indices within range. *)
Fixpoint take (n : nat) (s : string) : string :=
  match n, s with
  | S n', String c s' => String c (take n' s')
  | _, _ => EmptyString
  end.

Fixpoint drop (n : nat) (s : string) : string :=
  match n, s with
  | S n', String _ s' => drop n' s'
  | _, _ => s
  end.

(** [parts.join(sep)]. *)
Fixpoint join (sep : string) (parts : list string) : string :=
  match parts with
  | [] => EmptyString
  | [p] => p
  | p :: rest => p +:+ sep +:+ join sep rest
  end.

Fixpoint trimStart (s : string) : string :=
  match s with
  | String c s' => if is_space c then trimStart s' else s
  | EmptyString => EmptyString
  end.

Fixpoint trimEnd (s : string) : string :=
  match s with
  | EmptyString => EmptyString
  | String c s' =>
      match trimEnd s' with
      | EmptyString => if is_space c then EmptyString else String c EmptyString
      | t => String c t
      end
  end.

Definition trim (s : string) : string := trimEnd (trimStart s).

Definition nl : string := String (ascii_of_N 10) EmptyString.
Definition cr : ascii := ascii_of_N 13.
Definition lf : ascii := ascii_of_N 10.

(** Strict lexicographic order on the code units, spelled out on the
    sequences of their values. *)
Definition units (s : string) : list N := map code (list_ascii_of_string s).
Definition lex_lt (s t : string) : Prop := lexico (units s) (units t).

End JsString.

Import JsString.

(** ** Regular expressions

    The fragment the repository's patterns use: character classes, sequence,
    alternation and greedy bounded repetition of a class, matched by
    backtracking as a JavaScript engine does. *)

Module RegExp.

(** A character class [[...]] or its complement [[^...]]. *)
Inductive cclass : Type :=
| Pos (p : ascii -> bool)
| Neg (p : ascii -> bool).

Inductive regex : Type :=
| Eps
| Chr (c : cclass)
| Seq (r1 r2 : regex)
| Alt (r1 r2 : regex)
| Rep (c : cclass) (lo : nat) (hi : option nat).

(** A pattern with its flags. [anchored] records a leading [^]. *)
Record t : Type := mk {
  body : regex;
  anchored : bool;
  ignoreCase : bool;
  global : bool
}.

(** Whether a code unit is in a class, under the [i] flag or not: with the
    flag, a code unit is in [[...]] when some member has its canonical form,
    and in [[^...]] when none has. *)
Definition member (ic : bool) (p : ascii -> bool) (c : ascii) : bool :=
  p c || (ic && (p (upper_char c) || p (lower_char c))).

Definition test (ic : bool) (cl : cclass) (c : ascii) : bool :=
  match cl with
  | Pos p => member ic p c
  | Neg p => negb (member ic p c)
  end.

(** Greedy repetition: take one more when possible, give back on failure. *)
Fixpoint rep (q : ascii -> bool) (lo : nat) (hi : option nat)
    (s : string) (k : string -> option string) {struct s} : option string :=
  let stop := match lo with O => k s | S _ => None end in
  match s with
  | String c s' =>
      if q c && negb (bool_decide (hi = Some O)) then
        match rep q (Nat.pred lo) (Nat.pred <$> hi) s' k with
        | Some r => Some r
        | None => stop
        end
      else stop
  | EmptyString => stop
  end.

(** [run ic r s k]: match [r] at the head of [s], then continue with [k] on
    what is left; the first success in backtracking order wins. *)
Fixpoint run (ic : bool) (r : regex) (s : string)
    (k : string -> option string) : option string :=
  match r with
  | Eps => k s
  | Chr p =>
      match s with
      | String c s' => if test ic p c then k s' else None
      | EmptyString => None
      end
  | Seq r1 r2 => run ic r1 s (fun s1 => run ic r2 s1 k)
  | Alt r1 r2 =>
      match run ic r1 s k with
      | Some x => Some x
      | None => run ic r2 s k
      end
  | Rep p lo hi => rep (test ic p) lo hi s k
  end.

(** The text left after a match at the head of [s], if there is one. *)
Definition exec_here (re : t) (s : string) : option string :=
  run (ignoreCase re) (body re) s Some.

Definition matched (s rest : string) : string :=
  take (String.length s - String.length rest) s.

(** [s.replace(re, f)] for a global, unanchored pattern: scan left to right,
    replace each match by [f match], resume after the match. [skip] counts
    the code units of the current match still to be passed over. *)
Fixpoint replace_go (re : t) (f : string -> string) (skip : nat) (s : string)
    : string :=
  match skip with
  | S n =>
      match s with
      | String _ s' => replace_go re f n s'
      | EmptyString => EmptyString
      end
  | O =>
      match exec_here re s with
      | Some rest =>
          let mt := matched s rest in
          f mt +:+
          match s with
          | String c s' =>
              match String.length mt with
              | O => String c (replace_go re f 0 s')
              | S n => replace_go re f n s'
              end
          | EmptyString => EmptyString
          end
      | None =>
          match s with
          | String c s' => String c (replace_go re f 0 s')
          | EmptyString => EmptyString
          end
      end
  end.

(** [s.replace(re, f)]: every match for a global pattern, the first one
    otherwise; an anchored pattern can only match at index 0. *)
Fixpoint replace_first (re : t) (f : string -> string) (s : string) : string :=
  match exec_here re s with
  | Some rest => f (matched s rest) +:+ rest
  | None =>
      match s with
      | String c s' => String c (replace_first re f s')
      | EmptyString => EmptyString
      end
  end.

Definition replace_anchored (re : t) (f : string -> string) (s : string)
    : string :=
  match exec_here re s with
  | Some rest => f (matched s rest) +:+ rest
  | None => s
  end.

Definition replace (re : t) (f : string -> string) (s : string) : string :=
  if anchored re then replace_anchored re f s
  else if global re then replace_go re f 0 s
  else replace_first re f s.

(** Building patterns. *)
Definition one (c : ascii) : ascii -> bool := fun x => Ascii.eqb x c.
Definition any_of (cs : string) : ascii -> bool :=
  fun x => match indexOf x cs with Some _ => true | None => false end.
Definition union (p q : ascii -> bool) : ascii -> bool := fun x => p x || q x.
Definition alnum : ascii -> bool :=
  fun x => is_upper x || is_lower x || is_digit x.

Fixpoint lit (w : string) : regex :=
  match w with
  | EmptyString => Eps
  | String c w' => Seq (Chr (Pos (one c))) (lit w')
  end.

Fixpoint seq (rs : list regex) : regex :=
  match rs with
  | [] => Eps
  | [r] => r
  | r :: rs' => Seq r (seq rs')
  end.

Definition star (c : cclass) : regex := Rep c 0 None.
Definition plus (c : cclass) : regex := Rep c 1 None.
Definition opt (c : cclass) : regex := Rep c 0 (Some 1).
Definition at_least (n : nat) (c : cclass) : regex := Rep c n None.

End RegExp.

(** ** errors.js: phases, sanitisation and the error class *)

Inductive ErrorPhase : Type := FETCH | DECOMPRESS | TAR | DIFF | AUTH | SIZE.

Definition HTTP_STATUS_MAP (phase : ErrorPhase) : Z :=
  match phase with
  | AUTH => 401
  | SIZE => 413
  | FETCH => 502
  | DECOMPRESS => 422
  | TAR => 422
  | DIFF => 500
  end%Z.

(** What a [throw] can carry: a plain [Error] of the platform or of a
    library, a value that is no [Error] (kept as its [String(...)] text), or
    an instance of the repository's [DiffError] class. *)
Inductive jserror : Type :=
| PlainError (message : string)
| Thrown (text : string)
| DiffError (phase : ErrorPhase) (status : Z) (message : string)
    (cause : option jserror).

Definition error_message (e : jserror) : string :=
  match e with
  | PlainError m => m
  | Thrown t => t
  | DiffError _ _ m _ => m
  end.

Module Patterns.
Import RegExp.

Definition token_chars : cclass := Pos (union alnum (any_of "+/=_-")).
Definition space : cclass := Pos is_space.
Definition quote : cclass := Pos (union (one "'") (one dquote)).
Definition sep : cclass := Pos (any_of "_-").

(** [/Authorization:\s*(Basic|Bearer)\s+[A-Za-z0-9+/=_-]+/gi] *)
Definition authorization_header : RegExp.t :=
  mk (seq [lit "Authorization:"; star space;
           Alt (lit "Basic") (lit "Bearer"); plus space; plus token_chars])
     false true true.

(** [/aws[_-]?(access[_-]?key[_-]?id|secret[_-]?access[_-]?key)\s*[:=]\s*['"]?[A-Za-z0-9+/=_-]+['"]?/gi] *)
Definition aws_credentials : RegExp.t :=
  mk (seq [lit "aws"; opt sep;
           Alt (seq [lit "access"; opt sep; lit "key"; opt sep; lit "id"])
               (seq [lit "secret"; opt sep; lit "access"; opt sep; lit "key"]);
           star space; Chr (Pos (any_of ":=")); star space; opt quote;
           plus token_chars; opt quote])
     false true true.

(** [/token=[A-Za-z0-9+/=_-]{8,}/gi] *)
Definition url_token : RegExp.t :=
  mk (seq [lit "token="; at_least 8 token_chars]) false true true.

(** [/:\/\/[^:]+:[^@]+@/gi] *)
Definition url_userinfo : RegExp.t :=
  mk (seq [lit "://"; plus (Neg (one ":")); lit ":"; plus (Neg (one "@"));
           lit "@"])
     false true true.

(** [/Bearer\s+[A-Za-z0-9._-]+/gi] *)
Definition bearer_token : RegExp.t :=
  mk (seq [lit "Bearer"; plus space; plus (Pos (union alnum (any_of "._-")))])
     false true true.

(** [/credential[s]?\s*[:=]\s*['"]?[A-Za-z0-9+/=]{20,}['"]?/gi] *)
Definition generic_credential : RegExp.t :=
  mk (seq [lit "credential"; opt (Pos (one "s")); star space;
           Chr (Pos (any_of ":=")); star space; opt quote;
           at_least 20 (Pos (union alnum (any_of "+/="))); opt quote])
     false true true.

(** [/:\/\/[^:]+:[^@]+@/g], the pattern of the closing pass. *)
Definition url_userinfo_final : RegExp.t :=
  mk (seq [lit "://"; plus (Neg (one ":")); lit ":"; plus (Neg (one "@"));
           lit "@"])
     false false true.

End Patterns.

Definition CREDENTIAL_PATTERNS : list RegExp.t :=
  [Patterns.authorization_header; Patterns.aws_credentials;
   Patterns.url_token; Patterns.url_userinfo; Patterns.bearer_token;
   Patterns.generic_credential].

(** [Math.min] of two indices where [None] stands for [Infinity]. *)
Definition min_index (a b : option nat) : option nat :=
  match a, b with
  | Some x, Some y => Some (Nat.min x y)
  | Some x, None => Some x
  | None, b' => b'
  end.

(** The replacer of [sanitizeCredentials]: keep what precedes the first
    [:] or [=] of the match when something follows it. *)
Definition redact (mt : string) : string :=
  let colonIndex := indexOf ":" mt in
  let equalsIndex := indexOf "=" mt in
  match min_index colonIndex equalsIndex with
  | Some separatorIndex =>
      if (Z.of_nat separatorIndex <? Z.of_nat (String.length mt) - 1)%Z
      then take (separatorIndex + 1) mt +:+ " [REDACTED]"
      else "[REDACTED]"
  | None => "[REDACTED]"
  end.

Definition sanitizeCredentials (input : string) : string :=
  let sanitized :=
    fold_left (fun acc pattern => RegExp.replace pattern redact acc)
      CREDENTIAL_PATTERNS input in
  RegExp.replace Patterns.url_userinfo_final
    (fun _ => "://[REDACTED]:[REDACTED]@") sanitized.

(** [new DiffError(phase, message, cause)]. *)
Definition new_DiffError (phase : ErrorPhase) (message : string)
    (cause : option jserror) : jserror :=
  DiffError phase (HTTP_STATUS_MAP phase) (sanitizeCredentials message) cause.

Definition is_DiffError (e : jserror) : bool :=
  match e with DiffError _ _ _ _ => true | _ => false end.

(** A context string is used when it is truthy: present and not empty. *)
Definition truthy_string (s : option string) : option string :=
  match s with
  | Some EmptyString => None
  | other => other
  end.

(** [DiffError.wrap(phase, error, context)]. *)
Definition DiffError_wrap (phase : ErrorPhase) (error : jserror)
    (context : option string) : jserror :=
  match error with
  | DiffError _ _ message cause =>
      match truthy_string context with
      | Some ctx => new_DiffError phase (ctx +:+ ": " +:+ message) cause
      | None => error
      end
  | PlainError message =>
      let fullMessage :=
        match truthy_string context with
        | Some ctx => ctx +:+ ": " +:+ message
        | None => message
        end in
      new_DiffError phase fullMessage (Some error)
  | Thrown text =>
      let fullMessage :=
        match truthy_string context with
        | Some ctx => ctx +:+ ": " +:+ text
        | None => text
        end in
      new_DiffError phase fullMessage None
  end.

(** ** The run-time store

    Objects that are shared and updated in place live in a store: [Map]s of
    files, [Headers], option records passed by the caller and readable
    streams. A location is an index into the store. *)

Definition loc : Type := nat.

(** Recognised option fields; [None] is a field left [undefined]. *)
Record DiffOptions : Type := mkDiffOptions {
  nameOnly : option bool;
  context : option Z;
  ignoreAllSpace : option bool;
  ignoreSpaceChange : option bool;
  noPrefix : option bool;
  srcPrefix : option string;
  dstPrefix : option string;
  text : option bool
}.

Definition no_options : DiffOptions :=
  mkDiffOptions None None None None None None None None.

(** A readable stream: the chunks not read yet, and whether it ends with an
    error once they are read. *)
Record StreamState : Type := mkStream {
  pending : list (list byte);
  failure : option jserror
}.

Inductive obj : Type :=
| MapObj (entries : list (string * list byte))
| HeadersObj (fields : list (string * string))
| OptionsObj (o : DiffOptions)
| StreamObj (st : StreamState).

Abbreviation heap := (list obj).

Inductive Res (A : Type) : Type :=
| Ok (a : A)
| Throw (e : jserror).
Arguments Ok {A} a.
Arguments Throw {A} e.

(** Computations that read and update the store and may throw. *)
Definition M (A : Type) : Type := heap -> Res A * heap.

Definition ret {A} (a : A) : M A := fun h => (Ok a, h).
Definition throw {A} (e : jserror) : M A := fun h => (Throw e, h).
Definition bind {A B} (m : M A) (f : A -> M B) : M B :=
  fun h =>
    match m h with
    | (Ok a, h') => f a h'
    | (Throw e, h') => (Throw e, h')
    end.
(** [try { m } catch (e) { handler e }] *)
Definition catch {A} (m : M A) (handler : jserror -> M A) : M A :=
  fun h =>
    match m h with
    | (Ok a, h') => (Ok a, h')
    | (Throw e, h') => handler e h'
    end.

Notation "x <- m ;; k" := (bind m (fun x => k))
  (at level 100, m at next level, right associativity).
Notation "m ;;; k" := (bind m (fun _ => k))
  (at level 100, right associativity).

(** A method called on an object of another kind. *)
Definition type_error (what : string) : jserror :=
  PlainError ("TypeError: " +:+ what).

(** [assertDiff(condition, phase, message)] *)
Definition assertDiff (condition : bool) (phase : ErrorPhase)
    (message : string) : M unit :=
  if condition then ret tt else throw (new_DiffError phase message None).

(** Insertion-ordered association: a key already present keeps its place
    and takes the new value, a new key goes last ([Map.prototype.set]). *)
Fixpoint assoc_set {V} (k : string) (v : V) (m : list (string * V))
    : list (string * V) :=
  match m with
  | [] => [(k, v)]
  | (k', v') :: rest =>
      if String.eqb k' k then (k', v) :: rest
      else (k', v') :: assoc_set k v rest
  end.

Fixpoint assoc_get {V} (k : string) (m : list (string * V)) : option V :=
  match m with
  | [] => None
  | (k', v') :: rest => if String.eqb k' k then Some v' else assoc_get k rest
  end.

Definition keys {V} (m : list (string * V)) : list string := map fst m.

Definition alloc (o : obj) : M loc :=
  fun h => (Ok (length h), h ++ [o]).

(** [new Map()] *)
Definition Map_new : M loc := alloc (MapObj []).

(** [map.keys()], in insertion order *)
Definition Map_keys (l : loc) : M (list string) :=
  fun h =>
    match h !! l with
    | Some (MapObj m) => (Ok (keys m), h)
    | _ => (Throw (type_error "keys is not a function"), h)
    end.

(** [map.get(key)]; [None] is [undefined] *)
Definition Map_get (l : loc) (key : string) : M (option (list byte)) :=
  fun h =>
    match h !! l with
    | Some (MapObj m) => (Ok (assoc_get key m), h)
    | _ => (Throw (type_error "get is not a function"), h)
    end.

(** [map.set(key, value)] *)
Definition Map_set (l : loc) (key : string) (value : list byte) : M unit :=
  fun h =>
    match h !! l with
    | Some (MapObj m) => (Ok tt, <[l := MapObj (assoc_set key value m)]> h)
    | _ => (Throw (type_error "set is not a function"), h)
    end.

(** [new Headers()] *)
Definition Headers_new : M loc := alloc (HeadersObj []).

(** HTTP whitespace: tab, line feed, carriage return and space. *)
Definition http_whitespace (c : ascii) : bool :=
  (code c =? 9)%N || (code c =? 10)%N || (code c =? 13)%N || (code c =? 32)%N.

Fixpoint strip_start (s : string) : string :=
  match s with
  | String c s' => if http_whitespace c then strip_start s' else s
  | EmptyString => EmptyString
  end.

Fixpoint strip_end (s : string) : string :=
  match s with
  | EmptyString => EmptyString
  | String c s' =>
      match strip_end s' with
      | EmptyString =>
          if http_whitespace c then EmptyString else String c EmptyString
      | t => String c t
      end
  end.

(** A header value is normalised before it is stored: the HTTP whitespace
    at its two ends is removed. *)
Definition normalize_value (value : string) : string :=
  strip_end (strip_start value).

(** A header name is a token: one or more of the letters, the digits and
    [!#$%&'*+-.^_`|~]. *)
Definition valid_header_name (name : string) : bool :=
  negb (String.eqb name "")
  && forallb (RegExp.union RegExp.alnum (RegExp.any_of "!#$%&'*+-.^_`|~"))
       (list_ascii_of_string name).

(** A header value holds no NUL, no line feed and no carriage return. *)
Definition forbidden_in_value (c : ascii) : bool :=
  (code c =? 0)%N || (code c =? 10)%N || (code c =? 13)%N.

Definition valid_header_value (value : string) : bool :=
  forallb (fun c => negb (forbidden_in_value c)) (list_ascii_of_string value).

(** [headers.set(name, value)]: the value is normalised, a name or a value
    that is not valid is refused with a [TypeError], and names are
    case-insensitive. *)
Definition Headers_set (l : loc) (name value : string) : M unit :=
  fun h =>
    match h !! l with
    | Some (HeadersObj fs) =>
        let value := normalize_value value in
        if valid_header_name name && valid_header_value value
        then
          (Ok tt, <[l := HeadersObj (assoc_set (toLowerCase name) value fs)]> h)
        else (Throw (type_error "invalid header"), h)
    | _ => (Throw (type_error "set is not a function"), h)
    end.

(** [headers.get(name)]; [None] is [null] *)
Definition Headers_get (fs : list (string * string)) (name : string)
    : option string :=
  assoc_get (toLowerCase name) fs.

(** Reading the fields of an options object; a missing argument is [{}]. *)
Definition read_options (options : option loc) : M DiffOptions :=
  match options with
  | None => ret no_options
  | Some l =>
      fun h =>
        match h !! l with
        | Some (OptionsObj o) => (Ok o, h)
        | Some _ => (Ok no_options, h)
        | None => (Throw (type_error "cannot read properties"), h)
        end
  end.

(** [reader.read()]: the next chunk, [None] when done; a failed stream
    throws. *)
Definition reader_read (l : loc) : M (option (list byte)) :=
  fun h =>
    match h !! l with
    | Some (StreamObj st) =>
        match pending st with
        | chunk :: rest =>
            (Ok (Some chunk), <[l := StreamObj (mkStream rest (failure st))]> h)
        | [] =>
            match failure st with
            | Some e => (Throw e, h)
            | None => (Ok None, h)
            end
        end
    | _ => (Throw (type_error "getReader is not a function"), h)
    end.

(** [stream.cancel()]: what is pending is discarded. *)
Definition stream_cancel (l : loc) : M unit :=
  fun h =>
    match h !! l with
    | Some (StreamObj st) => (Ok tt, <[l := StreamObj (mkStream [] None)]> h)
    | _ => (Throw (type_error "cancel is not a function"), h)
    end.

(** The number of chunks a stream still holds. *)
Definition stream_pending (l : loc) (h : heap) : nat :=
  match h !! l with
  | Some (StreamObj st) => length (pending st)
  | _ => 0
  end.

(** ** Values exchanged with the platform and the libraries *)

(** An HTTP response as [fetch] resolves it. *)
Record Response : Type := mkResponse {
  resp_status : Z;
  resp_statusText : string;
  resp_headers : list (string * string);
  resp_body : option loc
}.

(** [response.ok]: the status is in the range 200-299. *)
Definition resp_ok (r : Response) : bool :=
  (200 <=? resp_status r)%Z && (resp_status r <=? 299)%Z.

(** A number as [parseInt] and [length] yield it: [NaN], an integer that a
    double holds exactly, or an infinity. The sign of zero is not kept. *)
Inductive number : Type :=
| NaN
| Num (z : Z)
| Infinity (negative : bool).

Record FetchResult : Type := mkFetchResult {
  stream : loc;
  size : option number
}.

Record S3Config : Type := mkS3Config {
  accessKeyId : option string;
  secretAccessKey : option string;
  region : option string;
  endpoint : option string;
  sessionToken : option string
}.

Inductive InlineData : Type :=
| InlineBytes (bytes : list byte)
| InlineBase64 (text : string)
| InlineOther.

Record SourceConfig : Type := mkSourceConfig {
  transport : option string;
  source : option string;
  auth : option string;
  credential : option string;
  s3 : option S3Config;
  data : option InlineData
}.

Record TarHeader : Type := mkTarHeader {
  name : string;
  type : string;
  linkname : option string
}.

Record TarEntry : Type := mkTarEntry {
  header : TarHeader;
  body : loc
}.

(** What iterating a decoded tar stream delivers: entries in archive order,
    then the end of the stream or an error of the decoder. *)
Record TarStream : Type := mkTarStream {
  entries : list TarEntry;
  stream_failure : option jserror
}.

(** The options object handed to jsdiff. *)
Record JsDiffOptions : Type := mkJsDiffOptions {
  jd_context : Z;
  jd_ignoreWhitespace : option bool
}.

(** The platform and the libraries the repository calls: the network, number
    formatting, the UTF-8 decoder, jsdiff, the binary-extensions list, the
    gzip and tar decoders and the transports other than plain URLs. *)
Class Platform : Type := {
  (** [fetch(url, { method: 'GET', headers, redirect: 'follow' })] *)
  fetch : string -> loc -> M Response;
  (** [(n / d).toFixed(1)] *)
  toFixed1 : Z -> Z -> string;
  (** [new TextDecoder('utf-8', { fatal: false }).decode(bytes)] *)
  decoder_decode : list byte -> string;
  (** jsdiff's [createTwoFilesPatch]; [inl] is an exception it throws *)
  createTwoFilesPatch :
    string -> string -> string -> string -> string -> string ->
    JsDiffOptions -> jserror + string;
  (** the default export of the binary-extensions package *)
  binaryExtensions : list string;
  (** [stream.pipeThrough(new DecompressionStream('gzip'))] *)
  gunzip : loc -> M loc;
  (** what iterating [stream.pipeThrough(createTarDecoder())] delivers *)
  tar_entries : loc -> M TarStream;
  fetchS3 : string -> S3Config -> M FetchResult;
  fetchInline : InlineData -> M FetchResult;
  fetchFile : string -> M FetchResult;
  (** the timing of two acquisitions that both fail: whether the left one
      is the first to fail *)
  left_fails_first : option SourceConfig -> option SourceConfig -> bool
}.

(** ** fetch.js: acquisition *)

Definition MAX_TARBALL_SIZE : Z := 20 * 1024 * 1024.

Definition digit_char (d : Z) : ascii := ascii_of_N (48 + Z.to_N d).

Fixpoint digits_of (fuel : nat) (n : Z) (acc : string) : string :=
  match fuel with
  | O => acc
  | S fuel' =>
      let acc' := String (digit_char (n mod 10)) acc in
      if (n <? 10)%Z then acc' else digits_of fuel' (n / 10) acc'
  end.

(** Decimal rendering of an integer, as a template literal renders a number
    below 10^21 in absolute value. *)
Definition Z_to_string (z : Z) : string :=
  if (z <? 0)%Z
  then "-" +:+ digits_of (S (Z.to_nat (Z.log2 (- z)))) (- z) ""
  else digits_of (S (Z.to_nat (Z.log2 z))) z "".

Definition digit_value (c : ascii) : Z := Z.of_N (code c) - 48.

Fixpoint parse_digits (s : string) (acc : option Z) : option Z :=
  match s with
  | String c s' =>
      if is_digit c
      then parse_digits s' (Some (10 * default 0%Z acc + digit_value c)%Z)
      else acc
  | EmptyString => acc
  end.

(** The double nearest to an integer, ties going to the even mantissa:
    an integer below 2^53 in absolute value is kept, a larger one keeps its
    53 leading bits, rounded, and what rounds to 2^1024 is an infinity. *)
Definition to_double (z : Z) : number :=
  let a := Z.abs z in
  if (a <? 2 ^ 53)%Z then Num z
  else
    let e := (Z.log2 a - 52)%Z in
    let q := Z.shiftr a e in
    let r := Z.land a (Z.ones e) in
    let half := (2 ^ (e - 1))%Z in
    let q' :=
      if (half <? r)%Z || ((r =? half)%Z && Z.odd q) then (q + 1)%Z else q in
    let v := Z.shiftl q' e in
    if (2 ^ 1024 <=? v)%Z then Infinity (z <? 0)%Z
    else Num (if (z <? 0)%Z then - v else v)%Z.

(** [parseInt(s, 10)]: leading white space, an optional sign, then the
    longest run of decimal digits, as the double nearest to their value;
    [NaN] when there is no digit. *)
Definition parseInt (s : string) : number :=
  let t := trimStart s in
  let '(negative, rest) :=
    match t with
    | String "-" r => (true, r)
    | String "+" r => (false, r)
    | _ => (false, t)
    end in
  match parse_digits rest None with
  | Some v => to_double (if negative then - v else v)
  | None => NaN
  end.

Section Fetch.
Context `{Platform}.

(** [applyAuth(headers, auth, credential)] *)
Definition applyAuth (headers : loc) (auth : option string)
    (credential : option string) : M unit :=
  match truthy_string auth with
  | None => ret tt
  | Some auth =>
      if String.eqb auth "none" then ret tt
      else
        assertDiff
          (match credential with
           | Some c => (0 <? String.length c)%nat
           | None => false
           end)
          AUTH ("Auth type '" +:+ auth +:+ "' requires a credential") ;;;
        let credential := default "" credential in
        if String.eqb auth "basic"
        then Headers_set headers "Authorization" ("Basic " +:+ credential)
        else if String.eqb auth "bearer"
        then Headers_set headers "Authorization" ("Bearer " +:+ credential)
        else throw (new_DiffError AUTH ("Unknown auth type: " +:+ auth) None)
  end.

(** [formatBytes(bytes)] *)
Definition formatBytes (bytes : number) : string :=
  match bytes with
  | NaN => "NaN MB"
  | Num b =>
      if (b <? 1024)%Z then Z_to_string b +:+ " B"
      else if (b <? 1024 * 1024)%Z then toFixed1 b 1024 +:+ " KB"
      else toFixed1 b (1024 * 1024) +:+ " MB"
  | Infinity true => "-Infinity B"
  | Infinity false => "Infinity MB"
  end.

(** [size > MAX_TARBALL_SIZE]; a comparison with [NaN] is false. *)
Definition exceeds_limit (n : number) : bool :=
  match n with
  | NaN => false
  | Num z => (MAX_TARBALL_SIZE <? z)%Z
  | Infinity negative => negb negative
  end.

(** The default of the parameter [headers = new Headers()]. *)
Definition headers_or_new (headers : option loc) : M loc :=
  match headers with
  | Some l => ret l
  | None => Headers_new
  end.

(** [fetchUrl(url, headers)] *)
Definition fetchUrl (url : string) (headers : option loc) : M FetchResult :=
  headers <- headers_or_new headers ;;
  response <- catch (fetch url headers)
    (fun error =>
       throw (DiffError_wrap FETCH error
                (Some ("Network error fetching " +:+ url)))) ;;
  if negb (resp_ok response) then
    if (resp_status response =? 401)%Z || (resp_status response =? 403)%Z
    then throw (new_DiffError AUTH
                  ("Authentication failed: " +:+
                   Z_to_string (resp_status response) +:+ " " +:+
                   resp_statusText response) None)
    else throw (new_DiffError FETCH
                  ("HTTP " +:+ Z_to_string (resp_status response) +:+ " " +:+
                   resp_statusText response +:+ " for " +:+ url) None)
  else
    let contentLength := Headers_get (resp_headers response) "Content-Length" in
    let size :=
      match truthy_string contentLength with
      | Some text => Some (parseInt text)
      | None => None
      end in
    match size with
    | Some n =>
        if exceeds_limit n
        then throw (new_DiffError SIZE
                      ("Tarball size " +:+ formatBytes n +:+
                       " exceeds limit of " +:+
                       formatBytes (Num MAX_TARBALL_SIZE)) None)
        else ret tt
    | None => ret tt
    end ;;;
    match resp_body response with
    | None => throw (new_DiffError FETCH "Response has no body" None)
    | Some b => ret (mkFetchResult b size)
    end.

Definition nonempty_string (s : option string) : bool :=
  match s with
  | Some t => (0 <? String.length t)%nat
  | None => false
  end.

(** [fetchTarball(config)] *)
Definition fetchTarball (config : option SourceConfig) : M FetchResult :=
  match config with
  | None => throw (new_DiffError FETCH "Source configuration is required" None)
  | Some config =>
      match transport config with
      | None => throw (new_DiffError FETCH "Transport type is required" None)
      | Some tr =>
          headers <- Headers_new ;;
          applyAuth headers
            (match truthy_string (auth config) with
             | Some a => Some a
             | None => Some "none"
             end)
            (credential config) ;;;
          if String.eqb tr "url" then
            assertDiff (nonempty_string (source config)) FETCH
              "URL source is required for url transport" ;;;
            fetchUrl (default "" (source config)) (Some headers)
          else if String.eqb tr "s3" then
            assertDiff (nonempty_string (source config)) FETCH
              "S3 source URI is required for s3 transport" ;;;
            match s3 config with
            | None =>
                throw (new_DiffError FETCH
                         "S3 configuration is required for s3 transport" None)
            | Some cfg => fetchS3 (default "" (source config)) cfg
            end
          else if String.eqb tr "inline" then
            match data config with
            | None =>
                throw (new_DiffError FETCH
                         "Inline data is required for inline transport" None)
            | Some d => fetchInline d
            end
          else if String.eqb tr "file" then
            assertDiff (nonempty_string (source config)) FETCH
              "File path is required for file transport" ;;;
            fetchFile (default "" (source config))
          else throw (new_DiffError FETCH ("Unknown transport: " +:+ tr) None)
      end
  end.

End Fetch.

(** ** fetch.js: the inline and S3 transports *)

Module Transports.

(** [s.endsWith(suffix)] and [s.slice(0, -1)]. *)
Definition endsWith (suffix s : string) : bool :=
  (String.length suffix <=? String.length s)%nat
  && String.eqb (drop (String.length s - String.length suffix) s) suffix.

Definition dropLast (s : string) : string := take (String.length s - 1) s.

(** [convertS3Url(source, endpoint, region = 'us-east-1')] *)
Definition convertS3Url (source : string) (endpoint region : option string)
    : M string :=
  let region := default "us-east-1" region in
  if startsWith "https://" source || startsWith "http://" source then
    ret source
  else if startsWith "s3://" source then
    let path := drop 5 source in
    match indexOf "/" path with
    | None =>
        throw (new_DiffError FETCH
                 ("Invalid S3 URI: " +:+ source +:+
                  " (must be s3://bucket/key)") None)
    | Some slashIndex =>
        let bucket := take slashIndex path in
        let key := drop (slashIndex + 1) path in
        if String.eqb bucket "" then
          throw (new_DiffError FETCH
                   ("Invalid S3 URI: " +:+ source +:+ " (empty bucket)") None)
        else if String.eqb key "" then
          throw (new_DiffError FETCH
                   ("Invalid S3 URI: " +:+ source +:+ " (empty key)") None)
        else
          match truthy_string endpoint with
          | Some endpoint =>
              let base :=
                if endsWith "/" endpoint then dropLast endpoint
                else endpoint in
              ret (base +:+ "/" +:+ bucket +:+ "/" +:+ key)
          | None =>
              ret ("https://" +:+ bucket +:+ ".s3." +:+ region +:+
                   ".amazonaws.com/" +:+ key)
          end
    end
  else
    throw (new_DiffError FETCH
             ("Invalid S3 source: " +:+ source +:+
              " (must be s3://bucket/key or https://...)") None).

(** What [new AwsClient({...})] is given. *)
Record AwsClientConfig : Type := mkAwsClientConfig {
  aws_accessKeyId : string;
  aws_secretAccessKey : string;
  aws_sessionToken : option string;
  aws_region : string;
  aws_service : string
}.

Section WithLibraries.
Context `{Platform}.

(** [atob] of the platform; [inl] is the exception it throws. *)
Variable atob : string -> jserror + string.

(** [new AwsClient(config).fetch(url)] of aws4fetch. *)
Variable aws_fetch : AwsClientConfig -> string -> M Response.

(** [base64ToUint8Array(base64)]: one byte per code unit of the binary
    string. *)
Definition base64ToUint8Array (base64 : string) : M (list byte) :=
  match atob base64 with
  | inr binary => ret (map byte_of_ascii (list_ascii_of_string binary))
  | inl error =>
      throw (DiffError_wrap FETCH error (Some "Invalid base64 data"))
  end.

(** [fetchInline(data)]; [None] is a [data] that is [undefined] or [null]. *)
Definition fetchInline (data : option InlineData) : M FetchResult :=
  assertDiff (bool_decide (is_Some data)) FETCH
    "Inline data is required for inline transport" ;;;
  bytes <- match data with
           | Some (InlineBase64 text) => base64ToUint8Array text
           | Some (InlineBytes bytes) => ret bytes
           | _ =>
               throw (new_DiffError FETCH
                        "Inline data must be Uint8Array or base64 string" None)
           end ;;
  let len := Z.of_nat (length bytes) in
  (if (MAX_TARBALL_SIZE <? len)%Z then
     throw (new_DiffError SIZE
              ("Inline data size " +:+ formatBytes (Num len) +:+
               " exceeds limit of " +:+ formatBytes (Num MAX_TARBALL_SIZE))
              None)
   else ret tt) ;;;
  stream <- alloc (StreamObj (mkStream [bytes] None)) ;;
  ret (mkFetchResult stream (Some (Num len))).

(** [fetchS3(source, s3Config)]; [None] is a configuration that is no
    object. *)
Definition fetchS3 (source : string) (s3Config : option S3Config)
    : M FetchResult :=
  assertDiff (bool_decide (is_Some s3Config)) FETCH
    "S3 configuration is required for s3 transport" ;;;
  match s3Config with
  | None => throw (type_error "cannot read properties")
  | Some s3Config =>
      assertDiff (nonempty_string (accessKeyId s3Config)) AUTH
        "S3 accessKeyId is required" ;;;
      assertDiff (nonempty_string (secretAccessKey s3Config)) AUTH
        "S3 secretAccessKey is required" ;;;
      let accessKeyId := default "" (accessKeyId s3Config) in
      let secretAccessKey := default "" (secretAccessKey s3Config) in
      let region := default "us-east-1" (region s3Config) in
      let endpoint := endpoint s3Config in
      let sessionToken := sessionToken s3Config in
      url <- convertS3Url source endpoint (Some region) ;;
      let client :=
        mkAwsClientConfig accessKeyId secretAccessKey sessionToken region
          "s3" in
      response <- catch (aws_fetch client url)
        (fun error =>
           throw (DiffError_wrap FETCH error
                    (Some ("S3 request failed for " +:+ source)))) ;;
      if negb (resp_ok response) then
        if (resp_status response =? 403)%Z || (resp_status response =? 401)%Z
        then throw (new_DiffError AUTH
                      ("S3 authentication failed: " +:+
                       Z_to_string (resp_status response) +:+ " " +:+
                       resp_statusText response) None)
        else if (resp_status response =? 404)%Z
        then throw (new_DiffError FETCH
                      ("S3 object not found: " +:+ source) None)
        else throw (new_DiffError FETCH
                      ("S3 HTTP " +:+ Z_to_string (resp_status response) +:+
                       " " +:+ resp_statusText response +:+ " for " +:+
                       source) None)
      else
        let contentLength :=
          Headers_get (resp_headers response) "Content-Length" in
        let size :=
          match truthy_string contentLength with
          | Some text => Some (parseInt text)
          | None => None
          end in
        match size with
        | Some n =>
            if exceeds_limit n
            then throw (new_DiffError SIZE
                          ("S3 object size " +:+ formatBytes n +:+
                           " exceeds limit of " +:+
                           formatBytes (Num MAX_TARBALL_SIZE)) None)
            else ret tt
        | None => ret tt
        end ;;;
        match resp_body response with
        | None => throw (new_DiffError FETCH "S3 response has no body" None)
        | Some b => ret (mkFetchResult b size)
        end
  end.

End WithLibraries.

End Transports.

(** ** decompress.js and tar.js: from a byte stream to a map of files *)

Definition FILE_TYPES : list string := ["file"].
Definition SYMLINK_TYPES : list string := ["symlink"; "link"].

(** [set.has(x)] for a set given by its elements *)
Definition has (xs : list string) (x : string) : bool :=
  existsb (String.eqb x) xs.

(** [/^package\//] *)
Definition PACKAGE_PREFIX : RegExp.t :=
  RegExp.mk (RegExp.lit "package/") true false false.

Fixpoint for_each {A} (xs : list A) (f : A -> M unit) : M unit :=
  match xs with
  | [] => ret tt
  | x :: rest => f x ;;; for_each rest f
  end.

Fixpoint foldM {A S} (f : S -> A -> M S) (xs : list A) (s : S) : M S :=
  match xs with
  | [] => ret s
  | x :: rest => s' <- f s x ;; foldM f rest s'
  end.

(** Whether a value is a readable stream of the store. *)
Definition is_readable_stream (v : option loc) : M bool :=
  fun h =>
    match v with
    | Some l =>
        match h !! l with
        | Some (StreamObj _) => (Ok true, h)
        | _ => (Ok false, h)
        end
    | None => (Ok false, h)
    end.

(** The [while (true)] loop of [streamToBytes]; it ends at the latest when
    every pending chunk is read, so the pending count plus one bounds it. *)
Fixpoint read_chunks (fuel : nat) (reader : loc) (chunks : list (list byte))
    : M (list (list byte)) :=
  match fuel with
  | O => ret chunks
  | S fuel' =>
      r <- reader_read reader ;;
      match r with
      | None => ret chunks
      | Some value => read_chunks fuel' reader (chunks ++ [value])
      end
  end.

(** [streamToBytes(stream)] *)
Definition streamToBytes (stream : loc) : M (list byte) :=
  fun h =>
    (chunks <- read_chunks (S (stream_pending stream h)) stream [] ;;
     match chunks with
     | [chunk] => ret chunk
     | _ => ret (concat chunks)
     end) h.

Section Tar.
Context `{Platform}.

(** [decompress(stream)] *)
Definition decompress (stream : option loc) : M loc :=
  valid <- is_readable_stream stream ;;
  match stream, valid with
  | Some l, true =>
      catch (gunzip l)
        (fun error =>
           throw (DiffError_wrap DECOMPRESS error
                    (Some "Failed to create decompression pipeline")))
  | _, _ =>
      throw (new_DiffError DECOMPRESS
               "Invalid input: expected a ReadableStream" None)
  end.

(** The body of the [for await] loop of [extractTarball]. *)
Definition extract_entry (files : loc) (entry : TarEntry) : M unit :=
  let header := header entry in
  let body := body entry in
  if has SYMLINK_TYPES (type header) then
    stream_cancel body ;;;
    throw (new_DiffError TAR
             ("Symlinks are not supported: " +:+ name header +:+ " -> " +:+
              default "(unknown)" (truthy_string (linkname header))) None)
  else if negb (has FILE_TYPES (type header)) then
    stream_cancel body
  else
    let path := RegExp.replace PACKAGE_PREFIX (fun _ => "") (name header) in
    if String.eqb path "" then stream_cancel body
    else
      content <- streamToBytes body ;;
      Map_set files path content.

(** [extractTarball(stream)] *)
Definition extractTarball (stream : option loc) : M loc :=
  valid <- is_readable_stream stream ;;
  match stream, valid with
  | Some l, true =>
      files <- Map_new ;;
      catch
        (entryStream <- tar_entries l ;;
         for_each (entries entryStream) (extract_entry files) ;;;
         match stream_failure entryStream with
         | Some error => throw error
         | None => ret tt
         end)
        (fun error =>
           if is_DiffError error then throw error
           else throw (DiffError_wrap TAR error
                         (Some "Failed to parse tarball"))) ;;;
      ret files
  | _, _ =>
      throw (new_DiffError TAR "Invalid input: expected a ReadableStream" None)
  end.

End Tar.

(** ** tar.js: extraction with options *)

(** The options of [extractTarballWithOptions]; the filter is a callback
    and may throw. *)
Module ExtractOptions.
Record t : Type := mk {
  stripPackagePrefix : option bool;
  filter : option (string -> TarHeader -> M bool)
}.
End ExtractOptions.

Section TarOptions.
Context `{Platform}.

(** The body of the [for await] loop of [extractTarballWithOptions]. *)
Definition extract_entry_with (stripPackagePrefix : bool)
    (filter : option (string -> TarHeader -> M bool))
    (files : loc) (entry : TarEntry) : M unit :=
  let header := header entry in
  let body := body entry in
  if has SYMLINK_TYPES (type header) then
    stream_cancel body ;;;
    throw (new_DiffError TAR
             ("Symlinks are not supported: " +:+ name header +:+ " -> " +:+
              default "(unknown)" (truthy_string (linkname header))) None)
  else if negb (has FILE_TYPES (type header)) then
    stream_cancel body
  else
    let path := name header in
    let path :=
      if stripPackagePrefix
      then RegExp.replace PACKAGE_PREFIX (fun _ => "") path
      else path in
    if String.eqb path "" then stream_cancel body
    else
      keep <- match filter with
              | Some f => f path header
              | None => ret true
              end ;;
      if negb keep then stream_cancel body
      else
        content <- streamToBytes body ;;
        Map_set files path content.

(** [extractTarballWithOptions(stream, options)] *)
Definition extractTarballWithOptions (stream : option loc)
    (options : option ExtractOptions.t) : M loc :=
  let options := default (ExtractOptions.mk None None) options in
  let strip := default true (ExtractOptions.stripPackagePrefix options) in
  let filter := ExtractOptions.filter options in
  valid <- is_readable_stream stream ;;
  match stream, valid with
  | Some l, true =>
      files <- Map_new ;;
      catch
        (entryStream <- tar_entries l ;;
         for_each (entries entryStream) (extract_entry_with strip filter files) ;;;
         match stream_failure entryStream with
         | Some error => throw error
         | None => ret tt
         end)
        (fun error =>
           if is_DiffError error then throw error
           else throw (DiffError_wrap TAR error
                         (Some "Failed to parse tarball"))) ;;;
      ret files
  | _, _ =>
      throw (new_DiffError TAR "Invalid input: expected a ReadableStream" None)
  end.

End TarOptions.

(** ** binary.js: classification by extension *)

Definition NPM_BINARY_EXTENSIONS : list string := ["wasm"; "node"].

(** [getExtension(path)] *)
Definition getExtension (path : string) : string :=
  let filename :=
    match lastIndexOf "/" path with
    | None => path
    | Some lastSlash => drop (lastSlash + 1) path
    end in
  match lastIndexOf "." filename with
  | None => ""
  | Some O => toLowerCase (drop 1 filename)
  | Some lastDot => toLowerCase (drop (lastDot + 1) filename)
  end.

Section Binary.
Context `{Platform}.

(** [new Set(binaryExtensions)] *)
Definition BINARY_EXTENSIONS_SET : list string := binaryExtensions.

(** [isBinaryPath(path)] *)
Definition isBinaryPath (path : string) : bool :=
  if (String.length path =? 0)%nat then false
  else
    let ext := getExtension path in
    if String.eqb ext "" then false
    else has BINARY_EXTENSIONS_SET ext || has NPM_BINARY_EXTENSIONS ext.

(** [shouldPrintPatch(path, opts)] *)
Definition shouldPrintPatch (path : string) (opts : DiffOptions) : bool :=
  if default false (text opts) then true else negb (isBinaryPath path).


(** [isBinaryExtension(ext)] *)
Definition isBinaryExtension (ext : string) : bool :=
  if (String.length ext =? 0)%nat then false
  else
    let lowerExt := toLowerCase ext in
    has BINARY_EXTENSIONS_SET lowerExt || has NPM_BINARY_EXTENSIONS lowerExt.

End Binary.

(** ** diff.js: per-file diffs *)

Inductive Status : Type := modified | added | deleted | unchanged.

Record FileDiff : Type := mkFileDiff {
  path : string;
  status : Status;
  isBinary : bool;
  patch : option string
}.

(** [/\r\n?/g] *)
Definition LINE_ENDING : RegExp.t :=
  RegExp.mk
    (RegExp.Seq (RegExp.Chr (RegExp.Pos (RegExp.one cr)))
                (RegExp.opt (RegExp.Pos (RegExp.one lf))))
    false false true.

(** [normalizeLineEndings(text)] *)
Definition normalizeLineEndings (text : string) : string :=
  RegExp.replace LINE_ENDING (fun _ => nl) text.

(** The scan of [areIdentical] over two buffers of equal length. *)
Fixpoint same_bytes (a b : list byte) : bool :=
  match a, b with
  | x :: a', y :: b' => if Byte.eqb x y then same_bytes a' b' else false
  | _, _ => true
  end.

(** [areIdentical(a, b)] *)
Definition areIdentical (a b : list byte) : bool :=
  if negb (length a =? length b)%nat then false else same_bytes a b.

(** [hasChanges(patch)] *)
Definition hasChanges (patch : string) : bool :=
  includes (nl +:+ "@@ ") patch.

(** [new Set(items)] spread into an array: first occurrences, in order. *)
Definition Set_from (items : list string) : list string :=
  fold_left (fun acc x => if has acc x then acc else acc ++ [x]) items [].

(** [array.sort()]: ascending by code units. *)
Definition sort (items : list string) : list string :=
  merge_sort String.le items.

(** [array.sort()] on the strings of JavaScript in full, sequences of 16-bit
    code units: ascending by code units, a proper prefix first. [sort] is
    its restriction to the strings of this development. *)
Module Utf16.

Definition ustring : Type := list N.

Fixpoint leb (s t : ustring) : bool :=
  match s, t with
  | [], _ => true
  | _ :: _, [] => false
  | x :: s', y :: t' => (x <? y)%N || ((x =? y)%N && leb s' t')
  end.

Definition le (s t : ustring) : Prop := leb s t = true.

Global Instance le_dec : RelDecision le := fun s t => decide (leb s t = true).

Definition sort (items : list ustring) : list ustring := merge_sort le items.

End Utf16.

(** The prefixes a function works with once the options are destructured. *)
Definition srcPfx (opts : DiffOptions) : string :=
  if default false (noPrefix opts) then "" else default "a/" (srcPrefix opts).
Definition dstPfx (opts : DiffOptions) : string :=
  if default false (noPrefix opts) then "" else default "b/" (dstPrefix opts).

Section Diff.
Context `{Platform}.

(** [decodeBytes(bytes)] *)
Definition decodeBytes (bytes : list byte) : string := decoder_decode bytes.

(** [computeDiff(oldPath, newPath, oldContent, newContent, options)] *)
Definition computeDiff (oldPath newPath oldContent newContent : string)
    (options : option loc) : M string :=
  opts <- read_options options ;;
  let context := default 3%Z (context opts) in
  let ignoreAllSpace := default false (ignoreAllSpace opts) in
  let ignoreSpaceChange := default false (ignoreSpaceChange opts) in
  let oldNormalized := normalizeLineEndings oldContent in
  let newNormalized := normalizeLineEndings newContent in
  let jsdiffOptions :=
    mkJsDiffOptions context
      (if ignoreAllSpace || ignoreSpaceChange then Some true else None) in
  match createTwoFilesPatch oldPath newPath oldNormalized newNormalized
          "" "" jsdiffOptions with
  | inr patch => ret patch
  | inl error =>
      throw (DiffError_wrap DIFF error
               (Some ("Failed to compute diff for " +:+ oldPath)))
  end.

(** The three cases shared by [computeTreeDiff] and [computeFileDiff], once
    the caller has destructured [options] into [opts]; [None] is the case
    where neither side has the file. *)
Definition diff_cases (opts : DiffOptions) (path : string)
    (lhs rhs : option (list byte)) (options : option loc)
    : M (option FileDiff) :=
  match lhs, rhs with
  | Some lbytes, Some rbytes =>
      if areIdentical lbytes rbytes
      then ret (Some (mkFileDiff path unchanged false None))
      else
        let oldContent := decodeBytes lbytes in
        let newContent := decodeBytes rbytes in
        patch <- computeDiff (srcPfx opts +:+ path) (dstPfx opts +:+ path)
                   oldContent newContent options ;;
        ret (Some (mkFileDiff path modified false
                     (if hasChanges patch then Some patch else None)))
  | None, Some rbytes =>
      let newContent := decodeBytes rbytes in
      patch <- computeDiff "/dev/null" (dstPfx opts +:+ path)
                 "" newContent options ;;
      ret (Some (mkFileDiff path added false (Some patch)))
  | Some lbytes, None =>
      let oldContent := decodeBytes lbytes in
      patch <- computeDiff (srcPfx opts +:+ path) "/dev/null"
                 oldContent "" options ;;
      ret (Some (mkFileDiff path deleted false (Some patch)))
  | None, None => ret None
  end.

(** [computeTreeDiff(leftTree, rightTree, options)] *)
Definition computeTreeDiff (leftTree rightTree : loc) (options : option loc)
    : M (list FileDiff) :=
  opts <- read_options options ;;
  leftKeys <- Map_keys leftTree ;;
  rightKeys <- Map_keys rightTree ;;
  let allPaths := Set_from (leftKeys ++ rightKeys) in
  let sortedPaths := sort allPaths in
  foldM (fun results path =>
           lhs <- Map_get leftTree path ;;
           rhs <- Map_get rightTree path ;;
           r <- diff_cases opts path lhs rhs options ;;
           match r with
           | Some d => ret (results ++ [d])
           | None => ret results
           end)
        sortedPaths [].

(** [computeFileDiff(path, left, right, options)] *)
Definition computeFileDiff (path : string) (lhs rhs : option (list byte))
    (options : option loc) : M FileDiff :=
  opts <- read_options options ;;
  r <- diff_cases opts path lhs rhs options ;;
  match r with
  | Some d => ret d
  | None =>
      throw (new_DiffError DIFF ("Invalid file diff state for " +:+ path) None)
  end.

End Diff.

(** ** format.js: the unified output *)

Record FormatResult : Type := mkFormatResult {
  output : string;
  filesChanged : nat;
  filesAdded : nat;
  filesDeleted : nat
}.

(** The first line of every block. *)
Definition git_header (opts : DiffOptions) (path : string) : string :=
  "diff --git " +:+ srcPfx opts +:+ path +:+ " " +:+ dstPfx opts +:+ path.

(** [formatBinaryHeader(path, status, options)] *)
Definition formatBinaryHeader (path : string) (status : Status)
    (options : option loc) : M string :=
  opts <- read_options options ;;
  let lines :=
    git_header opts path ::
    match status with
    | added =>
        ["new file mode 100644"; "index 0000000..0000000";
         "Binary files /dev/null and " +:+ dstPfx opts +:+ path +:+ " differ"]
    | deleted =>
        ["deleted file mode 100644"; "index 0000000..0000000";
         "Binary files " +:+ srcPfx opts +:+ path +:+ " and /dev/null differ"]
    | _ =>
        ["index 0000000..0000000 100644";
         "Binary files " +:+ srcPfx opts +:+ path +:+ " and " +:+
         dstPfx opts +:+ path +:+ " differ"]
    end in
  ret (join nl lines +:+ nl).

(** [formatTextDiff(path, patch, status, options)] *)
Definition formatTextDiff (path patch : string) (status : Status)
    (options : option loc) : M string :=
  opts <- read_options options ;;
  let lines :=
    git_header opts path ::
    match status with
    | added => ["new file mode 100644"; "index 0000000..0000000"]
    | deleted => ["deleted file mode 100644"; "index 0000000..0000000"]
    | _ => ["index 0000000..0000000 100644"]
    end ++ [trim patch] in
  ret (join nl lines +:+ nl).

(** [formatNameOnly(paths)] *)
Definition formatNameOnly (paths : list string) : string :=
  match paths with
  | [] => ""
  | _ => join nl paths +:+ nl
  end.

(** The variables the loop of [formatDiff] updates. *)
Record LoopState : Type := mkLoopState {
  outputParts : list string;
  changedPaths : list string;
  added_count : nat;
  deleted_count : nat
}.

Definition push_part (part : string) (st : LoopState) : LoopState :=
  mkLoopState (outputParts st ++ [part]) (changedPaths st)
    (added_count st) (deleted_count st).

(** The patch of a file diff when it is a non-empty string with a hunk:
    [fileDiff.patch && hasChanges(fileDiff.patch)]. *)
Definition patch_with_changes (p : option string) : option string :=
  match truthy_string p with
  | Some text => if hasChanges text then Some text else None
  | None => None
  end.

(** The status the loop of [formatDiff] starts from; [None] when neither
    map has the path. *)
Definition classify (lhs rhs : option (list byte)) : option Status :=
  match lhs, rhs with
  | Some _, Some _ => Some modified
  | None, Some _ => Some added
  | Some _, None => Some deleted
  | None, None => None
  end.

(** [filesAdded++] and [filesDeleted++]. *)
Definition count_status (status : Status) (st : LoopState) : LoopState :=
  match status with
  | added =>
      mkLoopState (outputParts st) (changedPaths st)
        (S (added_count st)) (deleted_count st)
  | deleted =>
      mkLoopState (outputParts st) (changedPaths st)
        (added_count st) (S (deleted_count st))
  | _ => st
  end.

(** [changedPaths.push(path)] *)
Definition push_changed (path : string) (st : LoopState) : LoopState :=
  mkLoopState (outputParts st) (changedPaths st ++ [path])
    (added_count st) (deleted_count st).

(** The byte comparison [formatDiff] makes in line for a path both maps
    have. *)
Definition identical (lhs rhs : option (list byte)) : bool :=
  match lhs, rhs with
  | Some l, Some r => (length l =? length r)%nat && same_bytes l r
  | _, _ => false
  end.

Section Format.
Context `{Platform}.

(** The end of the loop body, from [if (isBinary)] on: at most one block is
    pushed. *)
Definition emit_block (path : string) (status : Status)
    (lhs rhs : option (list byte)) (options : option loc) (isBinary : bool)
    (st : LoopState) : M LoopState :=
  if isBinary then
    part <- formatBinaryHeader path status options ;;
    ret (push_part part st)
  else
    fileDiff <- computeFileDiff path lhs rhs options ;;
    match patch_with_changes (patch fileDiff) with
    | Some p =>
        part <- formatTextDiff path p status options ;;
        ret (push_part part st)
    | None =>
        match status with
        | added | deleted =>
            emptyPatch <- computeFileDiff path
              (match status with deleted => lhs | _ => None end)
              (match status with added => rhs | _ => None end)
              options ;;
            match truthy_string (patch emptyPatch) with
            | Some q =>
                part <- formatTextDiff path q status options ;;
                ret (push_part part st)
            | None => ret st
            end
        | _ => ret st
        end
    end.

(** The body of the loop of [formatDiff] for one path. *)
Definition formatDiff_step (leftTree rightTree : loc) (options : option loc)
    (nameOnly text : bool) (st : LoopState) (path : string) : M LoopState :=
  lhs <- Map_get leftTree path ;;
  rhs <- Map_get rightTree path ;;
  match classify lhs rhs with
  | None => ret st
  | Some status =>
      let st := count_status status st in
      let isBinary :=
        negb (shouldPrintPatch path
                (mkDiffOptions None None None None None None None (Some text))) in
      if identical lhs rhs then ret st
      else
        let st := push_changed path st in
        if nameOnly then ret st
        else emit_block path status lhs rhs options isBinary st
  end.

(** The loop of [formatDiff] over the sorted paths. *)
Definition formatDiff_loop (leftTree rightTree : loc) (options : option loc)
    : M (bool * LoopState) :=
  opts <- read_options options ;;
  let nameOnly := default false (nameOnly opts) in
  let text := default false (text opts) in
  leftKeys <- Map_keys leftTree ;;
  rightKeys <- Map_keys rightTree ;;
  let allPaths := Set_from (leftKeys ++ rightKeys) in
  let sortedPaths := sort allPaths in
  st <- foldM (formatDiff_step leftTree rightTree options nameOnly text)
          sortedPaths (mkLoopState [] [] 0 0) ;;
  ret (nameOnly, st).

(** [formatDiff(leftTree, rightTree, options)] *)
Definition formatDiff (leftTree rightTree : loc) (options : option loc)
    : M FormatResult :=
  r <- formatDiff_loop leftTree rightTree options ;;
  let '(nameOnly, st) := r in
  let output :=
    if nameOnly then formatNameOnly (changedPaths st)
    else join nl (outputParts st) in
  ret (mkFormatResult output (length (changedPaths st))
         (added_count st) (deleted_count st)).

End Format.

(** ** format.js: one file at a time *)

Section FormatFile.
Context `{Platform}.

(** [formatFileDiff(path, left, right, options)]; [None] is [null]. *)
Definition formatFileDiff (path : string) (lhs rhs : option (list byte))
    (options : option loc) : M (option string) :=
  opts <- read_options options ;;
  let text := default false (text opts) in
  let continue (status : Status) : M (option string) :=
    let isBinary :=
      negb (shouldPrintPatch path
              (mkDiffOptions None None None None None None None (Some text))) in
    if isBinary then
      part <- formatBinaryHeader path status options ;;
      ret (Some part)
    else
      fileDiff <- computeFileDiff path lhs rhs options ;;
      match patch_with_changes (patch fileDiff) with
      | None =>
          match status with
          | added | deleted =>
              part <- formatTextDiff path
                        (default "" (truthy_string (patch fileDiff)))
                        status options ;;
              ret (Some part)
          | _ => ret None
          end
      | Some p =>
          part <- formatTextDiff path p status options ;;
          ret (Some part)
      end in
  match lhs, rhs with
  | Some l, Some r =>
      if (length l =? length r)%nat && same_bytes l r then ret None
      else continue modified
  | None, Some _ => continue added
  | Some _, None => continue deleted
  | None, None => ret None
  end.

End FormatFile.

(** ** index.js: the entry points *)

Section Index.
Context `{Platform}.

(** [acquireFiles(config)] *)
Definition acquireFiles (config : option SourceConfig) : M loc :=
  r <- fetchTarball config ;;
  tarStream <- decompress (Some (stream r)) ;;
  files <- extractTarball (Some tarStream) ;;
  ret files.

(** [await Promise.all([a, b])] for two computations that are both started
    before either is awaited: each runs to its end, also when the other
    fails, and the store is the one the two leave. When one fails, its error
    is thrown; when both fail, the error thrown is the one of the promise
    that is rejected first, which [left_first] tells. *)
Definition Promise_all2 {A B} (left_first : bool) (a : M A) (b : M B)
    : M (A * B) :=
  fun h =>
    match a h with
    | (Ok x, h1) =>
        match b h1 with
        | (Ok y, h2) => (Ok (x, y), h2)
        | (Throw e, h2) => (Throw e, h2)
        end
    | (Throw e1, h1) =>
        match b h1 with
        | (Ok _, h2) => (Throw e1, h2)
        | (Throw e2, h2) => (Throw (if left_first then e1 else e2), h2)
        end
    end.

(** [diffWithStats(left, right, options)] *)
Definition diffWithStats (lhs rhs : option SourceConfig)
    (options : option loc) : M FormatResult :=
  assertDiff (bool_decide (is_Some lhs)) FETCH
    "Left source configuration is required" ;;;
  assertDiff (bool_decide (is_Some rhs)) FETCH
    "Right source configuration is required" ;;;
  files <- Promise_all2 (left_fails_first lhs rhs)
             (acquireFiles lhs) (acquireFiles rhs) ;;
  let '(leftFiles, rightFiles) := files in
  formatDiff leftFiles rightFiles options.

(** [diff(left, right, options)] *)
Definition diff (lhs rhs : option SourceConfig) (options : option loc)
    : M string :=
  assertDiff (bool_decide (is_Some lhs)) FETCH
    "Left source configuration is required" ;;;
  assertDiff (bool_decide (is_Some rhs)) FETCH
    "Right source configuration is required" ;;;
  files <- Promise_all2 (left_fails_first lhs rhs)
             (acquireFiles lhs) (acquireFiles rhs) ;;
  let '(leftFiles, rightFiles) := files in
  result <- formatDiff leftFiles rightFiles options ;;
  ret (output result).

End Index.

(** ** bin/difftar.js: from a package spec to a tarball URL *)

Module Cli.

(** [s.split(c)] for a single character. *)
Fixpoint split (c : ascii) (s : string) : list string :=
  match s with
  | EmptyString => [EmptyString]
  | String a s' =>
      if Ascii.eqb a c then EmptyString :: split c s'
      else
        match split c s' with
        | first :: rest => String a first :: rest
        | [] => [String a EmptyString]
        end
  end.

(** [specToUrl(spec)]; an array element that is [undefined] is rendered as
    the text [undefined] by the template. *)
Definition specToUrl (spec : string) : string :=
  if startsWith "http://" spec || startsWith "https://" spec then spec
  else
    let at_version (atIndex : option nat) : string * string :=
      match atIndex with
      | Some (S i) => (take (S i) spec, drop (S i + 1) spec)
      | _ => (spec, "latest")
      end in
    let '(name, version) :=
      if startsWith "@" spec then at_version (lastIndexOf "@" spec)
      else at_version (indexOf "@" spec) in
    let basename :=
      if startsWith "@" name
      then default "undefined" (split "/" name !! 1)
      else name in
    "https://registry.npmjs.org/" +:+ name +:+ "/-/" +:+ basename +:+ "-" +:+
    version +:+ ".tgz".

End Cli.

(** ** A reference platform

    A small executable instance of [Platform], used to run the model on
    concrete inputs. The network answers every request with one given
    response; the gzip stage passes the stream on; the tar decoder delivers
    one given list of regular files under [package/]; the differ prints the
    header jsdiff prints and, for texts that differ, one hunk that replaces
    the old lines by the new ones; texts that are equal get no hunk, as in
    jsdiff. The extension list is an excerpt of the package's list. *)

Module Reference.

(** Rounding to one decimal, halves up, for a non-negative quotient. *)
Definition toFixed1 (n d : Z) : string :=
  let q := ((20 * Z.abs n + d) / (2 * d))%Z in
  (if (n <? 0)%Z then "-" else "") +:+
  Z_to_string (q / 10) +:+ "." +:+ String (digit_char (q mod 10)) "".

Definition ascii_of_byte (b : byte) : ascii := ascii_of_N (Byte.to_N b).

(** Decoding of ASCII text. *)
Definition decode (bytes : list byte) : string :=
  string_of_list_ascii (map ascii_of_byte bytes).

Definition encode (s : string) : list byte :=
  map (fun c => default x00 (Byte.of_N (N_of_ascii c))) (list_ascii_of_string s).

(** The lines of a text, without their terminators. *)
Fixpoint lines_go (cur : string) (s : string) : list string :=
  match s with
  | EmptyString => match cur with EmptyString => [] | _ => [String.rev cur] end
  | String c s' =>
      if Ascii.eqb c lf then String.rev cur :: lines_go "" s'
      else lines_go (String c cur) s'
  end.
Definition lines (s : string) : list string := lines_go "" s.

Definition hunk (oldStr newStr : string) : list string :=
  let o := lines oldStr in
  let n := lines newStr in
  let start (k : nat) := if (k =? 0)%nat then "0" else "1" in
  ("@@ -" +:+ start (length o) +:+ "," +:+ Z_to_string (Z.of_nat (length o)) +:+
   " +" +:+ start (length n) +:+ "," +:+ Z_to_string (Z.of_nat (length n)) +:+
   " @@")
  :: map (fun l => "-" +:+ l) o ++ map (fun l => "+" +:+ l) n.

Definition tab : string := String (ascii_of_N 9) "".

Definition createTwoFilesPatch
    (oldFileName newFileName oldStr newStr oldHeader newHeader : string)
    (options : JsDiffOptions) : jserror + string :=
  inr (join nl
         ((if String.eqb oldFileName newFileName
           then ["Index: " +:+ oldFileName] else []) ++
          ["==================================================================="
           ; "--- " +:+ oldFileName +:+ tab +:+ oldHeader
           ; "+++ " +:+ newFileName +:+ tab +:+ newHeader] ++
          (if String.eqb oldStr newStr then [] else hunk oldStr newStr))
       +:+ nl).

Definition binaryExtensions : list string :=
  ["3dm"; "7z"; "avi"; "bin"; "bmp"; "bz2"; "class"; "dll"; "docx"; "eot";
   "exe"; "gif"; "gz"; "ico"; "jar"; "jpeg"; "jpg"; "mp3"; "mp4"; "otf";
   "pdf"; "png"; "pptx"; "tar"; "tgz"; "ttf"; "webp"; "woff"; "woff2";
   "xlsx"; "zip"].

(** One stream per file, and the entry that carries it. *)
Fixpoint tar_entries_of (files : list (string * list byte))
    : M (list TarEntry) :=
  match files with
  | [] => ret []
  | (p, content) :: rest =>
      b <- alloc (StreamObj (mkStream [content] None)) ;;
      es <- tar_entries_of rest ;;
      ret (mkTarEntry (mkTarHeader ("package/" +:+ p) "file" None) b :: es)
  end.

Definition unsupported {A} : M A :=
  throw (PlainError "transport outside the reference platform").

(** Every request gets [response]; when it has a body, the body is a fresh
    stream. *)
Definition respond (response : Response) (url : string) (headers : loc)
    : M Response :=
  match resp_body response with
  | Some _ =>
      b <- alloc (StreamObj (mkStream [] None)) ;;
      ret (mkResponse (resp_status response) (resp_statusText response)
             (resp_headers response) (Some b))
  | None => ret response
  end.

(** The platform that answers with [response] and unpacks [files]. *)
Definition platform (response : Response) (files : list (string * list byte))
    : Platform :=
  Build_Platform
    (respond response)
    toFixed1
    decode
    createTwoFilesPatch
    binaryExtensions
    (fun l => ret l)
    (fun _ => es <- tar_entries_of files ;; ret (mkTarStream es None))
    (fun _ _ => unsupported)
    (fun _ => unsupported)
    (fun _ => unsupported)
    (fun _ _ => true).

End Reference.


(** * Vocabulary of the properties *)

(** The predicates and the sample data the statements below are written
    with. *)

(** A computation that leaves every store as it found it. *)
Definition readonly {A} (m : M A) : Prop := forall h, snd (m h) = h.





(** An options record with the two whitespace fields replaced. *)
Definition with_space_flags (base : DiffOptions)
    (allSpace spaceChange : option bool) : DiffOptions :=
  mkDiffOptions (nameOnly base) (context base) allSpace spaceChange
    (noPrefix base) (srcPrefix base) (dstPrefix base) (text base).

Module RegExpSpec.
Import RegExp.

(** Properties of texts that pass to every tail. *)
Definition tail_closed (Q : string -> Prop) : Prop :=
  forall c s, Q (String c s) -> Q s.

(** No code unit of [s] is in [P]. *)
Fixpoint free_of (P : ascii -> bool) (s : string) : bool :=
  match s with
  | EmptyString => true
  | String c s' => negb (P c) && free_of P s'
  end.

(** Every match of [r] holds a code unit of [P]. *)
Fixpoint needs (ic : bool) (P : ascii -> bool) (r : regex) : Prop :=
  match r with
  | Eps => False
  | Chr c => forall x, test ic c x = true -> P x = true
  | Seq r1 r2 => needs ic P r1 \/ needs ic P r2
  | Alt r1 r2 => needs ic P r1 /\ needs ic P r2
  | Rep c lo _ => 1 <= lo /\ forall x, test ic c x = true -> P x = true
  end.

(** The 256 code units, to decide [needs] by enumeration. *)
Definition all_ascii : list ascii := map ascii_of_nat (List.seq 0 256).

(** Every code unit the class [c] accepts is in [P]. *)
Definition class_within (ic : bool) (c : cclass) (P : ascii -> bool) : bool :=
  forallb (fun x => implb (test ic c x) (P x)) all_ascii.

(** [needs], decided. *)
Fixpoint needs_b (ic : bool) (P : ascii -> bool) (r : regex) : bool :=
  match r with
  | Eps => false
  | Chr c => class_within ic c P
  | Seq r1 r2 => needs_b ic P r1 || needs_b ic P r2
  | Alt r1 r2 => needs_b ic P r1 && needs_b ic P r2
  | Rep c lo _ => (1 <=? lo)%nat && class_within ic c P
  end.

End RegExpSpec.

(** The code units the credential patterns cannot do without. *)
Definition is_sep (c : ascii) : bool := RegExp.any_of ":=" c.
Definition is_b (c : ascii) : bool := RegExp.member true (RegExp.one "B") c.
Definition is_e (c : ascii) : bool := RegExp.member true (RegExp.one "e") c.

(** No [:] and no [=], and no [b] directly followed by an [e] (in either
    case); [pb] tells whether the code unit before the text is a [b]. *)
Fixpoint clean_from (pb : bool) (s : string) : bool :=
  match s with
  | EmptyString => true
  | String c s' =>
      negb (is_sep c) && negb (pb && is_e c) && clean_from (is_b c) s'
  end.

(** A text no credential pattern matches in. *)
Definition clean (s : string) : Prop := exists pb, clean_from pb s = true.




Section SizeGateSpec.
Context `{Platform}.


End SizeGateSpec.

(** The paths [computeTreeDiff] and [formatDiff] enumerate for two maps. *)
Definition sortedPaths (L R : list (string * list byte)) : list string :=
  sort (Set_from (keys L ++ keys R)).

(** A path one of the maps has, and that the two maps do not both have
    with the same bytes. *)
Definition changed (L R : list (string * list byte)) (p : string) : bool :=
  match assoc_get p L, assoc_get p R with
  | None, None => false
  | lhs, rhs => negb (identical lhs rhs)
  end.

(** A path only the right map has. *)
Definition only_right (L R : list (string * list byte)) (p : string) : bool :=
  match assoc_get p L, assoc_get p R with
  | None, Some _ => true
  | _, _ => false
  end.

(** A path only the left map has. *)
Definition only_left (L R : list (string * list byte)) (p : string) : bool :=
  match assoc_get p L, assoc_get p R with
  | Some _, None => true
  | _, _ => false
  end.

(** A block for [p]: a text that starts with the line [diff --git ...] of
    that path. *)
Definition block_of (opts : DiffOptions) (p : string) (b : string) : Prop :=
  startsWith (git_header opts p +:+ nl) b = true.

(** Two maps with the same keys and, under every key, the same bytes. *)
Definition same_files (L R : list (string * list byte)) : Prop :=
  (forall k, In k (keys L) <-> In k (keys R))
  /\ forall k b1 b2,
       assoc_get k L = Some b1 -> assoc_get k R = Some b2 -> b1 = b2.

(** What the loop of [formatDiff] has computed after the paths [done]. *)
Definition loop_inv (opts : DiffOptions) (L R : list (string * list byte))
    (flag : bool) (done : list string) (st : LoopState) : Prop :=
  changedPaths st = List.filter (changed L R) done
  /\ added_count st = length (List.filter (only_right L R) done)
  /\ deleted_count st = length (List.filter (only_left L R) done)
  /\ exists emitted,
       emitted `sublist_of` List.filter (changed L R) done
       /\ Forall2 (block_of opts) emitted (outputParts st)
       /\ (flag = true -> outputParts st = []).

(** A computation under which the map at [f] stays a map whose keys all
    satisfy [good], whatever else it does to the store. *)
Definition keeps {A} (f : loc) (good : string -> Prop) (m : M A) : Prop :=
  forall h r h',
    m h = (r, h') ->
    (exists x, h !! f = Some (MapObj x) /\ Forall good (keys x)) ->
    exists x, h' !! f = Some (MapObj x) /\ Forall good (keys x).

(** A key [k] that comes from a file entry of [es] by stripping. *)
Definition key_from (es : list TarEntry) (k : string) : Prop :=
  k <> ""
  /\ exists e, In e es
       /\ type (header e) = "file"
       /\ (name (header e) = "package/" +:+ k
           \/ (name (header e) = k /\ startsWith "package/" k = false)).

(** Two trees that differ in one file by its line endings only. *)
Definition crlf_left : list (string * list byte) :=
  [("f.txt", Reference.encode ("x" +:+ String cr nl))].
Definition crlf_right : list (string * list byte) :=
  [("f.txt", Reference.encode ("x" +:+ nl))].
Definition crlf_store : heap := [MapObj crlf_left; MapObj crlf_right].

(** The trees of the spec's scenarios: a modified, a deleted, an added and
    an unchanged file. *)
Definition sample_left : list (string * list byte) :=
  [("index.js", Reference.encode "const x = 1;");
   ("unchanged.js", Reference.encode "s");
   ("deleted.js", Reference.encode "a")].
Definition sample_right : list (string * list byte) :=
  [("added.js", Reference.encode "b");
   ("index.js", Reference.encode "const x = 2;");
   ("unchanged.js", Reference.encode "s")].
Definition sample_store : heap := [MapObj sample_left; MapObj sample_right].

(** A computation that returns a value and leaves the store as it is. *)
Definition returns {A} (m : M A) (h : heap) : Prop :=
  exists a, m h = (Ok a, h).

Section TotalitySpec.
Context `{Platform}.

(** The differ never throws. *)
Definition differ_total : Prop :=
  forall a b c d e f o, exists p, createTwoFilesPatch a b c d e f o = inr p.

End TotalitySpec.

(** ** Vocabulary of the further properties *)

(** The characters of a bearer token: [[A-Za-z0-9._-]]. *)
Definition bearer_char (c : ascii) : bool :=
  RegExp.union RegExp.alnum (RegExp.any_of "._-") c.

Definition all_chars (p : ascii -> bool) (s : string) : bool :=
  forallb p (list_ascii_of_string s).

(** The first code unit of [s], if any, is not in [p]. *)
Definition stops (p : ascii -> bool) (s : string) : bool :=
  match s with
  | EmptyString => true
  | String c _ => negb (p c)
  end.

(** The characters of a header credential: [[A-Za-z0-9+/=_-]]. *)
Definition credential_char (c : ascii) : bool :=
  RegExp.union RegExp.alnum (RegExp.any_of "+/=_-") c.

(** A computation whose exceptions all satisfy [P]. *)
Definition throws_only {A} (P : jserror -> Prop) (m : M A) : Prop :=
  forall h e h', m h = (Throw e, h') -> P e.

(** A [DiffError] of one of the given phases, with the status of its phase. *)
Definition diff_error_of (phases : list ErrorPhase) (e : jserror) : Prop :=
  exists phase msg cause,
    e = DiffError phase (HTTP_STATUS_MAP phase) msg cause /\ In phase phases.

(** The files an archive is extracted to, read off the entries: each
    regular file whose stripped name is not empty is set, in archive order,
    to the bytes its body holds in the store [h]. *)
Definition entry_content (h : heap) (e : TarEntry) : list byte :=
  match h !! body e with
  | Some (StreamObj st) => concat (pending st)
  | _ => []
  end.

(** One step of the extraction: what an entry does to the map. [strip]
    tells whether a leading [package/] is removed, [keep] is the filter. *)
Definition extract_step_with (strip : bool)
    (keep : string -> TarHeader -> bool) (h : heap)
    (m : list (string * list byte)) (e : TarEntry)
    : list (string * list byte) :=
  if has FILE_TYPES (type (header e)) then
    let path :=
      if strip
      then RegExp.replace PACKAGE_PREFIX (fun _ => "") (name (header e))
      else name (header e) in
    if String.eqb path "" then m
    else if keep path (header e) then assoc_set path (entry_content h e) m
    else m
  else m.

Definition expected_files_with (strip : bool)
    (keep : string -> TarHeader -> bool) (h : heap) (es : list TarEntry)
    : list (string * list byte) :=
  fold_left (extract_step_with strip keep h) es [].

Definition expected_files (h : heap) (es : list TarEntry)
    : list (string * list byte) :=
  expected_files_with true (fun _ _ => true) h es.

(** A filter that only computes. *)
Definition pure_filter (keep : string -> TarHeader -> bool)
    : string -> TarHeader -> M bool :=
  fun path header => ret (keep path header).

(** The bodies of the entries are streams of the store that end well. *)
Definition bodies_ready (h : heap) (es : list TarEntry) : Prop :=
  Forall (fun e => exists chunks,
            h !! body e = Some (StreamObj (mkStream chunks None))) es.

(** An entry the extractor refuses. *)
Definition is_link (e : TarEntry) : bool := has SYMLINK_TYPES (type (header e)).

Section TarSpec.
Context `{Platform}.

(** The [try] block of [extractTarball]: the stream [l] is decoded and its
    entries are extracted into the map [files]. *)
Definition extract_try (l files : loc) : M unit :=
  entryStream <- tar_entries l ;;
  for_each (entries entryStream) (extract_entry files) ;;;
  match stream_failure entryStream with
  | Some error => throw error
  | None => ret tt
  end.

End TarSpec.

(** The status [computeTreeDiff] and [computeFileDiff] give a path. *)
Definition status_of (L R : list (string * list byte)) (p : string) : Status :=
  match assoc_get p L, assoc_get p R with
  | Some l, Some r => if areIdentical l r then unchanged else modified
  | None, Some _ => added
  | Some _, None => deleted
  | None, None => unchanged
  end.

(** The record of a path: its status, never marked binary, without a patch
    when unchanged and with one when added or deleted. *)
Definition record_of (L R : list (string * list byte)) (p : string)
    (d : FileDiff) : Prop :=
  path d = p
  /\ status d = status_of L R p
  /\ isBinary d = false
  /\ match status d with
     | unchanged => patch d = None
     | added | deleted => is_Some (patch d)
     | modified =>
         match patch d with
         | Some text => hasChanges text = true
         | None => True
         end
     end.

(** Each path followed by a line feed. *)
Definition lines_of (paths : list string) : string :=
  fold_right (fun p acc => p +:+ nl +:+ acc) "" paths.

Fixpoint collectM {A B} (f : A -> M B) (xs : list A) : M (list B) :=
  match xs with
  | [] => ret []
  | x :: rest => y <- f x ;; ys <- collectM f rest ;; ret (y :: ys)
  end.

(** The appended block, if any. *)
Definition block_list (r : option string) : list string :=
  match r with Some b => [b] | None => [] end.

Section DifferSpec.
Context `{Platform}.

(** The differ never returns the empty text. *)
Definition differ_nonempty : Prop :=
  forall a b c d e f o p, createTwoFilesPatch a b c d e f o = inr p -> p <> "".

End DifferSpec.

(** The byte values of a path, for the order the spec speaks of: the
    UTF-8 encoding of its code points. *)




Section BlockSpec.
Context `{Platform}.




End BlockSpec.

(** * Properties *)

Global Arguments sanitizeCredentials : simpl never.
Global Arguments new_DiffError : simpl never.
Global Arguments DiffError_wrap : simpl never.

(** ** Strings *)

Lemma sapp_cons (c : ascii) (a b : string) :
  String c a +:+ b = String c (a +:+ b).
Proof. reflexivity. Qed.

Lemma sapp_nil_l (s : string) : "" +:+ s = s.
Proof. reflexivity. Qed.

Lemma sapp_nil_r (s : string) : s +:+ "" = s.
Proof. induction s as [|c s IH]; [reflexivity|]. by rewrite sapp_cons, IH. Qed.

Lemma sapp_assoc (a b c : string) : (a +:+ b) +:+ c = a +:+ (b +:+ c).
Proof.
  induction a as [|x a IH]; [reflexivity|]. by rewrite !sapp_cons, IH.
Qed.

Lemma slength_app (a b : string) :
  String.length (a +:+ b) = String.length a + String.length b.
Proof.
  induction a as [|x a IH]; [reflexivity|]. rewrite sapp_cons. cbn.
  by rewrite IH.
Qed.

Lemma startsWith_app (p s : string) : startsWith p (p +:+ s) = true.
Proof.
  induction p as [|c p IH]; [reflexivity|].
  rewrite sapp_cons. cbn. by rewrite Ascii.eqb_refl.
Qed.

Lemma startsWith_inv (p s : string) :
  startsWith p s = true -> exists rest, s = p +:+ rest.
Proof.
  revert s. induction p as [|c p IH]; intros s Hs.
  - by exists s.
  - destruct s as [|d s]; [discriminate|]. cbn in Hs.
    destruct (Ascii.eqb c d) eqn:E; [|discriminate].
    apply Ascii.eqb_eq in E as ->.
    destruct (IH _ Hs) as [rest ->]. by exists rest.
Qed.

Lemma includes_here (sub s : string) :
  startsWith sub s = true -> includes sub s = true.
Proof. intros Hs. destruct s; cbn in *; by rewrite Hs. Qed.

Lemma includes_app (sub a b : string) :
  includes sub (a +:+ sub +:+ b) = true.
Proof.
  induction a as [|c a IH].
  - rewrite sapp_nil_l. apply includes_here, startsWith_app.
  - rewrite sapp_cons. cbn. rewrite IH. apply orb_true_r.
Qed.


(** ** Computations on the store *)

Lemma bind_ok {A B} (m : M A) (f : A -> M B) h b h' :
  bind m f h = (Ok b, h') ->
  exists a h1, m h = (Ok a, h1) /\ f a h1 = (Ok b, h').
Proof.
  unfold bind. destruct (m h) as [[a|e] h1]; [eauto|discriminate].
Qed.

Lemma bind_eval {A B} (m : M A) (f : A -> M B) h a h1 :
  m h = (Ok a, h1) -> bind m f h = f a h1.
Proof. unfold bind. by intros ->. Qed.

Lemma bind_throw {A B} (m : M A) (f : A -> M B) h e h1 :
  m h = (Throw e, h1) -> bind m f h = (Throw e, h1).
Proof. unfold bind. by intros ->. Qed.

Lemma readonly_ret {A} (a : A) : readonly (ret a).
Proof. by intros h. Qed.

Lemma readonly_throw {A} (e : jserror) : readonly (@throw A e).
Proof. by intros h. Qed.

Lemma readonly_bind {A B} (m : M A) (f : A -> M B) :
  readonly m -> (forall a, readonly (f a)) -> readonly (bind m f).
Proof.
  intros Hm Hf h. unfold bind. specialize (Hm h).
  destruct (m h) as [[a|e] h1]; cbn in *; subst; [apply Hf|done].
Qed.

Lemma readonly_foldM {A S} (f : S -> A -> M S) (xs : list A) (s : S) :
  (forall s x, readonly (f s x)) -> readonly (foldM f xs s).
Proof.
  intros Hf. revert s. induction xs as [|x xs IH]; intros s; cbn.
  - apply readonly_ret.
  - apply readonly_bind; [apply Hf|]. intros s'. apply IH.
Qed.

Lemma readonly_Map_keys l : readonly (Map_keys l).
Proof. intros h. unfold Map_keys. by destruct (h !! l) as [[]|]. Qed.

Lemma readonly_Map_get l k : readonly (Map_get l k).
Proof. intros h. unfold Map_get. by destruct (h !! l) as [[]|]. Qed.

Lemma readonly_read_options o : readonly (read_options o).
Proof.
  intros h. destruct o as [l|]; cbn; [|done].
  by destruct (h !! l) as [[]|].
Qed.

Lemma readonly_eval {A} (m : M A) h : readonly m -> m h = (fst (m h), h).
Proof. intros Hm. specialize (Hm h). destruct (m h); cbn in *; by subst. Qed.

Lemma readonly_ok {A} (m : M A) h a h' :
  readonly m -> m h = (Ok a, h') -> h' = h.
Proof. intros Hm Hr. specialize (Hm h). rewrite Hr in Hm. done. Qed.

Lemma Map_get_eval l k h m :
  h !! l = Some (MapObj m) -> Map_get l k h = (Ok (assoc_get k m), h).
Proof. unfold Map_get. by intros ->. Qed.

Lemma Map_keys_eval l h m :
  h !! l = Some (MapObj m) -> Map_keys l h = (Ok (keys m), h).
Proof. unfold Map_keys. by intros ->. Qed.

(** ** errors.js *)

(** C1, the behaviour of the code at the spec's own example. The pass over
    [CREDENTIAL_PATTERNS] already rewrites the userinfo [://u:p@] to
    [: [REDACTED]], so the closing pass that would write
    [://[REDACTED]:[REDACTED]@] finds nothing: the message of the error does
    not contain [://[REDACTED]:[REDACTED]@h]. *)
Lemma sanitize_userinfo_loses_url_structure :
  sanitizeCredentials "Failed https://u:p@h/pkg.tgz"
    = "Failed https: [REDACTED]h/pkg.tgz"
  /\ error_message (new_DiffError FETCH "Failed https://u:p@h/pkg.tgz" None)
    = "Failed https: [REDACTED]h/pkg.tgz"
  /\ includes "://[REDACTED]:[REDACTED]@h"
       (error_message (new_DiffError FETCH "Failed https://u:p@h/pkg.tgz" None))
    = false.
Proof. by vm_compute. Qed.

(** Why: a match of the userinfo pattern starts with the [:] of [://], so
    the replacer takes that colon for the separator and keeps nothing else
    of the match. *)
Lemma redact_userinfo_match (rest : string) :
  redact ("://" +:+ rest) = ": [REDACTED]".
Proof.
  change ("://" +:+ rest) with (String ":" (String "/" (String "/" rest))).
  unfold redact.
  assert (indexOf ":" (String ":" (String "/" (String "/" rest))) = Some 0)
    as -> by reflexivity.
  assert (forall other, min_index (Some 0) other = Some 0) as ->
    by by intros [n|].
  assert ((Z.of_nat 0 <?
           Z.of_nat (String.length (String ":" (String "/" (String "/" rest))))
           - 1)%Z = true) as ->.
  { apply Z.ltb_lt. cbn [String.length]. lia. }
  reflexivity.
Qed.

(** The closing pass alone does what the claim says. *)
Lemma closing_pass_alone_keeps_url_structure :
  RegExp.replace Patterns.url_userinfo_final
    (fun _ => "://[REDACTED]:[REDACTED]@") "Failed https://u:p@h/pkg.tgz"
  = "Failed https://[REDACTED]:[REDACTED]@h/pkg.tgz".
Proof. by vm_compute. Qed.

(** ** binary.js *)

Section BinaryFacts.
Context `{Platform}.

Lemma has_In (xs : list string) (x : string) : has xs x = true <-> In x xs.
Proof.
  unfold has. rewrite existsb_exists. split.
  - intros (y & Hy & Heq). apply String.eqb_eq in Heq. by subst.
  - intros Hin. exists x. split; [done|]. apply String.eqb_refl.
Qed.



End BinaryFacts.

(** ** fetch.js: authentication *)











(** ** diff.js: the whitespace flags *)

Section DiffFacts.
Context `{Platform}.

(** C6. [computeDiff] with [ignoreAllSpace] set and [ignoreSpaceChange]
    unset returns what it returns with [ignoreSpaceChange] set and
    [ignoreAllSpace] unset, for all headers, contents and other options. *)
Theorem whitespace_flags_conflated
    (oldPath newPath oldContent newContent : string) (base : DiffOptions)
    (unset1 unset2 : option bool) (h1 h2 : heap) (o1 o2 : loc) :
  default false unset1 = false ->
  default false unset2 = false ->
  h1 !! o1 = Some (OptionsObj (with_space_flags base (Some true) unset1)) ->
  h2 !! o2 = Some (OptionsObj (with_space_flags base unset2 (Some true))) ->
  fst (computeDiff oldPath newPath oldContent newContent (Some o1) h1)
  = fst (computeDiff oldPath newPath oldContent newContent (Some o2) h2).
Proof.
  intros Hu1 Hu2 Ho1 Ho2. unfold computeDiff, bind, read_options.
  rewrite Ho1, Ho2. cbn. rewrite Hu2. cbn.
  by destruct (createTwoFilesPatch _ _ _ _ _ _ _).
Qed.

End DiffFacts.

(** The two flags on the reference platform, over the same store. *)
Lemma whitespace_flags_conflated_witness :
  let P := Reference.platform (mkResponse 200 "OK" [] None) [] in
  let o1 := with_space_flags no_options (Some true) None in
  let o2 := with_space_flags no_options None (Some true) in
  fst (computeDiff "a/f" "b/f" "x  y" "x y" (Some 0) [OptionsObj o1; OptionsObj o2])
  = fst (computeDiff "a/f" "b/f" "x  y" "x y" (Some 1) [OptionsObj o1; OptionsObj o2]).
Proof.
  intros P o1 o2.
  exact (whitespace_flags_conflated "a/f" "b/f" "x  y" "x y" no_options
           None None [OptionsObj o1; OptionsObj o2]
           [OptionsObj o1; OptionsObj o2] 0 1 eq_refl eq_refl eq_refl eq_refl).
Defined.

(** ** Regular expressions: when a pattern cannot match *)

Module RegExpFacts.
Import RegExp RegExpSpec.

Lemma rep_fails q lo hi s k (Q : string -> Prop) :
  tail_closed Q -> (forall s', Q s' -> k s' = None) -> Q s ->
  rep q lo hi s k = None.
Proof.
  intros HQ Hk. revert lo hi.
  induction s as [|c s IH]; intros lo hi Hs; cbn.
  - destruct lo; [by apply Hk|done].
  - assert (match lo with O => k (String c s) | S _ => None end = None) as Hstop
      by (destruct lo; [by apply Hk|done]).
    destruct (q c && negb (bool_decide (hi = Some 0))); [|done].
    rewrite IH; [done|]. by apply HQ in Hs.
Qed.

Lemma run_fails ic r s k (Q : string -> Prop) :
  tail_closed Q -> (forall s', Q s' -> k s' = None) -> Q s ->
  run ic r s k = None.
Proof.
  intros HQ. revert s k.
  induction r as [|c|r1 IH1 r2 IH2|r1 IH1 r2 IH2|c lo hi]; intros s k Hk Hs; cbn.
  - by apply Hk.
  - destruct s as [|x s]; [done|]. destruct (test ic c x); [|done].
    apply Hk. by apply HQ in Hs.
  - apply IH1; [|done]. intros s' Hs'. by apply IH2.
  - rewrite IH1 by done. by apply IH2.
  - by apply rep_fails with Q.
Qed.

Lemma free_of_tail P : tail_closed (fun s => free_of P s = true).
Proof. intros c s. cbn. by intros [_ ?]%andb_true_iff. Qed.

Lemma run_needs ic P r s k :
  needs ic P r -> free_of P s = true -> run ic r s k = None.
Proof.
  revert s k.
  induction r as [|c|r1 IH1 r2 IH2|r1 IH1 r2 IH2|c lo hi]; intros s k Hn Hs;
    cbn in Hn |- *.
  - done.
  - destruct s as [|x s]; [done|]. cbn in Hs.
    destruct (test ic c x) eqn:E; [|done].
    apply Hn in E. by rewrite E in Hs.
  - destruct Hn as [Hn|Hn]; [by apply IH1|].
    apply run_fails with (fun s => free_of P s = true);
      [apply free_of_tail| |done].
    intros s' Hs'. by apply IH2.
  - destruct Hn as [Hn1 Hn2]. rewrite IH1 by done. by apply IH2.
  - destruct Hn as [Hlo Hn]. destruct lo as [|lo]; [lia|].
    destruct s as [|x s]; [done|]. cbn in Hs |- *.
    destruct (test ic c x) eqn:E; [|done].
    apply Hn in E. by rewrite E in Hs.
Qed.

Lemma all_ascii_complete (x : ascii) : In x all_ascii.
Proof.
  unfold all_ascii. rewrite <- (ascii_nat_embedding x).
  apply in_map, in_seq. pose proof (nat_ascii_bounded x). lia.
Qed.

Lemma class_within_sound ic c P x :
  class_within ic c P = true -> test ic c x = true -> P x = true.
Proof.
  unfold class_within. rewrite forallb_forall. intros Hall Hx.
  specialize (Hall x (all_ascii_complete x)). by rewrite Hx in Hall.
Qed.

Lemma needs_b_sound ic P r : needs_b ic P r = true -> needs ic P r.
Proof.
  induction r as [|c|r1 IH1 r2 IH2|r1 IH1 r2 IH2|c lo hi]; cbn; intros Hb.
  - done.
  - intros x. by apply class_within_sound.
  - apply orb_true_iff in Hb as [Hb|Hb]; auto.
  - apply andb_true_iff in Hb as [Hb1 Hb2]; auto.
  - apply andb_true_iff in Hb as [Hlo Hb]. split.
    + by apply Nat.leb_le.
    + intros x. by apply class_within_sound.
Qed.

(** A global replace over a text no tail of which matches changes nothing. *)
Lemma replace_go_no_match re f s (Q : string -> Prop) :
  tail_closed Q -> (forall s', Q s' -> exec_here re s' = None) -> Q s ->
  replace_go re f 0 s = s.
Proof.
  intros HQ Hne. induction s as [|c s IH]; intros Hs; cbn.
  - by rewrite Hne.
  - rewrite Hne by done. f_equal. apply IH. by apply HQ in Hs.
Qed.

End RegExpFacts.

(** ** errors.js: texts the sanitiser leaves alone *)

Lemma clean_tail : RegExpSpec.tail_closed clean.
Proof.
  intros c s [pb Hc]. cbn in Hc. exists (is_b c).
  by apply andb_true_iff in Hc as [_ ?].
Qed.

Lemma clean_free_of_sep s : clean s -> RegExpSpec.free_of is_sep s = true.
Proof.
  intros [pb Hc]. revert pb Hc.
  induction s as [|c s IH]; intros pb Hc; [done|]. cbn in Hc |- *.
  apply andb_true_iff in Hc as [[Hs _]%andb_true_iff Hc].
  rewrite Hs. by apply IH with (is_b c).
Qed.


Lemma bearer_no_match s :
  clean s -> RegExp.exec_here Patterns.bearer_token s = None.
Proof.
  intros [pb Hc]. unfold RegExp.exec_here. cbn.
  destruct s as [|c1 s]; [done|].
  change (RegExp.member true (RegExp.one "B") c1) with (is_b c1).
  destruct (is_b c1) eqn:Eb; [|done].
  destruct s as [|c2 s]; [done|].
  change (RegExp.member true (RegExp.one "e") c2) with (is_e c2).
  destruct (is_e c2) eqn:Ee; [|done].
  cbn in Hc. rewrite Eb, Ee in Hc. cbn in Hc.
  rewrite andb_false_r in Hc. by rewrite andb_false_r in Hc.
Qed.







(** ** fetch.js: the size gate *)


Section SizeGate.
Context `{Platform}.





End SizeGate.








(** ** diff.js and format.js leave the store alone *)

Section Frame.
Context `{Platform}.

Lemma readonly_computeDiff oldPath newPath oldContent newContent options :
  readonly (computeDiff oldPath newPath oldContent newContent options).
Proof.
  unfold computeDiff. apply readonly_bind; [apply readonly_read_options|].
  intros opts. destruct (createTwoFilesPatch _ _ _ _ _ _ _);
    [apply readonly_throw|apply readonly_ret].
Qed.

Lemma readonly_diff_cases opts p lhs rhs options :
  readonly (diff_cases opts p lhs rhs options).
Proof.
  unfold diff_cases. destruct lhs as [l|], rhs as [r|].
  - destruct (areIdentical l r); [apply readonly_ret|].
    apply readonly_bind; [apply readonly_computeDiff|].
    intros. apply readonly_ret.
  - apply readonly_bind; [apply readonly_computeDiff|].
    intros. apply readonly_ret.
  - apply readonly_bind; [apply readonly_computeDiff|].
    intros. apply readonly_ret.
  - apply readonly_ret.
Qed.

Lemma readonly_computeFileDiff p lhs rhs options :
  readonly (computeFileDiff p lhs rhs options).
Proof.
  unfold computeFileDiff.
  apply readonly_bind; [apply readonly_read_options|]. intros opts.
  apply readonly_bind; [apply readonly_diff_cases|].
  intros [d|]; [apply readonly_ret|apply readonly_throw].
Qed.

Lemma readonly_formatBinaryHeader p st options :
  readonly (formatBinaryHeader p st options).
Proof.
  unfold formatBinaryHeader.
  apply readonly_bind; [apply readonly_read_options|].
  intros. apply readonly_ret.
Qed.

Lemma readonly_formatTextDiff p text st options :
  readonly (formatTextDiff p text st options).
Proof.
  unfold formatTextDiff.
  apply readonly_bind; [apply readonly_read_options|].
  intros. apply readonly_ret.
Qed.

Lemma readonly_push_text p q status options st :
  readonly (part <- formatTextDiff p q status options ;;
            ret (push_part part st)).
Proof.
  apply readonly_bind; [apply readonly_formatTextDiff|].
  intros. apply readonly_ret.
Qed.

Lemma readonly_emit_block p status lhs rhs options isBinary st :
  readonly (emit_block p status lhs rhs options isBinary st).
Proof.
  unfold emit_block. destruct isBinary.
  { apply readonly_bind; [apply readonly_formatBinaryHeader|].
    intros. apply readonly_ret. }
  apply readonly_bind; [apply readonly_computeFileDiff|]. intros fileDiff.
  destruct (patch_with_changes (patch fileDiff));
    [apply readonly_push_text|].
  destruct status; try apply readonly_ret.
  - apply readonly_bind; [apply readonly_computeFileDiff|]. intros e.
    destruct (truthy_string (patch e));
      [apply readonly_push_text|apply readonly_ret].
  - apply readonly_bind; [apply readonly_computeFileDiff|]. intros e.
    destruct (truthy_string (patch e));
      [apply readonly_push_text|apply readonly_ret].
Qed.

Lemma readonly_formatDiff_step l r options nameOnly text st p :
  readonly (formatDiff_step l r options nameOnly text st p).
Proof.
  unfold formatDiff_step.
  apply readonly_bind; [apply readonly_Map_get|]. intros lhs.
  apply readonly_bind; [apply readonly_Map_get|]. intros rhs.
  destruct (classify lhs rhs) as [status|]; [|apply readonly_ret].
  destruct (identical lhs rhs); [apply readonly_ret|].
  destruct nameOnly; [apply readonly_ret|].
  apply readonly_emit_block.
Qed.

Lemma readonly_formatDiff_loop l r options :
  readonly (formatDiff_loop l r options).
Proof.
  unfold formatDiff_loop.
  apply readonly_bind; [apply readonly_read_options|]. intros opts.
  apply readonly_bind; [apply readonly_Map_keys|]. intros lk.
  apply readonly_bind; [apply readonly_Map_keys|]. intros rk.
  apply readonly_bind; [|intros; apply readonly_ret].
  apply readonly_foldM. intros. apply readonly_formatDiff_step.
Qed.

Lemma readonly_formatDiff l r options : readonly (formatDiff l r options).
Proof.
  unfold formatDiff. apply readonly_bind; [apply readonly_formatDiff_loop|].
  intros [nameOnly st]. apply readonly_ret.
Qed.

Lemma readonly_computeTreeDiff l r options :
  readonly (computeTreeDiff l r options).
Proof.
  unfold computeTreeDiff.
  apply readonly_bind; [apply readonly_read_options|]. intros opts.
  apply readonly_bind; [apply readonly_Map_keys|]. intros lk.
  apply readonly_bind; [apply readonly_Map_keys|]. intros rk.
  apply readonly_foldM. intros results p.
  apply readonly_bind; [apply readonly_Map_get|]. intros lhs.
  apply readonly_bind; [apply readonly_Map_get|]. intros rhs.
  apply readonly_bind; [apply readonly_diff_cases|].
  intros [d|]; apply readonly_ret.
Qed.

(** C10. Whatever the store holds at the two map arguments and at the
    options argument (also when the two maps are one object, and also when
    the call throws), [formatDiff] and [computeTreeDiff] return the store
    they were given: the entries of both maps, their order and the options
    record are as before the call. *)
Theorem diff_functions_leave_inputs_untouched
    (leftTree rightTree : loc) (options : option loc) (h : heap) :
  snd (formatDiff leftTree rightTree options h) = h
  /\ snd (computeTreeDiff leftTree rightTree options h) = h.
Proof.
  split; [apply readonly_formatDiff|apply readonly_computeTreeDiff].
Qed.

End Frame.

(** ** The sorted union of the paths *)

Lemma Set_from_acc items acc :
  NoDup acc ->
  let r := fold_left (fun acc x => if has acc x then acc else acc ++ [x])
             items acc in
  NoDup r /\ forall x, In x r <-> In x acc \/ In x items.
Proof.
  revert acc. induction items as [|y items IH]; intros acc Hnd; cbn.
  - split; [done|]. intros x. tauto.
  - destruct (has acc y) eqn:E.
    + destruct (IH acc Hnd) as [Hn Hin]. split; [done|].
      intros x. rewrite Hin. apply has_In in E.
      split; [tauto|]. intros [?|[<-|?]]; tauto.
    + assert (~ In y acc) as Hy.
      { intros Hy%has_In. congruence. }
      assert (NoDup (acc ++ [y])) as Hnd'.
      { apply NoDup_app. repeat split; [done| |apply NoDup_singleton].
        intros x Hx ->%list_elem_of_singleton.
        by apply Hy, list_elem_of_In. }
      destruct (IH _ Hnd') as [Hn Hin]. split; [done|].
      intros x. rewrite Hin, in_app_iff. cbn. tauto.
Qed.

Lemma Set_from_spec items :
  NoDup (Set_from items) /\ forall x, In x (Set_from items) <-> In x items.
Proof.
  destruct (Set_from_acc items [] (NoDup_nil_2 (A:=string))) as [Hn Hin].
  split; [done|]. intros x. rewrite (Hin x). cbn. tauto.
Qed.

Lemma compare_lex_lt s t :
  String.compare s t = Lt -> lex_lt s t.
Proof.
  unfold lex_lt, units. revert t.
  induction s as [|c s IH]; intros [|d t]; cbn; try done.
  unfold Ascii.compare. fold (code c) (code d).
  destruct (code c ?= code d)%N eqn:E; [|by left; apply N.compare_lt_iff|done].
  intros Hlt. right. split; [by apply N.compare_eq_iff|by apply IH].
Qed.

Lemma le_ne_lex_lt s t : String.le s t -> s <> t -> lex_lt s t.
Proof.
  unfold String.le, String.leb. intros Hle Hne.
  destruct (String.compare s t) eqn:E.
  - by apply String.compare_eq_iff in E.
  - by apply compare_lex_lt.
  - done.
Qed.

Lemma StronglySorted_strict (l : list string) :
  StronglySorted String.le l -> NoDup l -> StronglySorted lex_lt l.
Proof.
  induction 1 as [|x l Hs IH Hall]; intros Hnd; constructor.
  - apply IH. by apply NoDup_cons_1_2 in Hnd.
  - apply NoDup_cons in Hnd as [Hx _].
    rewrite Forall_forall in Hall |- *. intros y Hy.
    apply le_ne_lex_lt; [by apply Hall|]. intros ->. by apply Hx.
Qed.

(** The enumeration is the duplicate-free union of the keys in strictly
    ascending lexicographic order of the code units. *)
Lemma sortedPaths_spec L R :
  StronglySorted lex_lt (sortedPaths L R)
  /\ NoDup (sortedPaths L R)
  /\ forall p, In p (sortedPaths L R) <-> In p (keys L) \/ In p (keys R).
Proof.
  unfold sortedPaths, sort.
  destruct (Set_from_spec (keys L ++ keys R)) as [Hnd Hin].
  pose proof (merge_sort_Permutation String.le (Set_from (keys L ++ keys R)))
    as Hperm.
  assert (NoDup (merge_sort String.le (Set_from (keys L ++ keys R)))) as Hnd'
    by by rewrite Hperm.
  split; [|split; [done|]].
  - apply StronglySorted_strict; [|done].
    apply StronglySorted_merge_sort; apply _.
  - intros p. rewrite <- in_app_iff, <- Hin, <- !list_elem_of_In.
    by rewrite Hperm.
Qed.

(** The order of the code units on full strings. *)
Lemma leb_refl s : Utf16.leb s s = true.
Proof.
  induction s as [|x s IH]; [done|]. cbn. rewrite N.eqb_refl, IH.
  apply orb_true_r.
Qed.

Lemma leb_cases s t :
  Utf16.leb s t = true <-> s = t \/ lexico s t.
Proof.
  revert t. induction s as [|x s IH]; intros [|y t]; cbn.
  - split; [by left|done].
  - split; [intros _; by right|done].
  - split; [done|]. intros [?|[]]. done.
  - rewrite orb_true_iff, andb_true_iff, N.ltb_lt, N.eqb_eq, IH.
    unfold lexico at 2, prod_lexico, lexico at 2, N_lexico. cbn.
    split.
    + intros [Hlt | [-> [-> | Hl]]]; [right; by left|by left|].
      right. right. by split.
    + intros [[= -> ->] | [Hlt | [-> Hl]]]; [right; split; [done|by left]|by left|].
      right. split; [done|by right].
Qed.

Global Instance utf16_le_total : Total Utf16.le.
Proof.
  intros s t. unfold Utf16.le.
  destruct (trichotomy lexico s t) as [?|[?|?]];
    [left|left|right]; apply (proj2 (leb_cases _ _)); auto.
Qed.

Global Instance utf16_le_trans : Transitive Utf16.le.
Proof.
  intros s t u. unfold Utf16.le. intros Hst Htu.
  apply (proj1 (leb_cases _ _)) in Hst. apply (proj1 (leb_cases _ _)) in Htu. apply (proj2 (leb_cases _ _)).
  destruct Hst as [-> | Hst], Htu as [-> | Htu]; auto. right. by etrans.
Qed.

Global Instance utf16_le_antisym : AntiSymm (=) Utf16.le.
Proof.
  intros s t. unfold Utf16.le. intros Hst Hts.
  apply (proj1 (leb_cases _ _)) in Hst. apply (proj1 (leb_cases _ _)) in Hts.
  destruct Hst as [Heq | Hst]; [done|]. destruct Hts as [Heq | Hts]; [done|].
  destruct (irreflexivity lexico s). by etrans.
Qed.

Lemma units_inj s t : units s = units t -> s = t.
Proof.
  unfold units. revert t. induction s as [|c s IH]; intros [|d t]; cbn; try done.
  intros [= Hc Hs]. f_equal; [|by apply IH].
  unfold code in Hc. by apply (f_equal ascii_of_N) in Hc;
    rewrite !ascii_N_embedding in Hc.
Qed.



Lemma assoc_get_None {V} k (m : list (string * V)) :
  assoc_get k m = None <-> ~ In k (keys m).
Proof.
  induction m as [|[k' v] m IH]; cbn; [tauto|].
  destruct (String.eqb k' k) eqn:E.
  - apply String.eqb_eq in E. split; [done|]. intros Hn. destruct Hn. by left.
  - apply String.eqb_neq in E. rewrite IH. tauto.
Qed.

Lemma assoc_get_Some {V} k (m : list (string * V)) :
  In k (keys m) -> exists v, assoc_get k m = Some v.
Proof.
  intros Hin. destruct (assoc_get k m) as [v|] eqn:E; [by exists v|].
  by apply assoc_get_None in E.
Qed.

(** ** format.js: what the loop of [formatDiff] computes *)

Lemma bind_ok_ro {A B} (m : M A) (f : A -> M B) h b h' :
  readonly m -> bind m f h = (Ok b, h') ->
  exists a, m h = (Ok a, h) /\ f a h = (Ok b, h').
Proof.
  intros Hm Hb. apply bind_ok in Hb as (a & h1 & Ha & Hf).
  pose proof (readonly_ok _ _ _ _ Hm Ha) as ->. eauto.
Qed.

Lemma startsWith_join (a b : string) (rest : list string) :
  startsWith (a +:+ nl) (join nl (a :: b :: rest) +:+ nl) = true.
Proof.
  cbn [join]. rewrite !sapp_assoc, <- (sapp_assoc a nl). apply startsWith_app.
Qed.

Section Loop.
Context `{Platform}.

Lemma formatBinaryHeader_block p status options h opts part h' :
  read_options options h = (Ok opts, h) ->
  formatBinaryHeader p status options h = (Ok part, h') ->
  block_of opts p part.
Proof.
  intros Ho. unfold formatBinaryHeader. rewrite (bind_eval _ _ _ _ _ Ho).
  intros [= <- <-]. unfold block_of.
  destruct status; apply startsWith_join.
Qed.

Lemma formatTextDiff_block p text status options h opts part h' :
  read_options options h = (Ok opts, h) ->
  formatTextDiff p text status options h = (Ok part, h') ->
  block_of opts p part.
Proof.
  intros Ho. unfold formatTextDiff. rewrite (bind_eval _ _ _ _ _ Ho).
  intros [= <- <-]. unfold block_of.
  destruct status; apply startsWith_join.
Qed.

(** The end of the loop body pushes nothing or one block of the path, and
    touches no counter. *)
Lemma emit_block_spec p status lhs rhs options isBinary st h opts st' h' :
  read_options options h = (Ok opts, h) ->
  emit_block p status lhs rhs options isBinary st h = (Ok st', h') ->
  changedPaths st' = changedPaths st
  /\ added_count st' = added_count st
  /\ deleted_count st' = deleted_count st
  /\ (outputParts st' = outputParts st
      \/ exists b, outputParts st' = outputParts st ++ [b] /\ block_of opts p b).
Proof.
  intros Ho. unfold emit_block.
  assert (Hpush : forall q stt,
    (part <- formatTextDiff p q status options ;; ret (push_part part st)) h
      = (Ok stt, h') ->
    changedPaths stt = changedPaths st
    /\ added_count stt = added_count st
    /\ deleted_count stt = deleted_count st
    /\ (outputParts stt = outputParts st
        \/ exists b, outputParts stt = outputParts st ++ [b]
                     /\ block_of opts p b)).
  { intros q stt Hb.
    apply bind_ok_ro in Hb as (part & Hpart & [= <- <-]);
      [|apply readonly_formatTextDiff].
    repeat split; try done. right. exists part. split; [done|].
    by eapply formatTextDiff_block. }
  destruct isBinary.
  { intros Hb.
    apply bind_ok_ro in Hb as (part & Hpart & [= <- <-]);
      [|apply readonly_formatBinaryHeader].
    repeat split; try done. right. exists part. split; [done|].
    by eapply formatBinaryHeader_block. }
  intros Hb.
  apply bind_ok_ro in Hb as (fileDiff & Hfd & Hb);
    [|apply readonly_computeFileDiff].
  destruct (patch_with_changes (patch fileDiff)); [by eapply Hpush|].
  destruct status.
  - injection Hb as <- <-. repeat split; auto.
  - apply bind_ok_ro in Hb as (e & He & Hb);
      [|apply readonly_computeFileDiff].
    destruct (truthy_string (patch e)); [by eapply Hpush|].
    injection Hb as <- <-. repeat split; auto.
  - apply bind_ok_ro in Hb as (e & He & Hb);
      [|apply readonly_computeFileDiff].
    destruct (truthy_string (patch e)); [by eapply Hpush|].
    injection Hb as <- <-. repeat split; auto.
  - injection Hb as <- <-. repeat split; auto.
Qed.

(** One turn of the loop, for a path that one of the maps has. *)
Lemma formatDiff_step_spec l r options nameOnly text st p h L R opts st' h' :
  h !! l = Some (MapObj L) ->
  h !! r = Some (MapObj R) ->
  read_options options h = (Ok opts, h) ->
  formatDiff_step l r options nameOnly text st p h = (Ok st', h') ->
  changedPaths st' = changedPaths st ++ (if changed L R p then [p] else [])
  /\ added_count st' = added_count st + (if only_right L R p then 1 else 0)
  /\ deleted_count st' = deleted_count st + (if only_left L R p then 1 else 0)
  /\ (outputParts st' = outputParts st
      \/ (changed L R p = true /\ nameOnly = false
          /\ exists b, outputParts st' = outputParts st ++ [b]
                       /\ block_of opts p b)).
Proof.
  intros Hl Hr Ho. unfold formatDiff_step.
  rewrite (bind_eval _ _ _ _ _ (Map_get_eval _ p _ _ Hl)).
  rewrite (bind_eval _ _ _ _ _ (Map_get_eval _ p _ _ Hr)).
  unfold changed, only_right, only_left.
  destruct (assoc_get p L) as [lb|], (assoc_get p R) as [rb|];
    cbn [classify count_status].
  - destruct (identical (Some lb) (Some rb)) eqn:Eid; cbn [negb].
    { intros [= <- <-]. rewrite app_nil_r. repeat split; auto; lia. }
    destruct nameOnly.
    { intros [= <- <-]. cbn. repeat split; auto; lia. }
    intros Hb. apply (emit_block_spec _ _ _ _ _ _ _ _ opts) in Hb; [|done].
    destruct Hb as (-> & -> & -> & Hparts). cbn.
    repeat split; try done; try lia.
    destruct Hparts as [->|Hb]; [by left|right; by repeat split].
  - cbn [identical negb]. destruct nameOnly.
    { intros [= <- <-]. cbn. repeat split; auto; lia. }
    intros Hb. apply (emit_block_spec _ _ _ _ _ _ _ _ opts) in Hb; [|done].
    destruct Hb as (-> & -> & -> & Hparts). cbn.
    repeat split; try done; try lia.
    destruct Hparts as [->|Hb]; [by left|right; by repeat split].
  - cbn [identical negb]. destruct nameOnly.
    { intros [= <- <-]. cbn. repeat split; auto; lia. }
    intros Hb. apply (emit_block_spec _ _ _ _ _ _ _ _ opts) in Hb; [|done].
    destruct Hb as (-> & -> & -> & Hparts). cbn.
    repeat split; try done; try lia.
    destruct Hparts as [->|Hb]; [by left|right; by repeat split].
  - intros [= <- <-]. rewrite app_nil_r. repeat split; auto; lia.
Qed.

End Loop.

(** Loops of read-only steps: an invariant over the items done so far. *)
Lemma foldM_readonly_inv {A S} (f : S -> A -> M S) (P : A -> Prop)
    (I : list A -> S -> Prop) (h : heap) :
  (forall s x, readonly (f s x)) ->
  (forall done x s s',
     P x -> I done s -> f s x h = (Ok s', h) -> I (done ++ [x]) s') ->
  forall rest done s sN h',
    Forall P rest -> I done s -> foldM f rest s h = (Ok sN, h') ->
    I (done ++ rest) sN /\ h' = h.
Proof.
  intros Hro Hstep. induction rest as [|x rest IH]; intros done s sN h' HP HI.
  - intros [= <- <-]. by rewrite app_nil_r.
  - cbn [foldM]. intros Hb.
    apply bind_ok_ro in Hb as (s' & Hs' & Hrest); [|apply Hro].
    apply Forall_cons in HP as [Hx HP].
    replace (done ++ x :: rest) with ((done ++ [x]) ++ rest)
      by by rewrite <- app_assoc.
    apply IH with s'; eauto.
Qed.

Lemma sublist_filter (f : string -> bool) (l : list string) :
  List.filter f l `sublist_of` l.
Proof.
  induction l as [|x l IH]; cbn; [constructor|].
  destruct (f x); by constructor.
Qed.

Lemma same_bytes_refl b : same_bytes b b = true.
Proof. induction b as [|x b IH]; cbn; [done|]. by rewrite byte_dec_lb. Qed.

Lemma identical_refl b : identical (Some b) (Some b) = true.
Proof. cbn. by rewrite Nat.eqb_refl, same_bytes_refl. Qed.

Lemma assoc_get_In {V} k (m : list (string * V)) v :
  assoc_get k m = Some v -> In k (keys m).
Proof.
  induction m as [|[k' v'] m IH]; cbn; [done|].
  destruct (String.eqb k' k) eqn:E; [|by right; apply IH].
  apply String.eqb_eq in E. by left.
Qed.

Lemma same_files_get L R p :
  same_files L R ->
  (assoc_get p L = None /\ assoc_get p R = None)
  \/ exists b, assoc_get p L = Some b /\ assoc_get p R = Some b.
Proof.
  intros [Hk Hb].
  destruct (assoc_get p L) as [b1|] eqn:E1, (assoc_get p R) as [b2|] eqn:E2.
  - right. exists b1. by rewrite (Hb p b1 b2 E1 E2).
  - apply assoc_get_None in E2. destruct E2. apply Hk.
    by apply assoc_get_In in E1.
  - apply assoc_get_None in E1. destruct E1. apply Hk.
    by apply assoc_get_In in E2.
  - by left.
Qed.

Section LoopFacts.
Context `{Platform}.

Lemma formatDiff_loop_spec l r options h L R flag st h' :
  h !! l = Some (MapObj L) ->
  h !! r = Some (MapObj R) ->
  formatDiff_loop l r options h = (Ok (flag, st), h') ->
  exists opts,
    read_options options h = (Ok opts, h)
    /\ flag = default false (nameOnly opts)
    /\ loop_inv opts L R flag (sortedPaths L R) st
    /\ h' = h.
Proof.
  intros Hl Hr. unfold formatDiff_loop. intros Hb.
  apply bind_ok_ro in Hb as (opts & Ho & Hb); [|apply readonly_read_options].
  rewrite (bind_eval _ _ _ _ _ (Map_keys_eval _ _ _ Hl)) in Hb.
  rewrite (bind_eval _ _ _ _ _ (Map_keys_eval _ _ _ Hr)) in Hb.
  apply bind_ok in Hb as (st0 & h1 & Hfold & [= <- <- <-]).
  exists opts. split; [done|]. split; [done|].
  fold (sortedPaths L R) in Hfold.
  eapply (foldM_readonly_inv _ (fun _ => True)
            (loop_inv opts L R (default false (nameOnly opts))))
    with (done := []) in Hfold.
  - exact Hfold.
  - intros. apply readonly_formatDiff_step.
  - intros done x s s' _ (Hc & Ha & Hd & emitted & Hsub & Hblocks & Hno) Hstep.
    eapply formatDiff_step_spec in Hstep as (Hc' & Ha' & Hd' & Hparts); eauto.
    unfold loop_inv. rewrite !List.filter_app, !length_app. cbn [List.filter].
    repeat split.
    + rewrite Hc', Hc. by destruct (changed L R x).
    + rewrite Ha', Ha. by destruct (only_right L R x).
    + rewrite Hd', Hd. by destruct (only_left L R x).
    + destruct Hparts as [Hsame | (Hch & Hn & b & Hpush & Hblock)].
      * exists emitted. rewrite Hsame. repeat split; [|done..].
        by apply sublist_inserts_r.
      * exists (emitted ++ [x]). rewrite Hch, Hpush. repeat split.
        -- by apply sublist_app.
        -- apply Forall2_app; [done|]. by constructor.
        -- intros Hn'. congruence.
  - by apply Forall_forall.
  - unfold loop_inv. cbn. repeat split.
    exists []. repeat split; constructor.
Qed.

End LoopFacts.

Lemma same_files_refl L : same_files L L.
Proof. split; [done|]. intros k b1 b2 -> [= ->]. done. Qed.

(** ** format.js: the block of each path *)

Section BlockFacts.
Context `{Platform}.





End BlockFacts.

(** ** diff.js and format.js: the claims on paths and counts *)

Section TreeFacts.
Context `{Platform}.

Lemma diff_cases_result opts p lhs rhs options h r h' :
  diff_cases opts p lhs rhs options h = (Ok r, h') ->
  match r with
  | Some d => path d = p
  | None => lhs = None /\ rhs = None
  end.
Proof.
  unfold diff_cases. intros Hb.
  destruct lhs as [l|], rhs as [r0|].
  - destruct (areIdentical l r0); [by injection Hb as <- <-|].
    apply bind_ok in Hb as (pt & h1 & _ & [= <- <-]). done.
  - apply bind_ok in Hb as (pt & h1 & _ & [= <- <-]). done.
  - apply bind_ok in Hb as (pt & h1 & _ & [= <- <-]). done.
  - by injection Hb as <- <-.
Qed.




(** C2 as amended. [filesChanged] is the number of paths of the union that
    the two maps do not both have with the same bytes, whether or not a
    block was emitted for the path; the blocks emitted are at most that
    many. *)
Theorem filesChanged_counts_changed_paths
    (leftTree rightTree : loc) (options : option loc) (h : heap)
    (L R : list (string * list byte)) (flag : bool) (st : LoopState)
    (res : FormatResult) (h1 h2 : heap) :
  h !! leftTree = Some (MapObj L) ->
  h !! rightTree = Some (MapObj R) ->
  formatDiff_loop leftTree rightTree options h = (Ok (flag, st), h1) ->
  formatDiff leftTree rightTree options h = (Ok res, h2) ->
  filesChanged res = length (List.filter (changed L R) (sortedPaths L R))
  /\ length (outputParts st) <= filesChanged res.
Proof.
  intros Hl Hr Hloop Hf. unfold formatDiff in Hf.
  rewrite (bind_eval _ _ _ _ _ Hloop) in Hf. injection Hf as <- _.
  eapply formatDiff_loop_spec in Hloop
    as (opts & Ho & -> & (Hc & _ & _ & emitted & Hsub & Hblocks & _) & _);
    eauto.
  cbn [filesChanged]. rewrite Hc. split; [done|].
  rewrite <- (Forall2_length _ _ _ Hblocks). by apply sublist_length.
Qed.

Lemma foldM_same_files l r options flag text h L R paths st :
  h !! l = Some (MapObj L) ->
  h !! r = Some (MapObj R) ->
  same_files L R ->
  foldM (formatDiff_step l r options flag text) paths st h = (Ok st, h).
Proof.
  intros Hl Hr Hsame. induction paths as [|p paths IH]; [done|].
  cbn [foldM].
  assert (formatDiff_step l r options flag text st p h = (Ok st, h)) as Hstep.
  { unfold formatDiff_step.
    rewrite (bind_eval _ _ _ _ _ (Map_get_eval _ p _ _ Hl)).
    rewrite (bind_eval _ _ _ _ _ (Map_get_eval _ p _ _ Hr)).
    destruct (same_files_get L R p Hsame) as [[-> ->] | (b & -> & ->)];
      [done|].
    cbn [classify count_status]. by rewrite identical_refl. }
  by rewrite (bind_eval _ _ _ _ _ Hstep).
Qed.

Lemma formatDiff_loop_same_files l r options h L R opts :
  h !! l = Some (MapObj L) ->
  h !! r = Some (MapObj R) ->
  same_files L R ->
  read_options options h = (Ok opts, h) ->
  formatDiff_loop l r options h
  = (Ok (default false (nameOnly opts), mkLoopState [] [] 0 0), h).
Proof.
  intros Hl Hr Hsame Ho. unfold formatDiff_loop.
  rewrite (bind_eval _ _ _ _ _ Ho).
  rewrite (bind_eval _ _ _ _ _ (Map_keys_eval _ _ _ Hl)).
  rewrite (bind_eval _ _ _ _ _ (Map_keys_eval _ _ _ Hr)).
  by rewrite (bind_eval _ _ _ _ _
                (foldM_same_files l r options _ _ h L R _ _ Hl Hr Hsame)).
Qed.

Lemma formatDiff_same_files l r options h L R opts :
  h !! l = Some (MapObj L) ->
  h !! r = Some (MapObj R) ->
  same_files L R ->
  read_options options h = (Ok opts, h) ->
  formatDiff l r options h = (Ok (mkFormatResult "" 0 0 0), h).
Proof.
  intros Hl Hr Hsame Ho. unfold formatDiff.
  rewrite (bind_eval _ _ _ _ _
             (formatDiff_loop_same_files _ _ _ _ L R opts Hl Hr Hsame Ho)).
  unfold ret. cbn. by destruct (default false (nameOnly opts)).
Qed.

(** C8. Two maps with the same keys and the same bytes under every key
    make [formatDiff] return the empty output and three zero counts; and a
    call [diff(X, X)] whose two acquisitions succeed and deliver such maps
    returns the empty string. *)
Theorem identical_trees_give_empty_diff :
  (forall leftTree rightTree options h L R opts,
     h !! leftTree = Some (MapObj L) ->
     h !! rightTree = Some (MapObj R) ->
     same_files L R ->
     read_options options h = (Ok opts, h) ->
     formatDiff leftTree rightTree options h
     = (Ok (mkFormatResult "" 0 0 0), h))
  /\ (forall X options h leftFiles h1 rightFiles h2 L R opts,
        acquireFiles (Some X) h = (Ok leftFiles, h1) ->
        acquireFiles (Some X) h1 = (Ok rightFiles, h2) ->
        h2 !! leftFiles = Some (MapObj L) ->
        h2 !! rightFiles = Some (MapObj R) ->
        same_files L R ->
        read_options options h2 = (Ok opts, h2) ->
        diff (Some X) (Some X) options h = (Ok "", h2)).
Proof.
  split.
  - intros. by eapply formatDiff_same_files.
  - intros X options h leftFiles h1 rightFiles h2 L R opts
      Hleft Hright Hl Hr Hsame Ho.
    unfold diff, assertDiff. cbn [bool_decide].
    rewrite !bool_decide_eq_true_2 by eauto.
    unfold bind at 1 2. cbn [ret].
    assert (Hboth : Promise_all2 (left_fails_first (Some X) (Some X))
                      (acquireFiles (Some X)) (acquireFiles (Some X)) h
                    = (Ok (leftFiles, rightFiles), h2)).
    { unfold Promise_all2. by rewrite Hleft, Hright. }
    rewrite (bind_eval _ _ _ _ _ Hboth).
    by rewrite (bind_eval _ _ _ _ _
                  (formatDiff_same_files _ _ _ _ L R opts Hl Hr Hsame Ho)).
Qed.

End TreeFacts.

(** ** tar.js: the keys of an extracted map *)

Lemma run_lit (w s : string) (k : string -> option string) :
  RegExp.run false (RegExp.lit w) s k
  = if startsWith w s then k (drop (String.length w) s) else None.
Proof.
  revert s. induction w as [|c w IH]; intros s; [by destruct s|].
  cbn [RegExp.lit RegExp.run]. destruct s as [|x s]; [done|].
  cbn [startsWith String.length drop]. unfold RegExp.test, RegExp.member.
  cbn [andb orb]. rewrite orb_false_r. unfold RegExp.one.
  rewrite Ascii.eqb_sym. destruct (Ascii.eqb c x); [apply IH|done].
Qed.

Lemma drop_app (a b : string) : drop (String.length a) (a +:+ b) = b.
Proof. induction a as [|c a IH]; [done|]. by rewrite sapp_cons. Qed.

(** Stripping the prefix: the name is [package/] followed by the result,
    or it is the result and does not start with [package/]. *)
Lemma strip_prefix_spec (nm : string) :
  let k := RegExp.replace PACKAGE_PREFIX (fun _ => "") nm in
  nm = "package/" +:+ k \/ (nm = k /\ startsWith "package/" nm = false).
Proof.
  unfold RegExp.replace, PACKAGE_PREFIX. cbn [RegExp.anchored].
  unfold RegExp.replace_anchored, RegExp.exec_here.
  cbn [RegExp.body RegExp.ignoreCase].
  rewrite run_lit. destruct (startsWith "package/" nm) eqn:E.
  - left. apply startsWith_inv in E as [rest ->].
    rewrite sapp_nil_l. by rewrite (drop_app "package/" rest).
  - by right.
Qed.

Lemma keeps_ret {A} f good (a : A) : keeps f good (ret a).
Proof. intros h r h' [= <- <-]. done. Qed.

Lemma keeps_throw {A} f good e : keeps f good (@throw A e).
Proof. intros h r h' [= <- <-]. done. Qed.

Lemma keeps_bind {A B} f good (m : M A) (g : A -> M B) :
  keeps f good m -> (forall a, keeps f good (g a)) -> keeps f good (bind m g).
Proof.
  intros Hm Hg h r h' Hb Hh. unfold bind in Hb.
  destruct (m h) as [[a|e] h1] eqn:E.
  - eapply Hg; eauto.
  - injection Hb as <- <-. eauto.
Qed.

Lemma keeps_for_each {A} f good (xs : list A) (g : A -> M unit) :
  (forall x, In x xs -> keeps f good (g x)) -> keeps f good (for_each xs g).
Proof.
  induction xs as [|x xs IH]; intros Hg; cbn [for_each].
  - apply keeps_ret.
  - apply keeps_bind; [apply Hg; by left|].
    intros _. apply IH. intros y Hy. apply Hg. by right.
Qed.

Lemma insert_stream_keeps_map (h : heap) (b f : loc) st st' x :
  h !! b = Some (StreamObj st) ->
  h !! f = Some (MapObj x) ->
  <[b := StreamObj st']> h !! f = Some (MapObj x).
Proof.
  intros Hb Hf. destruct (decide (b = f)) as [->|Hne]; [congruence|].
  by rewrite list_lookup_insert_ne.
Qed.

Lemma keeps_stream_cancel f good b : keeps f good (stream_cancel b).
Proof.
  intros h r h' Hc (x & Hx & Hgood). unfold stream_cancel in Hc.
  destruct (h !! b) as [[| | |st]|] eqn:E; injection Hc as <- <-; eauto.
  exists x. split; [|done]. by eapply insert_stream_keeps_map.
Qed.

Lemma keeps_reader_read f good b : keeps f good (reader_read b).
Proof.
  intros h r h' Hc (x & Hx & Hgood). unfold reader_read in Hc.
  destruct (h !! b) as [[| | |st]|] eqn:E; try (injection Hc as <- <-; eauto).
  destruct (pending st) as [|chunk rest].
  - destruct (failure st); injection Hc as <- <-; eauto.
  - injection Hc as <- <-. exists x. split; [|done].
    by eapply insert_stream_keeps_map.
Qed.

Lemma keeps_read_chunks f good fuel b chunks :
  keeps f good (read_chunks fuel b chunks).
Proof.
  revert chunks. induction fuel as [|fuel IH]; intros chunks; cbn [read_chunks].
  - apply keeps_ret.
  - apply keeps_bind; [apply keeps_reader_read|].
    intros [value|]; [apply IH|apply keeps_ret].
Qed.

Lemma keeps_streamToBytes f good b : keeps f good (streamToBytes b).
Proof.
  intros h r h' Hc. unfold streamToBytes in Hc. revert Hc.
  apply keeps_bind; [apply keeps_read_chunks|].
  intros [|c [|c' chunks]]; apply keeps_ret.
Qed.

Lemma keys_assoc_set {V} k (v : V) m x :
  In x (keys (assoc_set k v m)) -> x = k \/ In x (keys m).
Proof.
  induction m as [|[k' v'] m IH]; cbn.
  - intros [<-|[]]. by left.
  - destruct (String.eqb k' k) eqn:E; cbn; [tauto|].
    intros [<-|Hx]; [tauto|]. destruct (IH Hx); tauto.
Qed.

Lemma keeps_Map_set f (good : string -> Prop) k v :
  good k -> keeps f good (Map_set f k v).
Proof.
  intros Hk h r h' Hc (x & Hx & Hgood). unfold Map_set in Hc.
  rewrite Hx in Hc. injection Hc as <- <-.
  exists (assoc_set k v x). split.
  - apply list_lookup_insert_eq. by eapply lookup_lt_Some.
  - rewrite Forall_forall in Hgood |- *. intros y Hy%list_elem_of_In.
    destruct (keys_assoc_set _ _ _ _ Hy) as [->|Hin]; [done|].
    by apply Hgood, list_elem_of_In.
Qed.

(** A key that still starts with [package/] comes from an entry whose name
    starts with it twice. *)
Lemma key_from_package (es : list TarEntry) (k : string) :
  startsWith "package/" k = true -> key_from es k ->
  exists e, In e es
            /\ name (header e) = "package/" +:+ k
            /\ startsWith "package/package/" (name (header e)) = true.
Proof.
  intros Hpre (_ & e & He & _ & [Hn|[_ Hno]]); [|congruence].
  exists e. do 2 (split; [done|]). rewrite Hn.
  apply startsWith_inv in Hpre as [rest ->]. reflexivity.
Qed.

Section TarFacts.
Context `{Platform}.

Lemma keeps_extract_entry (files : loc) (es : list TarEntry) (e : TarEntry) :
  In e es -> keeps files (key_from es) (extract_entry files e).
Proof.
  intros He. unfold extract_entry.
  destruct (has SYMLINK_TYPES (type (header e))).
  { apply keeps_bind; [apply keeps_stream_cancel|].
    intros. apply keeps_throw. }
  destruct (has FILE_TYPES (type (header e))) eqn:Efile; cbn [negb];
    [|apply keeps_stream_cancel].
  destruct (String.eqb _ "") eqn:Eempty; [apply keeps_stream_cancel|].
  apply keeps_bind; [apply keeps_streamToBytes|]. intros content.
  apply keeps_Map_set. split.
  - by apply String.eqb_neq.
  - exists e. split; [done|]. split.
    + unfold has, FILE_TYPES in Efile. cbn in Efile.
      rewrite orb_false_r in Efile. by apply String.eqb_eq in Efile.
    + destruct (strip_prefix_spec (name (header e))) as [Hp|[Hp Hs]];
        [by left|right]. split; [done|]. by rewrite <- Hp.
Qed.

(** C4 as amended. The map a successful [extractTarball] returns has no
    empty key, and each key is the name of a file entry of the archive with
    one leading [package/] removed when the name has it: so a key starts
    with [package/] only for an entry named [package/package/...]. The tar
    decoder is the platform's; it is assumed not to write to file maps. *)
Theorem extracted_keys (stream : option loc) (h : heap) (files : loc)
    (h' : heap) :
  (forall l h0 r h1 f x,
     tar_entries l h0 = (r, h1) ->
     h0 !! f = Some (MapObj x) -> h1 !! f = Some (MapObj x)) ->
  extractTarball stream h = (Ok files, h') ->
  exists l entryStream h1 m,
    stream = Some l
    /\ tar_entries l (h ++ [MapObj []]) = (Ok entryStream, h1)
    /\ h' !! files = Some (MapObj m)
    /\ (forall k, In k (keys m) -> key_from (entries entryStream) k)
    /\ (forall k, In k (keys m) -> startsWith "package/" k = true ->
        exists e, In e (entries entryStream)
                  /\ name (header e) = "package/" +:+ k
                  /\ startsWith "package/package/" (name (header e)) = true).
Proof.
  intros Hframe Hx. unfold extractTarball in Hx.
  apply bind_ok in Hx as (valid & h0 & Hvalid & Hx).
  assert (h0 = h) as ->.
  { unfold is_readable_stream in Hvalid.
    destruct stream as [l|]; [destruct (h !! l) as [[]|]|];
      by injection Hvalid as _ <-. }
  destruct stream as [l|]; [|done]. destruct valid; [|done].
  apply bind_ok in Hx as (f & h0 & Hnew & Hx).
  unfold Map_new, alloc in Hnew. injection Hnew as <- <-.
  apply bind_ok in Hx as ([] & h2 & Hbody & Hret).
  unfold ret in Hret. injection Hret as <- <-.
  unfold catch in Hbody.
  destruct (bind (tar_entries l) _ (h ++ [MapObj []])) as [[[]|err] hb]
    eqn:Ebody.
  2: { by destruct (is_DiffError err). }
  injection Hbody as <-.
  apply bind_ok in Ebody as (entryStream & h1 & Hdecode & Hloop).
  exists l, entryStream, h1.
  assert (exists x, h1 !! length h = Some (MapObj x)
                    /\ Forall (key_from (entries entryStream)) (keys x))
    as Hstart.
  { exists []. split; [|constructor].
    eapply Hframe; [done|]. by rewrite lookup_app_r, Nat.sub_diag. }
  unfold bind in Hloop.
  destruct (for_each (entries entryStream) (extract_entry (length h)) h1)
    as [[[]|e] h3] eqn:Efor.
  2: { done. }
  assert (h3 = hb) as ->.
  { destruct (stream_failure entryStream); [done|].
    by injection Hloop as <-. }
  destruct (keeps_for_each (length h) (key_from (entries entryStream))
              (entries entryStream) (extract_entry (length h))
              (fun e He => keeps_extract_entry _ _ e He)
              _ _ _ Efor Hstart) as (m & Hm & Hgood).
  exists m. do 3 (split; [done|]).
  assert (Hkeys : forall k, In k (keys m) -> key_from (entries entryStream) k).
  { intros k Hk. rewrite Forall_forall in Hgood.
    by apply Hgood, list_elem_of_In. }
  split; [done|]. intros k Hk Hpre.
  by apply key_from_package, Hkeys.
Qed.

End TarFacts.

(** ** The claims on concrete inputs *)

Lemma tar_entries_of_frame files (h : heap) r h1 f (x : obj) :
  Reference.tar_entries_of files h = (r, h1) ->
  h !! f = Some x -> h1 !! f = Some x.
Proof.
  revert h r h1. induction files as [|[p content] files IH];
    intros h r h1 Hr Hf.
  - by injection Hr as _ <-.
  - cbn [Reference.tar_entries_of] in Hr. unfold bind, alloc in Hr.
    destruct (Reference.tar_entries_of files _) as [[es|e] h2] eqn:E.
    + injection Hr as _ <-. eapply IH; [done|]. by apply lookup_app_l_Some.
    + injection Hr as _ <-. eapply IH; [done|]. by apply lookup_app_l_Some.
Qed.

Lemma reference_tar_frame response files :
  let P := Reference.platform response files in
  forall l (h0 : heap) r h1 f x,
    tar_entries l h0 = (r, h1) ->
    h0 !! f = Some (MapObj x) -> h1 !! f = Some (MapObj x).
Proof.
  intros P l h0 r h1 f x Hr Hf. cbn in Hr. unfold bind in Hr.
  destruct (Reference.tar_entries_of files h0) as [[es|e] h2] eqn:E;
    injection Hr as _ <-; by eapply tar_entries_of_frame.
Qed.

(** C4, the counterexample: an archive with one regular file named
    [package/package/x] is extracted to a map with the key [package/x]. *)
Lemma extracted_key_starting_with_package :
  let P := Reference.platform (mkResponse 200 "OK" [] None)
             [("package/x", Reference.encode "1")] in
  extractTarball (Some 0) [StreamObj (mkStream [] None)]
  = (Ok 1, [StreamObj (mkStream [] None);
            MapObj [("package/x", Reference.encode "1")];
            StreamObj (mkStream [] None)])
  /\ startsWith "package/" "package/x" = true
  /\ tar_entries 0 [StreamObj (mkStream [] None); MapObj []]
     = (Ok (mkTarStream
              [mkTarEntry (mkTarHeader "package/package/x" "file" None) 2]
              None),
        [StreamObj (mkStream [] None); MapObj [];
         StreamObj (mkStream [Reference.encode "1"] None)]).
Proof. by vm_compute. Qed.

Lemma extracted_keys_witness :
  let P := Reference.platform (mkResponse 200 "OK" [] None)
             [("package/x", Reference.encode "1")] in
  exists l entryStream h1 m,
    Some 0 = Some l
    /\ tar_entries l ([StreamObj (mkStream [] None)] ++ [MapObj []])
       = (Ok entryStream, h1)
    /\ [StreamObj (mkStream [] None);
        MapObj [("package/x", Reference.encode "1")];
        StreamObj (mkStream [] None)] !! 1 = Some (MapObj m)
    /\ (forall k, In k (keys m) -> key_from (entries entryStream) k)
    /\ (forall k, In k (keys m) -> startsWith "package/" k = true ->
        exists e, In e (entries entryStream)
                  /\ name (header e) = "package/" +:+ k
                  /\ startsWith "package/package/" (name (header e)) = true).
Proof.
  intros P.
  apply (extracted_keys (H := P) (Some 0) [StreamObj (mkStream [] None)] 1
           [StreamObj (mkStream [] None);
            MapObj [("package/x", Reference.encode "1")];
            StreamObj (mkStream [] None)]
           (reference_tar_frame _ _)).
  reflexivity.
Defined.

(** C2, the counterexample: the file is counted in [filesChanged] although
    the loop pushes no block for it and the output is empty. *)
Lemma filesChanged_counts_a_path_without_block :
  let P := Reference.platform (mkResponse 200 "OK" [] None) [] in
  formatDiff_loop 0 1 None crlf_store
  = (Ok (false, mkLoopState [] ["f.txt"] 0 0), crlf_store)
  /\ formatDiff 0 1 None crlf_store
     = (Ok (mkFormatResult "" 1 0 0), crlf_store).
Proof. by vm_compute. Qed.

Lemma filesChanged_counts_changed_paths_witness :
  let P := Reference.platform (mkResponse 200 "OK" [] None) [] in
  filesChanged (mkFormatResult "" 1 0 0)
  = length (List.filter (changed crlf_left crlf_right)
              (sortedPaths crlf_left crlf_right))
  /\ length (outputParts (mkLoopState [] ["f.txt"] 0 0))
     <= filesChanged (mkFormatResult "" 1 0 0).
Proof.
  intros P.
  exact (filesChanged_counts_changed_paths (H := P) 0 1 None crlf_store
           crlf_left crlf_right false (mkLoopState [] ["f.txt"] 0 0)
           (mkFormatResult "" 1 0 0) crlf_store crlf_store
           eq_refl eq_refl ltac:(by vm_compute) ltac:(by vm_compute)).
Defined.



(** The spec's first scenario: the same archive on both sides. *)
Lemma identical_trees_give_empty_diff_witness :
  let P := Reference.platform (mkResponse 200 "OK" [] (Some 0))
             [("index.js", Reference.encode ("const x = 1;" +:+ nl));
              ("package.json", Reference.encode ("{}" +:+ nl))] in
  let X := mkSourceConfig (Some "url")
             (Some "https://registry.example/pkg.tgz") None None None None in
  fst (diff (Some X) (Some X) None []) = Ok "".
Proof.
  intros P X. destruct (identical_trees_give_empty_diff (H := P)) as [_ Hd].
  erewrite Hd; [reflexivity|by vm_compute|by vm_compute|by vm_compute
                |by vm_compute|apply same_files_refl|reflexivity].
Defined.

(** ** The loops always come to an end *)

(** The bound given to the reading loop is enough: it delivers every
    pending chunk, or the error the stream ends with. *)
Lemma read_chunks_all (pend : list (list byte)) :
  forall (fuel : nat) (b : loc) (h : heap) fail acc,
    h !! b = Some (StreamObj (mkStream pend fail)) ->
    length pend < fuel ->
    read_chunks fuel b acc h
    = match fail with
      | None => (Ok (acc ++ pend), <[b := StreamObj (mkStream [] None)]> h)
      | Some e => (Throw e, <[b := StreamObj (mkStream [] (Some e))]> h)
      end.
Proof.
  induction pend as [|c pend IH]; intros fuel b h fail acc Hb Hfuel;
    (destruct fuel as [|fuel]; [cbn in Hfuel; lia|]); cbn [read_chunks].
  - unfold bind, reader_read. rewrite Hb. cbn.
    destruct fail as [e|]; rewrite list_insert_id by done; [done|].
    by rewrite app_nil_r.
  - unfold bind at 1. unfold reader_read. rewrite Hb. cbn [pending failure].
    rewrite (IH fuel b _ fail (acc ++ [c])).
    + destruct fail; by rewrite list_insert_insert_eq, <- ?app_assoc.
    + apply list_lookup_insert_eq. by eapply lookup_lt_Some.
    + cbn in Hfuel. lia.
Qed.

Lemma streamToBytes_eval (b : loc) (h : heap) pend :
  h !! b = Some (StreamObj (mkStream pend None)) ->
  streamToBytes b h
  = (Ok (match pend with [chunk] => chunk | _ => concat pend end),
     <[b := StreamObj (mkStream [] None)]> h).
Proof.
  intros Hb. unfold streamToBytes, stream_pending. rewrite Hb. cbn [pending].
  unfold bind. rewrite (read_chunks_all pend _ b h None []) by (done || lia).
  cbn [app]. by destruct pend as [|c [|c' pend]].
Qed.

Lemma returns_bind {A B} (m : M A) (g : A -> M B) h :
  returns m h -> (forall a, m h = (Ok a, h) -> returns (g a) h) ->
  returns (bind m g) h.
Proof.
  intros [a Ha] Hg. destruct (Hg a Ha) as [b Hb]. exists b.
  by rewrite (bind_eval _ _ _ _ _ Ha).
Qed.

Lemma returns_ret {A} (a : A) h : returns (ret a) h.
Proof. by exists a. Qed.

Lemma returns_foldM {A S} (g : S -> A -> M S) (xs : list A) (s : S) h :
  (forall s x, returns (g s x) h) -> returns (foldM g xs s) h.
Proof.
  intros Hg. revert s. induction xs as [|x xs IH]; intros s; cbn [foldM].
  - apply returns_ret.
  - apply returns_bind; [apply Hg|]. intros s' _. apply IH.
Qed.

Section Totality.
Context `{Platform}.

Lemma returns_computeDiff a b c d options h opts :
  differ_total ->
  read_options options h = (Ok opts, h) ->
  returns (computeDiff a b c d options) h.
Proof.
  intros Hlib Ho. unfold computeDiff, returns.
  rewrite (bind_eval _ _ _ _ _ Ho).
  edestruct Hlib as [p ->]. by exists p.
Qed.

Lemma returns_diff_cases o p lhs rhs options h opts :
  differ_total ->
  read_options options h = (Ok opts, h) ->
  returns (diff_cases o p lhs rhs options) h.
Proof.
  intros Hlib Ho. unfold diff_cases.
  destruct lhs as [l|], rhs as [r|]; try apply returns_ret.
  - destruct (areIdentical l r); [apply returns_ret|].
    apply returns_bind; [by eapply returns_computeDiff|].
    intros. apply returns_ret.
  - apply returns_bind; [by eapply returns_computeDiff|].
    intros. apply returns_ret.
  - apply returns_bind; [by eapply returns_computeDiff|].
    intros. apply returns_ret.
Qed.

Lemma returns_computeFileDiff p lhs rhs options h opts status :
  differ_total ->
  read_options options h = (Ok opts, h) ->
  classify lhs rhs = Some status ->
  returns (computeFileDiff p lhs rhs options) h.
Proof.
  intros Hlib Ho Hcl. unfold computeFileDiff.
  apply returns_bind; [by exists opts|]. intros o _.
  apply returns_bind; [by eapply returns_diff_cases|].
  intros [d|] Hd; [apply returns_ret|].
  apply diff_cases_result in Hd as [-> ->]. done.
Qed.

Lemma returns_formatTextDiff p q status options h opts :
  read_options options h = (Ok opts, h) ->
  returns (formatTextDiff p q status options) h.
Proof.
  intros Ho. unfold formatTextDiff, returns.
  rewrite (bind_eval _ _ _ _ _ Ho). eauto.
Qed.

Lemma returns_emit_block p status lhs rhs options isBinary st h opts :
  differ_total ->
  read_options options h = (Ok opts, h) ->
  classify lhs rhs = Some status ->
  returns (emit_block p status lhs rhs options isBinary st) h.
Proof.
  intros Hlib Ho Hcl. unfold emit_block.
  assert (Hpush : forall q,
    returns (part <- formatTextDiff p q status options ;;
             ret (push_part part st)) h).
  { intros q. apply returns_bind; [by eapply returns_formatTextDiff|].
    intros. apply returns_ret. }
  destruct isBinary.
  { apply returns_bind; [|intros; apply returns_ret].
    unfold formatBinaryHeader, returns.
    rewrite (bind_eval _ _ _ _ _ Ho). eauto. }
  apply returns_bind; [by eapply returns_computeFileDiff|]. intros fd _.
  destruct (patch_with_changes (patch fd)); [apply Hpush|].
  destruct lhs as [l|], rhs as [r|]; cbn in Hcl; try discriminate;
    injection Hcl as <-; try apply returns_ret.
  - apply returns_bind; [by eapply (returns_computeFileDiff _ (Some l) None)|].
    intros e _. destruct (truthy_string (patch e));
      [apply Hpush|apply returns_ret].
  - apply returns_bind; [by eapply (returns_computeFileDiff _ None (Some r))|].
    intros e _. destruct (truthy_string (patch e));
      [apply Hpush|apply returns_ret].
Qed.

(** With a differ that does not throw, maps at the two arguments and
    options that can be read, both functions return a result. *)
Lemma diff_functions_return l r options h L R opts :
  differ_total ->
  h !! l = Some (MapObj L) ->
  h !! r = Some (MapObj R) ->
  read_options options h = (Ok opts, h) ->
  returns (computeTreeDiff l r options) h
  /\ returns (formatDiff l r options) h.
Proof.
  intros Hlib Hl Hr Ho. split.
  - unfold computeTreeDiff.
    apply returns_bind; [by exists opts|]. intros o _.
    apply returns_bind; [eexists; by apply Map_keys_eval|]. intros lk _.
    apply returns_bind; [eexists; by apply Map_keys_eval|]. intros rk _.
    apply returns_foldM. intros results p.
    apply returns_bind; [eexists; by apply Map_get_eval|]. intros lhs _.
    apply returns_bind; [eexists; by apply Map_get_eval|]. intros rhs _.
    apply returns_bind; [by eapply returns_diff_cases|].
    intros [d|] _; apply returns_ret.
  - unfold formatDiff.
    apply returns_bind; [|intros [flag st] _; apply returns_ret].
    unfold formatDiff_loop.
    apply returns_bind; [by exists opts|]. intros o _.
    apply returns_bind; [eexists; by apply Map_keys_eval|]. intros lk _.
    apply returns_bind; [eexists; by apply Map_keys_eval|]. intros rk _.
    apply returns_bind; [|intros; apply returns_ret].
    apply returns_foldM. intros st p. unfold formatDiff_step.
    apply returns_bind; [eexists; by apply Map_get_eval|]. intros lhs _.
    apply returns_bind; [eexists; by apply Map_get_eval|]. intros rhs _.
    destruct (classify lhs rhs) as [status|] eqn:Ecl; [|apply returns_ret].
    destruct (identical lhs rhs); [apply returns_ret|].
    destruct (default false (nameOnly o)); [apply returns_ret|].
    by eapply returns_emit_block.
Qed.

End Totality.

(** * Further properties *)

(** ** Strings *)

Lemma indexOf_app_none c (a b : string) :
  indexOf c a = None ->
  indexOf c (a +:+ b) = Nat.add (String.length a) <$> indexOf c b.
Proof.
  induction a as [|d a IH]; cbn [indexOf].
  - intros _. rewrite sapp_nil_l. by destruct (indexOf c b).
  - rewrite sapp_cons. cbn [indexOf String.length].
    destruct (Ascii.eqb d c); [done|]. intros Ha.
    rewrite IH by (by destruct (indexOf c a)).
    by destruct (indexOf c b).
Qed.

Lemma indexOf_None_iff c s :
  indexOf c s = None <-> lastIndexOf c s = None.
Proof.
  induction s as [|a s IH]; [done|]. cbn.
  destruct (Ascii.eqb a c), (indexOf c s) eqn:E1, (lastIndexOf c s) eqn:E2;
    cbn; split; intros Hx; try done; destruct IH as [I1 I2];
    (by specialize (I1 eq_refl) || by specialize (I2 eq_refl)).
Qed.

Lemma lastIndexOf_app c (a b : string) :
  lastIndexOf c b = None ->
  lastIndexOf c (a +:+ String c b) = Some (String.length a).
Proof.
  intros Hb. induction a as [|d a IH].
  - rewrite sapp_nil_l. cbn. by rewrite Hb, Ascii.eqb_refl.
  - rewrite sapp_cons. cbn. by rewrite IH.
Qed.

Lemma drop_app_cons (a : string) c (b : string) :
  drop (String.length a + 1) (a +:+ String c b) = b.
Proof.
  induction a as [|d a IH]; [by rewrite sapp_nil_l|].
  rewrite sapp_cons. cbn. apply IH.
Qed.

Lemma lower_char_idem c : lower_char (lower_char c) = lower_char c.
Proof. destruct c as [[] [] [] [] [] [] [] []]; by vm_compute. Qed.

Lemma toLowerCase_idem s : toLowerCase (toLowerCase s) = toLowerCase s.
Proof.
  induction s as [|c s IH]; [done|]. cbn. by rewrite lower_char_idem, IH.
Qed.

Lemma toLowerCase_length s : String.length (toLowerCase s) = String.length s.
Proof. induction s as [|c s IH]; [done|]. cbn. by rewrite IH. Qed.

Lemma take_app_length (a b : string) : take (String.length a) (a +:+ b) = a.
Proof.
  induction a as [|c a IH]; [by destruct b|]. rewrite sapp_cons. cbn.
  by rewrite IH.
Qed.

(** ** diff.js: byte comparison and line endings *)

Lemma same_bytes_eq (a b : list byte) :
  length a = length b -> same_bytes a b = true -> a = b.
Proof.
  revert b. induction a as [|x a IH]; intros [|y b] Hlen Hs; try done.
  cbn in Hs. destruct (Byte.eqb x y) eqn:E; [|done].
  apply Byte.byte_dec_bl in E as ->. f_equal. apply IH; [|done].
  cbn in Hlen. lia.
Qed.

(** X1. [areIdentical] is equality of the two buffers. *)
Theorem areIdentical_iff_equal (a b : list byte) :
  areIdentical a b = true <-> a = b.
Proof.
  unfold areIdentical. split.
  - destruct (length a =? length b)%nat eqn:E; cbn [negb]; [|done].
    apply Nat.eqb_eq in E. by apply same_bytes_eq.
  - intros <-. rewrite Nat.eqb_refl. cbn [negb]. apply same_bytes_refl.
Qed.

Lemma sub_succ2 n : S (S n) - n = 2.
Proof. lia. Qed.

Lemma sub_succ1 n : S n - n = 1.
Proof. lia. Qed.

Lemma exec_LINE_ENDING c s :
  RegExp.exec_here LINE_ENDING (String c s)
  = if Ascii.eqb c cr
    then Some (match s with
               | String d s' => if Ascii.eqb d lf then s' else s
               | EmptyString => s
               end)
    else None.
Proof.
  unfold RegExp.exec_here.
  cbn -[Ascii.eqb cr lf]. unfold RegExp.member, RegExp.one.
  cbn [andb]. rewrite orb_false_r. destruct (Ascii.eqb c cr); [|done].
  destruct s as [|d s]; [done|]. cbn -[Ascii.eqb cr lf].
  unfold RegExp.member. cbn [andb]. rewrite orb_false_r.
  destruct (Ascii.eqb d lf); [|done].
  rewrite bool_decide_eq_false_2 by done. cbn [negb andb].
  destruct s as [|e s]; [done|]. cbn [RegExp.rep].
  rewrite bool_decide_eq_true_2 by done. cbn [negb].
  by rewrite andb_false_r.
Qed.

Lemma normalize_other c s :
  Ascii.eqb c cr = false ->
  normalizeLineEndings (String c s) = String c (normalizeLineEndings s).
Proof.
  intros Hc. unfold normalizeLineEndings, RegExp.replace.
  cbn [RegExp.anchored RegExp.global LINE_ENDING RegExp.replace_go].
  fold LINE_ENDING. by rewrite exec_LINE_ENDING, Hc.
Qed.

Lemma normalize_crlf s :
  normalizeLineEndings (String cr (String lf s)) = nl +:+ normalizeLineEndings s.
Proof.
  unfold normalizeLineEndings, RegExp.replace.
  cbn [RegExp.anchored RegExp.global LINE_ENDING RegExp.replace_go].
  fold LINE_ENDING. rewrite exec_LINE_ENDING, !Ascii.eqb_refl.
  unfold RegExp.matched. cbn [String.length]. rewrite sub_succ2.
  reflexivity.
Qed.

Lemma normalize_cr s :
  startsWith (String lf "") s = false ->
  normalizeLineEndings (String cr s) = nl +:+ normalizeLineEndings s.
Proof.
  intros Hs. unfold normalizeLineEndings, RegExp.replace.
  cbn [RegExp.anchored RegExp.global LINE_ENDING RegExp.replace_go].
  fold LINE_ENDING. rewrite exec_LINE_ENDING, Ascii.eqb_refl.
  assert (match s with
          | String d s' => if Ascii.eqb d lf then s' else s
          | EmptyString => s
          end = s) as ->.
  { destruct s as [|d s]; [done|]. cbn -[Ascii.eqb lf] in Hs.
    rewrite Ascii.eqb_sym. by destruct (Ascii.eqb lf d). }
  unfold RegExp.matched. cbn [String.length]. rewrite sub_succ1.
  reflexivity.
Qed.

Lemma normalize_no_cr_upto n s :
  String.length s <= n -> indexOf cr (normalizeLineEndings s) = None.
Proof.
  revert s. induction n as [|n IH]; intros s Hn.
  - destruct s; [done|cbn in Hn; lia].
  - destruct s as [|c s]; [done|]. cbn in Hn.
    destruct (Ascii.eqb c cr) eqn:Ec.
    + apply Ascii.eqb_eq in Ec as ->.
      destruct s as [|d s].
      * done.
      * destruct (Ascii.eqb d lf) eqn:Ed.
        -- apply Ascii.eqb_eq in Ed as ->. rewrite normalize_crlf.
           unfold nl. rewrite sapp_cons, sapp_nil_l. cbn [indexOf].
           change (Ascii.eqb (ascii_of_N 10) cr) with false. cbn iota.
           rewrite IH; [done|]. cbn in Hn. lia.
        -- rewrite normalize_cr.
           2: { cbn -[Ascii.eqb lf]. rewrite Ascii.eqb_sym. by rewrite Ed. }
           unfold nl. rewrite sapp_cons, sapp_nil_l. cbn [indexOf].
           change (Ascii.eqb (ascii_of_N 10) cr) with false. cbn iota.
           rewrite IH; [done|]. cbn in Hn |- *. lia.
    + rewrite normalize_other by done. cbn [indexOf]. rewrite Ec.
      rewrite IH; [done|]. lia.
Qed.

Lemma normalize_id s :
  indexOf cr s = None -> normalizeLineEndings s = s.
Proof.
  induction s as [|c s IH]; [done|]. cbn [indexOf].
  destruct (Ascii.eqb c cr) eqn:Ec; [done|].
  intros Hs. rewrite normalize_other by done. f_equal. apply IH.
  by destruct (indexOf cr s).
Qed.

(** X2. [normalizeLineEndings] turns every CR LF and every other CR into one LF
    and keeps the rest: the result holds no CR, a text without CR is returned
    as it is, and normalising twice is normalising once. *)
Theorem normalizeLineEndings_spec (s : string) :
  indexOf cr (normalizeLineEndings s) = None
  /\ (indexOf cr s = None -> normalizeLineEndings s = s)
  /\ normalizeLineEndings (normalizeLineEndings s) = normalizeLineEndings s
  /\ normalizeLineEndings (String cr (String lf s))
     = nl +:+ normalizeLineEndings s
  /\ (startsWith (String lf "") s = false ->
      normalizeLineEndings (String cr s) = nl +:+ normalizeLineEndings s)
  /\ (forall c, c <> cr ->
      normalizeLineEndings (String c s) = String c (normalizeLineEndings s)).
Proof.
  pose proof (normalize_no_cr_upto _ s (le_n _)) as Hno.
  split; [done|]. split; [apply normalize_id|].
  split; [by apply normalize_id|].
  split; [apply normalize_crlf|]. split; [apply normalize_cr|].
  intros c Hc. apply normalize_other. by apply Ascii.eqb_neq.
Qed.

(** ** errors.js: what the sanitiser removes *)

Lemma free_replace (re : RegExp.t) f s :
  RegExp.anchored re = false -> RegExp.global re = true ->
  RegExpSpec.needs_b (RegExp.ignoreCase re) is_sep (RegExp.body re) = true ->
  RegExpSpec.free_of is_sep s = true ->
  RegExp.replace re f s = s.
Proof.
  intros Ha Hg Hn Hs. unfold RegExp.replace. rewrite Ha, Hg.
  apply RegExpFacts.replace_go_no_match
    with (fun s => RegExpSpec.free_of is_sep s = true);
    [apply RegExpFacts.free_of_tail| |done].
  intros s' Hs'. unfold RegExp.exec_here.
  apply RegExpFacts.run_needs with is_sep; [|done].
  by apply RegExpFacts.needs_b_sound.
Qed.

Lemma rep_all q lo (a b : string) (k : string -> option string) r :
  all_chars q a = true -> stops q b = true -> lo <= String.length a ->
  k b = Some r ->
  RegExp.rep q lo None (a +:+ b) k = Some r.
Proof.
  intros Ha Hb. revert lo. induction a as [|c a IH]; intros lo Hlo Hk.
  - rewrite sapp_nil_l. cbn in Hlo. assert (lo = 0) as -> by lia.
    destruct b as [|d b]; cbn; [done|]. cbn in Hb.
    apply negb_true_iff in Hb. by rewrite Hb.
  - rewrite sapp_cons. cbn [RegExp.rep]. cbn in Ha.
    apply andb_true_iff in Ha as [Hc Ha]. rewrite Hc.
    rewrite bool_decide_eq_false_2 by done. cbn [negb andb fmap option_fmap option_map].
    rewrite (IH Ha (Nat.pred lo)); [done| |done]. cbn in Hlo. lia.
Qed.

Lemma bearer_char_plain c :
  bearer_char c = true ->
  is_sep c = false /\ is_space c = false
  /\ RegExp.test true (RegExp.Pos bearer_char) c = true.
Proof.
  destruct c as [[] [] [] [] [] [] [] []]; vm_compute; intros; by repeat split.
Qed.

Lemma replace_go_skip re f (a b : string) :
  RegExp.replace_go re f (String.length a) (a +:+ b) = RegExp.replace_go re f 0 b.
Proof.
  induction a as [|c a IH]; [by rewrite sapp_nil_l|].
  by rewrite sapp_cons.
Qed.

Lemma bearer_char_test c :
  RegExp.test true (RegExp.Pos bearer_char) c = bearer_char c
  /\ (bearer_char c = true -> RegExp.test true Patterns.space c = false).
Proof.
  destruct c as [[] [] [] [] [] [] [] []]; vm_compute; by split.
Qed.

Lemma all_chars_test tok :
  all_chars bearer_char tok = true ->
  all_chars (RegExp.test true (RegExp.Pos bearer_char)) tok = true.
Proof.
  unfold all_chars. induction tok as [|c tok IH]; [done|].
  cbn [forallb list_ascii_of_string].
  intros [Hc Ht]%andb_true_iff.
  rewrite (proj1 (bearer_char_test c)), Hc. by apply IH.
Qed.

Lemma stops_test suf :
  stops bearer_char suf = true ->
  stops (RegExp.test true (RegExp.Pos bearer_char)) suf = true.
Proof.
  destruct suf as [|c suf]; [done|]. cbn [stops].
  by rewrite (proj1 (bearer_char_test c)).
Qed.

Lemma matched_app (a b : string) : RegExp.matched (a +:+ b) b = a.
Proof.
  unfold RegExp.matched. rewrite slength_app.
  replace (String.length a + String.length b - String.length b)
    with (String.length a) by lia.
  apply take_app_length.
Qed.

(** A match at the head is replaced and the scan resumes after it. *)
Lemma replace_go_match re f c (a b : string) :
  RegExp.exec_here re (String c (a +:+ b)) = Some b ->
  RegExp.replace_go re f 0 (String c (a +:+ b))
  = f (String c a) +:+ RegExp.replace_go re f 0 b.
Proof.
  intros He. cbn [RegExp.replace_go]. rewrite He.
  change (String c (a +:+ b)) with (String c a +:+ b).
  rewrite matched_app. cbn [String.length]. by rewrite replace_go_skip.
Qed.

Lemma rep_stop q hi (s : string) (k : string -> option string) :
  stops q s = true -> RegExp.rep q 0 hi s k = k s.
Proof.
  destruct s as [|c s]; [done|]. cbn. intros Hc%negb_true_iff. by rewrite Hc.
Qed.

Lemma exec_bearer (tok suf : string) :
  tok <> "" -> all_chars bearer_char tok = true ->
  stops bearer_char suf = true ->
  RegExp.exec_here Patterns.bearer_token ("Bearer " +:+ tok +:+ suf)
  = Some suf.
Proof.
  intros Hne Htok Hsuf. unfold RegExp.exec_here.
  change ("Bearer " +:+ tok +:+ suf)
    with (String "B" (String "e" (String "a" (String "r" (String "e"
           (String "r" (String " " (tok +:+ suf)))))))).
  cbn -[RegExp.rep RegExp.test String.append].
  change (RegExp.test true (RegExp.Pos (RegExp.one "B")) "B") with true.
  change (RegExp.test true (RegExp.Pos (RegExp.one "e")) "e") with true.
  change (RegExp.test true (RegExp.Pos (RegExp.one "a")) "a") with true.
  change (RegExp.test true (RegExp.Pos (RegExp.one "r")) "r") with true.
  cbn iota.
  change (RegExp.union RegExp.alnum (RegExp.any_of "._-")) with bearer_char.
  set (k1 := fun s1 : string =>
               RegExp.rep (RegExp.test true (RegExp.Pos bearer_char)) 1 None
                 s1 Some).
  assert (Hk1 : k1 (tok +:+ suf) = Some suf).
  { unfold k1. apply rep_all; try done.
    - by apply all_chars_test.
    - by apply stops_test.
    - destruct tok; [done|cbn; lia]. }
  cbn [RegExp.rep].
  change (RegExp.test true Patterns.space " ") with true.
  rewrite bool_decide_eq_false_2 by done.
  cbn [negb andb fmap option_fmap option_map Nat.pred].
  rewrite rep_stop; [by rewrite Hk1|].
  destruct tok as [|c tok]; [done|]. rewrite sapp_cons. cbn [stops].
  cbn in Htok. apply andb_true_iff in Htok as [Hc Htok].
  by rewrite (proj2 (bearer_char_test c) Hc).
Qed.

(** The scan for a bearer token passes over a text without "be" when what
    follows does not start with an "e". *)
Lemma replace_go_bearer_prefix f (pre rest : string) pb :
  clean_from pb pre = true -> stops is_e rest = true ->
  RegExp.replace_go Patterns.bearer_token f 0 (pre +:+ rest)
  = pre +:+ RegExp.replace_go Patterns.bearer_token f 0 rest.
Proof.
  revert pb. induction pre as [|c pre IH]; intros pb Hpre Hrest.
  - by rewrite !sapp_nil_l.
  - rewrite !sapp_cons. cbn [clean_from] in Hpre.
    apply andb_true_iff in Hpre as [Hc Hpre].
    assert (RegExp.exec_here Patterns.bearer_token (String c (pre +:+ rest))
            = None) as Hno.
    { unfold RegExp.exec_here.
      cbn -[RegExp.rep RegExp.test String.append].
      change (RegExp.test true (RegExp.Pos (RegExp.one "B")) c) with (is_b c).
      destruct (is_b c) eqn:Eb; [|done].
      assert (stops is_e (pre +:+ rest) = true) as Hnext.
      { destruct pre as [|c2 pre]; [by rewrite sapp_nil_l|].
        rewrite sapp_cons. cbn [stops]. cbn [clean_from] in Hpre.
        cbn [andb] in Hpre.
        apply andb_true_iff in Hpre as [[_ He]%andb_true_iff _]. done. }
      destruct (pre +:+ rest) as [|c2 s2]; [done|]. cbn [stops] in Hnext.
      change (RegExp.test true (RegExp.Pos (RegExp.one "e")) c2) with (is_e c2).
      apply negb_true_iff in Hnext. by rewrite Hnext. }
    cbn [RegExp.replace_go]. rewrite Hno. f_equal. by apply IH with (is_b c).
Qed.

Lemma free_of_app P (a b : string) :
  RegExpSpec.free_of P (a +:+ b)
  = RegExpSpec.free_of P a && RegExpSpec.free_of P b.
Proof.
  induction a as [|c a IH]; [done|]. rewrite sapp_cons. cbn.
  by rewrite IH, andb_assoc.
Qed.

Lemma free_of_bearer_chars tok :
  all_chars bearer_char tok = true -> RegExpSpec.free_of is_sep tok = true.
Proof.
  unfold all_chars. induction tok as [|c tok IH]; [done|]. cbn.
  intros [Hc Ht]%andb_true_iff.
  destruct (bearer_char_plain c Hc) as (-> & _). by apply IH.
Qed.

Lemma free_of_indexOf (c : ascii) s :
  is_sep c = true -> RegExpSpec.free_of is_sep s = true -> indexOf c s = None.
Proof.
  intros Hc. induction s as [|d s IH]; [done|]. cbn.
  intros [Hd Hs]%andb_true_iff. destruct (Ascii.eqb d c) eqn:E.
  - apply Ascii.eqb_eq in E as ->. by rewrite Hc in Hd.
  - by rewrite IH.
Qed.

Lemma redact_free mt :
  RegExpSpec.free_of is_sep mt = true -> redact mt = "[REDACTED]".
Proof.
  intros Hf. unfold redact.
  by rewrite !free_of_indexOf.
Qed.

(** X3. A bearer token in running text is replaced, with its keyword, by the
    marker: for a token made of the characters of [[A-Za-z0-9._-]], between
    texts that hold no [:], no [=] and no [be], and followed by a character
    that cannot continue the token. *)
Theorem bearer_token_is_redacted (pre tok suf : string) :
  clean_from false pre = true ->
  tok <> "" -> all_chars bearer_char tok = true ->
  stops bearer_char suf = true -> clean_from false suf = true ->
  sanitizeCredentials (pre +:+ "Bearer " +:+ tok +:+ suf)
  = pre +:+ "[REDACTED]" +:+ suf.
Proof.
  intros Hpre Hne Htok Hstop Hsuf.
  assert (Hfp : RegExpSpec.free_of is_sep pre = true)
    by (apply clean_free_of_sep; by exists false).
  assert (Hfs : RegExpSpec.free_of is_sep suf = true)
    by (apply clean_free_of_sep; by exists false).
  assert (Hft := free_of_bearer_chars tok Htok).
  assert (Hin : RegExpSpec.free_of is_sep (pre +:+ "Bearer " +:+ tok +:+ suf)
                = true).
  { rewrite !free_of_app, Hfp, Hft, Hfs. reflexivity. }
  assert (Hout : RegExpSpec.free_of is_sep (pre +:+ "[REDACTED]" +:+ suf)
                 = true).
  { rewrite !free_of_app, Hfp, Hfs. reflexivity. }
  unfold sanitizeCredentials, CREDENTIAL_PATTERNS. cbn [fold_left].
  rewrite (free_replace Patterns.authorization_header) by done.
  rewrite (free_replace Patterns.aws_credentials) by done.
  rewrite (free_replace Patterns.url_token) by done.
  rewrite (free_replace Patterns.url_userinfo) by done.
  assert (RegExp.replace Patterns.bearer_token redact
            (pre +:+ "Bearer " +:+ tok +:+ suf)
          = pre +:+ "[REDACTED]" +:+ suf) as ->.
  { unfold RegExp.replace. cbn [RegExp.anchored RegExp.global Patterns.bearer_token].
    fold Patterns.bearer_token.
    rewrite (replace_go_bearer_prefix _ pre _ false) by done.
    f_equal.
    change ("Bearer " +:+ tok +:+ suf)
      with (String "B" (("earer " +:+ tok) +:+ suf)).
    rewrite replace_go_match.
    2: { apply (exec_bearer tok suf); done. }
    rewrite redact_free.
    2: { change (String "B" ("earer " +:+ tok)) with ("Bearer " +:+ tok).
         rewrite free_of_app, Hft. reflexivity. }
    f_equal.
    apply RegExpFacts.replace_go_no_match with clean;
      [apply clean_tail| |by exists false].
    intros s' Hs'. by apply bearer_no_match. }
  rewrite (free_replace Patterns.generic_credential) by done.
  by rewrite (free_replace Patterns.url_userinfo_final).
Qed.

Lemma bearer_token_is_redacted_witness :
  sanitizeCredentials
    ("Request failed with " +:+ "Bearer " +:+ "npm_1234567890abcdef" +:+
     " for this package")
  = "Request failed with " +:+ "[REDACTED]" +:+ " for this package".
Proof.
  apply (bearer_token_is_redacted "Request failed with "
           "npm_1234567890abcdef" " for this package");
    (reflexivity || discriminate).
Defined.

Lemma credential_char_test c :
  credential_char c = true ->
  RegExp.test true Patterns.token_chars c = true
  /\ RegExp.test true Patterns.space c = false
  /\ Ascii.eqb c ":" = false.
Proof.
  destruct c as [[] [] [] [] [] [] [] []]; vm_compute; intros; by repeat split.
Qed.

Lemma all_chars_credential tok :
  all_chars credential_char tok = true ->
  all_chars (RegExp.test true Patterns.token_chars) tok = true.
Proof.
  unfold all_chars. induction tok as [|c tok IH]; [done|].
  cbn [forallb list_ascii_of_string].
  intros [Hc Ht]%andb_true_iff.
  destruct (credential_char_test c Hc) as (-> & _). by apply IH.
Qed.

Lemma redact_keeps_header_name (rest : string) :
  redact ("Authorization: " +:+ rest) = "Authorization: [REDACTED]".
Proof.
  unfold redact.
  assert (indexOf ":" ("Authorization: " +:+ rest) = Some 13) as ->
    by reflexivity.
  assert (min_index (Some 13) (indexOf "=" ("Authorization: " +:+ rest))
          = Some 13) as ->.
  { rewrite indexOf_app_none by reflexivity.
    destruct (indexOf "=" rest); cbn; [f_equal; lia|done]. }
  assert ((Z.of_nat 13 <?
           Z.of_nat (String.length ("Authorization: " +:+ rest)) - 1)%Z
          = true) as ->.
  { apply Z.ltb_lt. rewrite slength_app. cbn [String.length]. lia. }
  reflexivity.
Qed.

Lemma run_lit_app ic (w s : string) (k : string -> option string) :
  RegExp.run ic (RegExp.lit w) (w +:+ s) k = k s.
Proof.
  revert s. induction w as [|c w IH]; intros s; [by rewrite sapp_nil_l|].
  rewrite sapp_cons. cbn [RegExp.lit RegExp.run].
  assert (RegExp.test ic (RegExp.Pos (RegExp.one c)) c = true) as ->.
  { unfold RegExp.test, RegExp.member, RegExp.one.
    by rewrite Ascii.eqb_refl. }
  apply IH.
Qed.

Lemma replace_go_match_all re f c (a : string) :
  RegExp.exec_here re (String c a) = Some "" ->
  RegExp.replace_go re f 0 (String c a)
  = f (String c a) +:+ RegExp.replace_go re f 0 "".
Proof.
  intros He. rewrite <- (sapp_nil_r a) at 1.
  rewrite replace_go_match; [done|]. by rewrite sapp_nil_r.
Qed.

Lemma exec_authorization (scheme tok : string) :
  scheme = "Basic" \/ scheme = "Bearer" ->
  tok <> "" -> all_chars credential_char tok = true ->
  RegExp.exec_here Patterns.authorization_header
    ("Authorization: " +:+ scheme +:+ " " +:+ tok) = Some "".
Proof.
  intros Hs Hne Htok. unfold RegExp.exec_here.
  cbn [RegExp.body RegExp.ignoreCase Patterns.authorization_header
       RegExp.seq RegExp.run RegExp.star RegExp.plus].
  change ("Authorization: " +:+ scheme +:+ " " +:+ tok)
    with ("Authorization:" +:+ (" " +:+ (scheme +:+ " " +:+ tok))).
  rewrite run_lit_app.
  assert (Hk3 : RegExp.rep (RegExp.test true Patterns.token_chars) 1 None tok
                  Some = Some "").
  { rewrite <- (sapp_nil_r tok) at 1. apply rep_all; try done.
    - by apply all_chars_credential.
    - destruct tok; [done|cbn; lia]. }
  assert (Hk2 : RegExp.rep (RegExp.test true Patterns.space) 1 None
                  (" " +:+ tok)
                  (fun s1 => RegExp.rep (RegExp.test true Patterns.token_chars)
                               1 None s1 Some) = Some "").
  { apply rep_all; try done.
    destruct tok as [|c tok]; [done|]. cbn [stops]. cbn in Htok.
    apply andb_true_iff in Htok as [Hc _].
    destruct (credential_char_test c Hc) as (_ & -> & _). done. }
  apply rep_all; try done.
  - by destruct Hs as [-> | ->].
  - cbn. lia.
  - destruct Hs as [-> | ->].
    + rewrite run_lit_app. by rewrite Hk2.
    + assert (forall rest k,
                RegExp.run true (RegExp.lit "Basic") ("Bearer" +:+ rest) k
                = None) as -> by reflexivity.
      rewrite run_lit_app. by rewrite Hk2.
Qed.

(** X4. An [Authorization] header line with a Basic or Bearer credential made
    of the characters of [[A-Za-z0-9+/=_-]] keeps its name and loses the scheme
    and the credential. *)
Theorem authorization_header_is_redacted (scheme tok : string) :
  scheme = "Basic" \/ scheme = "Bearer" ->
  tok <> "" -> all_chars credential_char tok = true ->
  sanitizeCredentials ("Authorization: " +:+ scheme +:+ " " +:+ tok)
  = "Authorization: [REDACTED]".
Proof.
  intros Hs Hne Htok.
  unfold sanitizeCredentials, CREDENTIAL_PATTERNS. cbn [fold_left].
  assert (RegExp.replace Patterns.authorization_header redact
            ("Authorization: " +:+ scheme +:+ " " +:+ tok)
          = "Authorization: [REDACTED]") as ->.
  { unfold RegExp.replace.
    cbn [RegExp.anchored RegExp.global Patterns.authorization_header].
    fold Patterns.authorization_header.
    change ("Authorization: " +:+ scheme +:+ " " +:+ tok)
      with (String "A" ("uthorization: " +:+ scheme +:+ " " +:+ tok)).
    rewrite replace_go_match_all by (by apply exec_authorization).
    change (String "A" ("uthorization: " +:+ scheme +:+ " " +:+ tok))
      with ("Authorization: " +:+ (scheme +:+ " " +:+ tok)).
    by rewrite redact_keeps_header_name. }
  by vm_compute.
Qed.

Lemma authorization_header_is_redacted_witness :
  sanitizeCredentials
    ("Authorization: " +:+ "Basic" +:+ " " +:+ "dXNlcjpwYXNz")
  = "Authorization: [REDACTED]".
Proof.
  apply (authorization_header_is_redacted "Basic" "dXNlcjpwYXNz");
    [by left|discriminate|reflexivity].
Defined.

(** ** Failures that are typed errors *)

Lemma throws_only_ret {A} P (a : A) : throws_only P (ret a).
Proof. by intros h e h'. Qed.

Lemma throws_only_throw {A} (P : jserror -> Prop) e :
  P e -> throws_only P (@throw A e).
Proof. intros He h e' h'. unfold throw. by intros [= <- _]. Qed.

Lemma throws_only_bind {A B} P (m : M A) (f : A -> M B) :
  throws_only P m -> (forall a, throws_only P (f a)) ->
  throws_only P (bind m f).
Proof.
  intros Hm Hf h e h'. unfold bind.
  destruct (m h) as [[a|e1] h1] eqn:E.
  - apply Hf.
  - intros [= <- _]. by eapply Hm.
Qed.

Lemma throws_only_catch {A} P (m : M A) (handler : jserror -> M A) :
  (forall e, throws_only P (handler e)) -> throws_only P (catch m handler).
Proof.
  intros Hh h e h'. unfold catch.
  destruct (m h) as [[a|e1] h1]; [done|]. apply Hh.
Qed.

Lemma throws_only_assertDiff P c phase msg :
  P (new_DiffError phase msg None) -> throws_only P (assertDiff c phase msg).
Proof.
  intros HP. unfold assertDiff.
  destruct c; [apply throws_only_ret|by apply throws_only_throw].
Qed.

Lemma throws_only_weaken {A} (P Q : jserror -> Prop) (m : M A) :
  (forall e, P e -> Q e) -> throws_only P m -> throws_only Q m.
Proof. intros HPQ Hm h e h' He. eapply HPQ, Hm, He. Qed.

Lemma new_DiffError_of phases phase msg cause :
  In phase phases -> diff_error_of phases (new_DiffError phase msg cause).
Proof. intros Hin. unfold new_DiffError. by eexists _, _, _. Qed.

(** [DiffError.wrap] with a context that is not empty gives a [DiffError]
    of the phase asked for. *)
Lemma wrap_context_of phases phase error ctx :
  ctx <> "" -> In phase phases ->
  diff_error_of phases (DiffError_wrap phase error (Some ctx)).
Proof.
  intros Hctx Hin. unfold DiffError_wrap.
  assert (truthy_string (Some ctx) = Some ctx) as -> by (by destruct ctx).
  destruct error; by apply new_DiffError_of.
Qed.


Lemma diff_error_of_mono (P Q : list ErrorPhase) e :
  (forall ph, In ph P -> In ph Q) -> diff_error_of P e -> diff_error_of Q e.
Proof. intros HPQ (ph & msg & cause & -> & Hin). eexists _, _, _. eauto. Qed.

(** ** fetch.js: requests and configurations *)

Section FetchFacts.
Context `{Platform}.

Lemma fetchUrl_throws (url : string) (headers : option loc) :
  throws_only (diff_error_of [FETCH; AUTH; SIZE]) (fetchUrl url headers).
Proof.
  unfold fetchUrl.
  apply throws_only_bind.
  { intros h e h'. unfold headers_or_new, Headers_new, alloc, ret.
    by destruct headers. }
  intros hl. apply throws_only_bind.
  { apply throws_only_catch. intros e. apply throws_only_throw.
    apply wrap_context_of; [|cbn; tauto].
    unfold String.append. discriminate. }
  intros response.
  destruct (negb (resp_ok response)).
  { destruct (_ || _); apply throws_only_throw, new_DiffError_of; cbn; tauto. }
  apply throws_only_bind.
  { destruct (match truthy_string _ with Some _ => _ | None => _ end)
      as [n|]; [|apply throws_only_ret].
    destruct (exceeds_limit n); [|apply throws_only_ret].
    apply throws_only_throw, new_DiffError_of. cbn. tauto. }
  intros []. destruct (resp_body response); [apply throws_only_ret|].
  apply throws_only_throw, new_DiffError_of. cbn. tauto.
Qed.

(** X5. Every failure of [fetchUrl] is a [DiffError] of phase FETCH, AUTH or
    SIZE that carries the status of its phase, whatever the platform's [fetch]
    does; and a failure of the network call itself comes back as a FETCH error
    (502), with the store [fetch] left. *)
Theorem fetchUrl_failures (url : string) (headers : option loc) :
  throws_only (diff_error_of [FETCH; AUTH; SIZE]) (fetchUrl url headers)
  /\ (forall h hl h0 error h1,
        headers_or_new headers h = (Ok hl, h0) ->
        fetch url hl h0 = (Throw error, h1) ->
        exists msg cause,
          fetchUrl url headers h = (Throw (DiffError FETCH 502 msg cause), h1)).
Proof.
  split; [apply fetchUrl_throws|].
  intros h hl h0 error h1 Hhd Hfetch. unfold fetchUrl.
  rewrite (bind_eval _ _ _ _ _ Hhd).
  assert (Hwrap : diff_error_of [FETCH]
                    (DiffError_wrap FETCH error
                       (Some ("Network error fetching " +:+ url)))).
  { apply wrap_context_of; [|cbn; tauto]. unfold String.append. discriminate. }
  destruct Hwrap as (ph & msg & cause & Hw & [<- | []]).
  exists msg, cause. unfold bind, catch, throw. by rewrite Hfetch, Hw.
Qed.

Lemma fetchUrl_response (url : string) (headers : option loc) h hl h0
    response h1 :
  headers_or_new headers h = (Ok hl, h0) ->
  fetch url hl h0 = (Ok response, h1) ->
  catch (fetch url hl)
    (fun error => throw (DiffError_wrap FETCH error
                           (Some ("Network error fetching " +:+ url)))) h0
  = (Ok response, h1).
Proof. intros _ Hf. unfold catch. by rewrite Hf. Qed.

(** X6. A response that is not ok makes [fetchUrl] fail: with AUTH (401) for
    the statuses 401 and 403, with FETCH (502) for every other status. The
    store is the one [fetch] left: the body is not read. *)
Theorem fetchUrl_http_errors (url : string) (headers : option loc)
    (h h0 h1 : heap) (hl : loc) (response : Response) :
  headers_or_new headers h = (Ok hl, h0) ->
  fetch url hl h0 = (Ok response, h1) ->
  resp_ok response = false ->
  exists msg,
    fetchUrl url headers h
    = (Throw (if (resp_status response =? 401)%Z
                 || (resp_status response =? 403)%Z
              then DiffError AUTH 401 msg None
              else DiffError FETCH 502 msg None), h1).
Proof.
  intros Hhd Hfetch Hok. unfold fetchUrl. rewrite (bind_eval _ _ _ _ _ Hhd).
  rewrite (bind_eval _ _ _ _ _ (fetchUrl_response _ _ _ _ _ _ _ Hhd Hfetch)).
  rewrite Hok. cbn [negb].
  destruct (_ || _); eexists; reflexivity.
Qed.

(** X7. The size gate lets through what does not declare too much: an ok
    response without Content-Length (or with an empty one) is returned with no
    size; one whose Content-Length does not parse is returned with the size
    NaN; a declared size up to the limit is returned as the size, which is the
    double [parseInt] yields, so a number beyond 2^53 comes back rounded;
    and a negative number too large for a double comes back as minus
    infinity. In each case a response without a body fails with FETCH
    instead. A positive number too large for a double is refused with
    SIZE (413), like every size over the limit. *)
Theorem fetchUrl_size_gate_passes (url : string) (headers : option loc)
    (h h0 h1 : heap) (hl : loc) (response : Response) :
  let finish (size : option number) : Res FetchResult * heap :=
    match resp_body response with
    | Some b => (Ok (mkFetchResult b size), h1)
    | None => (Throw (DiffError FETCH 502 "Response has no body" None), h1)
    end in
  headers_or_new headers h = (Ok hl, h0) ->
  fetch url hl h0 = (Ok response, h1) ->
  resp_ok response = true ->
  (truthy_string (Headers_get (resp_headers response) "Content-Length") = None ->
   fetchUrl url headers h = finish None)
  /\ (forall declared,
        Headers_get (resp_headers response) "Content-Length" = Some declared ->
        declared <> "" ->
        (parseInt declared = NaN ->
         fetchUrl url headers h = finish (Some NaN))
        /\ (forall n, parseInt declared = Num n -> (n <= MAX_TARBALL_SIZE)%Z ->
            fetchUrl url headers h = finish (Some (Num n)))
        /\ (parseInt declared = Infinity true ->
            fetchUrl url headers h = finish (Some (Infinity true)))
        /\ (parseInt declared = Infinity false ->
            exists msg,
              fetchUrl url headers h
              = (Throw (DiffError SIZE 413 msg None), h1))).
Proof.
  intros finish Hhd Hfetch Hok. unfold fetchUrl.
  rewrite (bind_eval _ _ _ _ _ Hhd).
  rewrite (bind_eval _ _ _ _ _ (fetchUrl_response _ _ _ _ _ _ _ Hhd Hfetch)).
  rewrite Hok. cbn [negb].
  assert (Hnobody : new_DiffError FETCH "Response has no body" None
                    = DiffError FETCH 502 "Response has no body" None)
    by reflexivity.
  split.
  - intros ->. unfold bind, ret, throw, finish. rewrite Hnobody.
    by destruct (resp_body response).
  - intros declared -> Hne.
    assert (truthy_string (Some declared) = Some declared) as ->
      by (by destruct declared).
    split; [|split; [|split]].
    + intros ->. unfold bind, ret, throw, finish. cbn [exceeds_limit].
      rewrite Hnobody. by destruct (resp_body response).
    + intros n -> Hn. unfold exceeds_limit.
      assert ((MAX_TARBALL_SIZE <? n)%Z = false) as -> by (apply Z.ltb_ge; lia).
      unfold bind, ret, throw, finish. rewrite Hnobody.
      by destruct (resp_body response).
    + intros ->. unfold bind, ret, throw, finish. cbn [exceeds_limit negb].
      rewrite Hnobody. by destruct (resp_body response).
    + intros ->. cbn [exceeds_limit negb]. unfold bind, throw, new_DiffError.
      eexists. reflexivity.
Qed.



Lemma applyAuth_none (l : loc) (credential : option string) (h : heap)
    (auth : option string) :
  truthy_string auth = None \/ auth = Some "none" ->
  applyAuth l
    (match truthy_string auth with
     | Some a => Some a
     | None => Some "none"
     end) credential h = (Ok tt, h).
Proof. by intros [-> | ->]. Qed.

(** X8. [fetchTarball] validates the authentication before it looks at the
    transport: a tag other than [none] with an empty or missing credential, or
    with a credential and a tag that is neither [basic] nor [bearer], fails
    with AUTH (401) for every transport and every source, and nothing is
    requested: the store only gains the fresh [Headers] object. *)
Theorem fetchTarball_auth_before_transport (cfg : SourceConfig)
    (tr a : string) (h : heap) :
  transport cfg = Some tr ->
  auth cfg = Some a -> a <> "" -> a <> "none" ->
  nonempty_string (credential cfg) = false
  \/ (a <> "basic" /\ a <> "bearer") ->
  exists msg,
    fetchTarball (Some cfg) h
    = (Throw (DiffError AUTH 401 msg None), h ++ [HeadersObj []]).
Proof.
  intros Htr Ha Hne Hnone Hbad. unfold fetchTarball. rewrite Htr, Ha.
  assert (truthy_string (Some a) = Some a) as -> by (by destruct a).
  unfold Headers_new, alloc. unfold bind at 1.
  unfold applyAuth.
  assert (truthy_string (Some a) = Some a) as -> by (by destruct a).
  assert (String.eqb a "none" = false) as -> by (by apply String.eqb_neq).
  unfold assertDiff, nonempty_string in *.
  destruct (match credential cfg with
            | Some c => (0 <? String.length c)%nat
            | None => false
            end) eqn:Ec.
  - destruct Hbad as [Hbad|[Hb1 Hb2]]; [done|].
    unfold bind at 2. unfold bind at 1. cbn [ret].
    assert (String.eqb a "basic" = false) as -> by (by apply String.eqb_neq).
    assert (String.eqb a "bearer" = false) as -> by (by apply String.eqb_neq).
    eexists. reflexivity.
  - unfold bind at 2. unfold bind at 1. eexists. reflexivity.
Qed.

(** X9. The configuration errors of [fetchTarball]. A missing configuration
    and a missing transport fail with FETCH (502) before anything is
    allocated. Once the authentication has been applied without a failure,
    as it always is when no authentication or [none] is asked for, what the
    transport lacks fails with FETCH (502) and nothing is requested: a
    transport that is none of [url], [s3], [inline] and [file]; a [url],
    [s3] or [file] transport without a source; an [s3] transport without its
    configuration; an [inline] transport without data. *)
Theorem fetchTarball_config_errors (cfg : SourceConfig) (h : heap) :
  fetchTarball None h
  = (Throw (DiffError FETCH 502 "Source configuration is required" None), h)
  /\ (transport cfg = None ->
      fetchTarball (Some cfg) h
      = (Throw (DiffError FETCH 502 "Transport type is required" None), h))
  /\ (forall tr h1,
        transport cfg = Some tr ->
        applyAuth (length h)
          (match truthy_string (auth cfg) with
           | Some a => Some a
           | None => Some "none"
           end) (credential cfg) (h ++ [HeadersObj []]) = (Ok tt, h1) ->
        let fails (msg : string) :=
          fetchTarball (Some cfg) h
          = (Throw (DiffError FETCH 502 msg None), h1) in
        (tr <> "url" -> tr <> "s3" -> tr <> "inline" -> tr <> "file" ->
         exists msg, fails msg)
        /\ (tr = "url" -> nonempty_string (source cfg) = false ->
            fails "URL source is required for url transport")
        /\ (tr = "s3" -> nonempty_string (source cfg) = false ->
            fails "S3 source URI is required for s3 transport")
        /\ (tr = "s3" -> nonempty_string (source cfg) = true ->
            s3 cfg = None ->
            fails "S3 configuration is required for s3 transport")
        /\ (tr = "inline" -> data cfg = None ->
            fails "Inline data is required for inline transport")
        /\ (tr = "file" -> nonempty_string (source cfg) = false ->
            fails "File path is required for file transport"))
  /\ (truthy_string (auth cfg) = None \/ auth cfg = Some "none" ->
      applyAuth (length h)
        (match truthy_string (auth cfg) with
         | Some a => Some a
         | None => Some "none"
         end) (credential cfg) (h ++ [HeadersObj []])
      = (Ok tt, h ++ [HeadersObj []])).
Proof.
  split; [reflexivity|]. split.
  { intros Htr. unfold fetchTarball. rewrite Htr. reflexivity. }
  split; [|apply applyAuth_none].
  intros tr h1 Htr Hauth fails. unfold fails, fetchTarball. rewrite Htr.
  assert (Hnew : Headers_new h = (Ok (length h), h ++ [HeadersObj []]))
    by reflexivity.
  rewrite (bind_eval _ _ _ _ _ Hnew), (bind_eval _ _ _ _ _ Hauth).
  repeat split.
  - intros H1 H2 H3 H4. eexists.
    apply String.eqb_neq in H1, H2, H3, H4. rewrite H1, H2, H3, H4.
    reflexivity.
  - intros -> Hsrc. cbn [String.eqb Ascii.eqb Bool.eqb]. rewrite Hsrc.
    reflexivity.
  - intros -> Hsrc. cbn [String.eqb Ascii.eqb Bool.eqb]. rewrite Hsrc.
    reflexivity.
  - intros -> Hsrc Hs3. cbn [String.eqb Ascii.eqb Bool.eqb].
    rewrite Hsrc, Hs3. reflexivity.
  - intros -> Hdata. cbn [String.eqb Ascii.eqb Bool.eqb]. rewrite Hdata.
    reflexivity.
  - intros -> Hsrc. cbn [String.eqb Ascii.eqb Bool.eqb]. rewrite Hsrc.
    reflexivity.
Qed.


End FetchFacts.

(** A refused status: 403 is reported as an AUTH error. *)
Lemma fetchUrl_http_errors_witness :
  let P := Reference.platform (mkResponse 403 "Forbidden" [] None) [] in
  exists msg,
    fetchUrl "https://registry.example/pkg.tgz" None []
    = (Throw (DiffError AUTH 401 msg None), [HeadersObj []]).
Proof.
  intros P.
  exact (fetchUrl_http_errors (H := P) "https://registry.example/pkg.tgz"
           None [] [HeadersObj []] [HeadersObj []] 0
           (mkResponse 403 "Forbidden" [] None) eq_refl eq_refl eq_refl).
Defined.

(** A declared length of twenty-three digits comes back as the double
    nearest to it. *)
Lemma fetchUrl_size_gate_passes_witness :
  let P := Reference.platform
             (mkResponse 200 "OK"
                [("content-length", "-99999999999999999999999")] (Some 0))
             [] in
  fetchUrl "https://registry.example/pkg.tgz" None []
  = (Ok (mkFetchResult 1 (Some (Num (-99999999999999991611392)))),
     [HeadersObj []; StreamObj (mkStream [] None)]).
Proof.
  intros P.
  destruct (fetchUrl_size_gate_passes (H := P)
              "https://registry.example/pkg.tgz" None []
              [HeadersObj []] [HeadersObj []; StreamObj (mkStream [] None)] 0
              (mkResponse 200 "OK"
                 [("content-length", "-99999999999999999999999")] (Some 1))
              eq_refl eq_refl eq_refl) as [_ Hdeclared].
  destruct (Hdeclared "-99999999999999999999999" eq_refl ltac:(discriminate))
    as (_ & Hnum & _).
  apply (Hnum (-99999999999999991611392)%Z); [by vm_compute|].
  by vm_compute.
Defined.

(** A bearer configuration without a credential, on a transport that does
    not exist. *)
Lemma fetchTarball_auth_before_transport_witness :
  let P := Reference.platform (mkResponse 200 "OK" [] None) [] in
  exists msg,
    fetchTarball
      (Some (mkSourceConfig (Some "ftp") None (Some "bearer") None None None))
      []
    = (Throw (DiffError AUTH 401 msg None), [] ++ [HeadersObj []]).
Proof.
  intros P.
  apply (fetchTarball_auth_before_transport (H := P)
           (mkSourceConfig (Some "ftp") None (Some "bearer") None None None)
           "ftp" "bearer" [] eq_refl eq_refl);
    [discriminate | discriminate | left; reflexivity].
Defined.


(** ** fetch.js: the S3 and inline transports *)

Lemma endsWith_slash (e : string) :
  Transports.endsWith "/" (e +:+ "/") = true
  /\ Transports.dropLast (e +:+ "/") = e.
Proof.
  unfold Transports.endsWith, Transports.dropLast.
  rewrite slength_app. cbn [String.length].
  replace (String.length e + 1 - 1) with (String.length e) by lia.
  rewrite take_app_length. split; [|done].
  apply andb_true_iff. split; [apply Nat.leb_le; lia|].
  apply String.eqb_eq. clear. induction e as [|c e IH]; [done|].
  rewrite sapp_cons. by cbn.
Qed.

(** X25. The URL an S3 URI stands for. With a bucket that is not empty and has
    no slash and a key that is not empty, [s3://bucket/key] becomes the
    virtual-hosted URL of the region ([us-east-1] when none is given), or, with
    a custom endpoint, the path-style URL under it; one slash at the end of the
    endpoint is dropped. A source that is already an http or https URL is
    returned as it is. *)
Theorem convertS3Url_urls (bucket key : string) (region : option string)
    (h : heap) :
  bucket <> "" -> indexOf "/" bucket = None -> key <> "" ->
  Transports.convertS3Url ("s3://" +:+ bucket +:+ "/" +:+ key) None region h
  = (Ok ("https://" +:+ bucket +:+ ".s3." +:+ default "us-east-1" region +:+
         ".amazonaws.com/" +:+ key), h)
  /\ (forall e, e <> "" -> Transports.endsWith "/" e = false ->
      Transports.convertS3Url ("s3://" +:+ bucket +:+ "/" +:+ key)
        (Some e) region h
      = (Ok (e +:+ "/" +:+ bucket +:+ "/" +:+ key), h)
      /\ Transports.convertS3Url ("s3://" +:+ bucket +:+ "/" +:+ key)
           (Some (e +:+ "/")) region h
         = (Ok (e +:+ "/" +:+ bucket +:+ "/" +:+ key), h))
  /\ (forall source endpoint,
        startsWith "https://" source = true
        \/ startsWith "http://" source = true ->
        Transports.convertS3Url source endpoint region h = (Ok source, h)).
Proof.
  intros Hb Hslash Hk.
  assert (Hparts : forall endpoint,
    Transports.convertS3Url ("s3://" +:+ bucket +:+ "/" +:+ key)
      endpoint region h
    = match truthy_string endpoint with
      | Some endpoint =>
          ret ((if Transports.endsWith "/" endpoint
                then Transports.dropLast endpoint else endpoint)
               +:+ "/" +:+ bucket +:+ "/" +:+ key) h
      | None =>
          ret ("https://" +:+ bucket +:+ ".s3." +:+
               default "us-east-1" region +:+ ".amazonaws.com/" +:+ key) h
      end).
  { intros endpoint. unfold Transports.convertS3Url.
    change ("s3://" +:+ bucket +:+ "/" +:+ key)
      with (String "s" (String "3" (String ":" (String "/" (String "/"
              (bucket +:+ String "/" key)))))).
    cbn [startsWith Ascii.eqb Bool.eqb orb drop].
    rewrite indexOf_app_none by done. cbn [indexOf].
    rewrite Ascii.eqb_refl. cbn [fmap option_fmap option_map].
    rewrite Nat.add_0_r, take_app_length, drop_app_cons.
    assert (String.eqb bucket "" = false) as -> by (by apply String.eqb_neq).
    assert (String.eqb key "" = false) as -> by (by apply String.eqb_neq).
    by destruct (truthy_string endpoint). }
  split; [by rewrite Hparts|]. split.
  - intros e He Hend. split.
    + rewrite Hparts.
      assert (truthy_string (Some e) = Some e) as -> by (by destruct e).
      by rewrite Hend.
    + rewrite Hparts.
      assert (truthy_string (Some (e +:+ "/")) = Some (e +:+ "/")) as ->.
      { destruct e; [done|]. by rewrite sapp_cons. }
      destruct (endsWith_slash e) as [-> ->]. done.
  - intros source endpoint Hs. unfold Transports.convertS3Url.
    by destruct Hs as [-> | ->]; rewrite ?orb_true_r.
Qed.

(** The virtual-hosted URL of a bucket in a region. *)
Lemma convertS3Url_urls_witness :
  Transports.convertS3Url "s3://my-bucket/path/to/file.tgz" None
    (Some "us-west-2") []
  = (Ok "https://my-bucket.s3.us-west-2.amazonaws.com/path/to/file.tgz", []).
Proof.
  exact (proj1 (convertS3Url_urls "my-bucket" "path/to/file.tgz"
                  (Some "us-west-2") []
                  ltac:(discriminate) eq_refl ltac:(discriminate))).
Defined.

Lemma convertS3Url_throws source endpoint region :
  throws_only (diff_error_of [FETCH])
    (Transports.convertS3Url source endpoint region).
Proof.
  unfold Transports.convertS3Url.
  destruct (_ || _); [apply throws_only_ret|].
  destruct (startsWith "s3://" source);
    [|apply throws_only_throw, new_DiffError_of; cbn; tauto].
  destruct (indexOf "/" _);
    [|apply throws_only_throw, new_DiffError_of; cbn; tauto].
  destruct (String.eqb _ "");
    [apply throws_only_throw, new_DiffError_of; cbn; tauto|].
  destruct (String.eqb _ "");
    [apply throws_only_throw, new_DiffError_of; cbn; tauto|].
  destruct (truthy_string endpoint); apply throws_only_ret.
Qed.

(** X26. What is no S3 URI is refused: [convertS3Url] fails only with FETCH
    errors (502), and it does so for a source of another scheme, for [s3://]
    without a slash after the bucket, for an empty bucket and for an empty key.
    *)
Theorem convertS3Url_errors (endpoint region : option string) (h : heap) :
  (forall source,
     throws_only (diff_error_of [FETCH])
       (Transports.convertS3Url source endpoint region))
  /\ (forall source,
        startsWith "https://" source = false ->
        startsWith "http://" source = false ->
        startsWith "s3://" source = false ->
        exists msg,
          Transports.convertS3Url source endpoint region h
          = (Throw (DiffError FETCH 502 msg None), h))
  /\ (forall rest,
        indexOf "/" rest = None
        \/ (exists key, rest = "/" +:+ key)
        \/ (exists bucket, indexOf "/" bucket = None
                           /\ rest = bucket +:+ "/") ->
        exists msg,
          Transports.convertS3Url ("s3://" +:+ rest) endpoint region h
          = (Throw (DiffError FETCH 502 msg None), h)).
Proof.
  split; [|split].
  - intros source. apply convertS3Url_throws.
  - intros source H1 H2 H3. unfold Transports.convertS3Url.
    rewrite H1, H2, H3. eexists. reflexivity.
  - intros rest Hrest. unfold Transports.convertS3Url.
    change ("s3://" +:+ rest)
      with (String "s" (String "3" (String ":" (String "/" (String "/"
              rest))))).
    cbn [startsWith Ascii.eqb Bool.eqb orb drop].
    destruct Hrest as [Hno|[[key ->]|(bucket & Hno & ->)]].
    + rewrite Hno. eexists. reflexivity.
    + change ("/" +:+ key) with (String "/" key). cbn [indexOf].
      rewrite Ascii.eqb_refl. cbn [take String.eqb]. eexists. reflexivity.
    + rewrite indexOf_app_none by done.
      change (indexOf "/" "/") with (Some 0).
      cbn [fmap option_fmap option_map].
      rewrite Nat.add_0_r, take_app_length.
      change (bucket +:+ "/") with (bucket +:+ String "/" "").
      rewrite drop_app_cons. cbn [String.eqb].
      destruct (String.eqb bucket ""); eexists; reflexivity.
Qed.

Lemma streamToBytes_concat (b : loc) (h : heap) (pend : list (list byte)) :
  h !! b = Some (StreamObj (mkStream pend None)) ->
  streamToBytes b h
  = (Ok (concat pend), <[b := StreamObj (mkStream [] None)]> h).
Proof.
  intros Hb. rewrite (streamToBytes_eval b h pend Hb).
  destruct pend as [|c [|c' pend]]; [done| |done].
  cbn. by rewrite app_nil_r.
Qed.

Section TransportFacts.
Context `{Platform}.
Variable atob : string -> jserror + string.
Variable aws_fetch : Transports.AwsClientConfig -> string -> M Response.

(** X27. Inline bytes within the limit come back unchanged: [fetchInline]
    returns a fresh stream and the number of bytes as the size, and reading
    that stream with [streamToBytes] gives the bytes. A base64 text goes
    through [atob] first, one byte per code unit. *)
Theorem fetchInline_round_trip (bytes : list byte) (h : heap) :
  (Z.of_nat (length bytes) <= MAX_TARBALL_SIZE)%Z ->
  let h1 := h ++ [StreamObj (mkStream [bytes] None)] in
  Transports.fetchInline atob (Some (InlineBytes bytes)) h
  = (Ok (mkFetchResult (length h) (Some (Num (Z.of_nat (length bytes))))), h1)
  /\ streamToBytes (length h) h1
     = (Ok bytes, h ++ [StreamObj (mkStream [] None)])
  /\ (forall text binary,
        atob text = inr binary ->
        bytes = map byte_of_ascii (list_ascii_of_string binary) ->
        Transports.fetchInline atob (Some (InlineBase64 text)) h
        = (Ok (mkFetchResult (length h)
                 (Some (Num (Z.of_nat (length bytes))))), h1)).
Proof.
  intros Hlen h1.
  assert (Hgate : (MAX_TARBALL_SIZE <? Z.of_nat (length bytes))%Z = false)
    by (apply Z.ltb_ge; lia).
  split; [|split].
  - unfold Transports.fetchInline, assertDiff, bind, ret, alloc. cbn.
    by rewrite Hgate.
  - rewrite (streamToBytes_concat _ _ [bytes]).
    + cbn [concat]. rewrite app_nil_r. f_equal.
      unfold h1. apply list_eq. intros i.
      destruct (decide (i = length h)) as [->|Hne].
      * rewrite list_lookup_insert_eq by (rewrite length_app; cbn; lia).
        by rewrite lookup_app_r, Nat.sub_diag by lia.
      * rewrite list_lookup_insert_ne by done.
        destruct (decide (i < length h)).
        -- by rewrite !lookup_app_l by done.
        -- rewrite !lookup_app_r by lia.
           destruct (i - length h) as [|k] eqn:E; [lia|done].
    + unfold h1. by rewrite lookup_app_r, Nat.sub_diag by lia.
  - intros text binary Hatob ->.
    unfold Transports.fetchInline, Transports.base64ToUint8Array,
      assertDiff, bind, ret, alloc. cbn. rewrite Hatob.
    by rewrite Hgate.
Qed.

(** X28. What [fetchInline] refuses: missing data and data that is neither
    bytes nor text fail with FETCH (502), a text [atob] rejects fails with
    FETCH, and bytes over the limit fail with SIZE (413); in each case no
    stream is created, the store is untouched. *)
Theorem fetchInline_errors (h : heap) :
  (exists msg,
     Transports.fetchInline atob None h
     = (Throw (DiffError FETCH 502 msg None), h))
  /\ (exists msg,
        Transports.fetchInline atob (Some InlineOther) h
        = (Throw (DiffError FETCH 502 msg None), h))
  /\ (forall text error,
        atob text = inl error ->
        exists msg cause,
          Transports.fetchInline atob (Some (InlineBase64 text)) h
          = (Throw (DiffError FETCH 502 msg cause), h))
  /\ (forall bytes,
        (MAX_TARBALL_SIZE < Z.of_nat (length bytes))%Z ->
        exists msg,
          Transports.fetchInline atob (Some (InlineBytes bytes)) h
          = (Throw (DiffError SIZE 413 msg None), h)).
Proof.
  split; [|split; [|split]].
  - eexists. reflexivity.
  - eexists. reflexivity.
  - intros text error Hatob.
    unfold Transports.fetchInline, Transports.base64ToUint8Array,
      assertDiff, bind, ret, throw. cbn. rewrite Hatob.
    unfold DiffError_wrap. cbn [truthy_string].
    destruct error; unfold new_DiffError; eauto.
  - intros bytes Hlen. apply Z.ltb_lt in Hlen.
    unfold Transports.fetchInline, assertDiff, bind, ret, throw. cbn.
    rewrite Hlen. unfold new_DiffError. eauto.
Qed.

(** X29. [fetchS3] checks before it requests: a missing configuration fails
    with FETCH (502), an access key id or a secret access key that is missing
    or empty with AUTH (401), and a source that is no S3 URI with FETCH; in
    each case nothing is sent, the store is untouched. Every failure is a
    FETCH, AUTH or SIZE error. *)
Theorem fetchS3_checks_before_request (source : string) (h : heap) :
  (exists msg,
     Transports.fetchS3 aws_fetch source None h
     = (Throw (DiffError FETCH 502 msg None), h))
  /\ (forall cfg,
        nonempty_string (accessKeyId cfg) = false
        \/ nonempty_string (secretAccessKey cfg) = false ->
        exists msg,
          Transports.fetchS3 aws_fetch source (Some cfg) h
          = (Throw (DiffError AUTH 401 msg None), h))
  /\ (forall cfg e h',
        nonempty_string (accessKeyId cfg) = true ->
        nonempty_string (secretAccessKey cfg) = true ->
        Transports.convertS3Url source (endpoint cfg)
          (Some (default "us-east-1" (region cfg))) h = (Throw e, h') ->
        Transports.fetchS3 aws_fetch source (Some cfg) h = (Throw e, h))
  /\ (forall cfg,
        throws_only (diff_error_of [FETCH; AUTH; SIZE])
          (Transports.fetchS3 aws_fetch source cfg)).
Proof.
  split; [|split; [|split]].
  - eexists. reflexivity.
  - intros cfg Hbad. unfold Transports.fetchS3, assertDiff. cbn [bool_decide].
    rewrite bool_decide_eq_true_2 by eauto.
    unfold bind at 1. cbn [ret].
    destruct (nonempty_string (accessKeyId cfg)).
    + destruct Hbad as [Hbad|Hbad]; [done|]. rewrite Hbad.
      eexists. reflexivity.
    + eexists. reflexivity.
  - intros cfg e h' Hid Hsecret Hurl.
    unfold Transports.fetchS3, assertDiff.
    rewrite bool_decide_eq_true_2 by eauto. rewrite Hid, Hsecret.
    unfold bind at 1. unfold bind at 1. unfold bind at 1. cbn [ret].
    unfold bind at 1. rewrite Hurl.
    assert (h' = h) as ->; [|done].
    revert Hurl. unfold Transports.convertS3Url.
    repeat match goal with
           | |- context [if ?b then _ else _] => destruct b
           | |- context [match ?x with Some _ => _ | None => _ end] =>
               destruct x
           end; by intros [= _ <-].
  - intros cfg. unfold Transports.fetchS3. destruct cfg as [cfg|].
    2: { intros h0 e h'. cbn. intros [= <- _].
         apply new_DiffError_of. cbn. tauto. }
    apply throws_only_bind.
    { apply throws_only_assertDiff, new_DiffError_of. cbn. tauto. }
    intros _. apply throws_only_bind.
    { apply throws_only_assertDiff, new_DiffError_of. cbn. tauto. }
    intros _. apply throws_only_bind.
    { apply throws_only_assertDiff, new_DiffError_of. cbn. tauto. }
    intros _. apply throws_only_bind.
    { eapply throws_only_weaken; [|apply convertS3Url_throws].
      intros e. apply diff_error_of_mono. cbn. tauto. }
    intros url. apply throws_only_bind.
    { apply throws_only_catch. intros e. apply throws_only_throw.
      apply wrap_context_of; [|cbn; tauto].
      unfold String.append. discriminate. }
    intros response.
    destruct (negb (resp_ok response)).
    { destruct (_ || _);
        [apply throws_only_throw, new_DiffError_of; cbn; tauto|].
      destruct (_ =? _)%Z;
        apply throws_only_throw, new_DiffError_of; cbn; tauto. }
    apply throws_only_bind.
    { destruct (match truthy_string _ with Some _ => _ | None => _ end)
        as [n|]; [|apply throws_only_ret].
      destruct (exceeds_limit n); [|apply throws_only_ret].
      apply throws_only_throw, new_DiffError_of. cbn. tauto. }
    intros []. destruct (resp_body response); [apply throws_only_ret|].
    apply throws_only_throw, new_DiffError_of. cbn. tauto.
Qed.

End TransportFacts.

(** Three inline bytes come back from the stream. *)
Lemma fetchInline_round_trip_witness :
  let P := Reference.platform (mkResponse 200 "OK" [] None) [] in
  let atob (_ : string) : jserror + string := inr "" in
  Transports.fetchInline atob (Some (InlineBytes [x01; x02; x03])) []
  = (Ok (mkFetchResult 0 (Some (Num 3))),
     [StreamObj (mkStream [[x01; x02; x03]] None)])
  /\ streamToBytes 0 [StreamObj (mkStream [[x01; x02; x03]] None)]
     = (Ok [x01; x02; x03], [StreamObj (mkStream [] None)]).
Proof.
  intros P atob.
  destruct (fetchInline_round_trip (H := P) atob [x01; x02; x03] []
              ltac:(vm_compute; discriminate)) as (Hfetch & Hread & _).
  exact (conj Hfetch Hread).
Defined.

(** ** decompress.js and tar.js *)

Lemma for_each_throws {A} (f : A -> M unit) (xs : list A) (x : A) :
  In x xs -> (forall h, exists e h', f x h = (Throw e, h')) ->
  forall h, exists e h', for_each xs f h = (Throw e, h').
Proof.
  intros Hin Hf. induction xs as [|y xs IH]; [done|]. intros h.
  cbn [for_each]. unfold bind. destruct (f y h) as [[[]|e] h1] eqn:E.
  - destruct Hin as [->|Hin].
    + destruct (Hf h) as (e & h' & He). congruence.
    + apply IH, Hin.
  - eauto.
Qed.

Section TarMore.
Context `{Platform}.

Lemma decompress_throws (stream : option loc) :
  throws_only (diff_error_of [DECOMPRESS]) (decompress stream).
Proof.
  unfold decompress. apply throws_only_bind.
  { intros h e h'. unfold is_readable_stream.
    destruct stream as [l|]; [destruct (h !! l) as [[]|]|]; done. }
  intros valid. destruct stream as [l|], valid;
    try (apply throws_only_throw, new_DiffError_of; cbn; tauto).
  apply throws_only_catch. intros e. apply throws_only_throw.
  apply wrap_context_of; [done|cbn; tauto].
Qed.

Lemma extractTarball_throws (stream : option loc) :
  throws_only (fun e => is_DiffError e = true) (extractTarball stream).
Proof.
  unfold extractTarball. apply throws_only_bind.
  { intros h e h'. unfold is_readable_stream.
    destruct stream as [l|]; [destruct (h !! l) as [[]|]|]; done. }
  intros valid. destruct stream as [l|], valid;
    try (apply throws_only_throw; done).
  apply throws_only_bind; [by intros h e h'|]. intros files.
  apply throws_only_bind; [|intros; apply throws_only_ret].
  apply throws_only_catch. intros e.
  destruct e; cbn [is_DiffError]; apply throws_only_throw; done.
Qed.

(** X11. [decompress] fails only with DECOMPRESS errors (422), whatever the
    platform's gzip stage throws; what is no stream is refused without a change
    of the store; otherwise the result is the stream of the gzip stage. *)
Theorem decompress_spec (stream : option loc) :
  throws_only (diff_error_of [DECOMPRESS]) (decompress stream)
  /\ (forall h,
        (forall l st, stream = Some l -> h !! l <> Some (StreamObj st)) ->
        decompress stream h
        = (Throw (DiffError DECOMPRESS 422
                    "Invalid input: expected a ReadableStream" None), h))
  /\ (forall l h st r h',
        stream = Some l -> h !! l = Some (StreamObj st) ->
        gunzip l h = (Ok r, h') ->
        decompress stream h = (Ok r, h')).
Proof.
  split; [|split].
  - apply decompress_throws.
  - intros h Hno. unfold decompress, is_readable_stream, bind.
    destruct stream as [l|]; [|reflexivity].
    destruct (h !! l) as [[| | |st]|] eqn:E; try reflexivity.
    by destruct (Hno l st).
  - intros l h st r h' -> Hl Hg.
    unfold decompress, is_readable_stream, bind, catch. by rewrite Hl, Hg.
Qed.

(** X12. [streamToBytes] reads every chunk: it returns the chunks of the stream
    joined in order and leaves the stream drained; when the stream ends with an
    error, that error is thrown once the chunks are read. *)
Theorem streamToBytes_reads_all (b : loc) (h : heap) (pend : list (list byte))
    (fail : option jserror) :
  h !! b = Some (StreamObj (mkStream pend fail)) ->
  streamToBytes b h
  = match fail with
    | None => (Ok (concat pend), <[b := StreamObj (mkStream [] None)]> h)
    | Some e => (Throw e, <[b := StreamObj (mkStream [] (Some e))]> h)
    end.
Proof.
  intros Hb. unfold streamToBytes, stream_pending. rewrite Hb. cbn [pending].
  unfold bind. rewrite (read_chunks_all pend _ b h fail []) by (done || lia).
  destruct fail as [e|]; [done|]. cbn [app].
  destruct pend as [|c [|c' pend]]; [done| |done].
  unfold ret. cbn. by rewrite app_nil_r.
Qed.

Lemma extract_entry_link_throws files e :
  is_link e = true ->
  forall h, exists err h', extract_entry files e h = (Throw err, h').
Proof.
  unfold is_link, extract_entry. intros -> h. unfold bind.
  destruct (stream_cancel (body e) h) as [[[]|err] h1]; unfold throw; eauto.
Qed.

(** X13. Whatever the tar decoder and the entry bodies do, [extractTarball]
    fails only with instances of [DiffError]: a failure inside its [try]
    block that is a [DiffError] goes through as it is, and any other failure
    there, of the decoder or of an entry body, comes out as a TAR error
    (422). And an archive with a symbolic or hard link among its entries is
    never extracted: the call fails. *)
Theorem extractTarball_failures (stream : option loc) :
  throws_only (fun e => is_DiffError e = true) (extractTarball stream)
  /\ (forall l h st error h1,
        stream = Some l -> h !! l = Some (StreamObj st) ->
        extract_try l (length h) (h ++ [MapObj []]) = (Throw error, h1) ->
        (is_DiffError error = true ->
         extractTarball stream h = (Throw error, h1))
        /\ (is_DiffError error = false ->
            exists msg cause,
              extractTarball stream h
              = (Throw (DiffError TAR 422 msg cause), h1)))
  /\ (forall l h st error h1,
        stream = Some l -> h !! l = Some (StreamObj st) ->
        tar_entries l (h ++ [MapObj []]) = (Throw error, h1) ->
        extract_try l (length h) (h ++ [MapObj []]) = (Throw error, h1))
  /\ (forall l h st entryStream h1 e,
        stream = Some l -> h !! l = Some (StreamObj st) ->
        tar_entries l (h ++ [MapObj []]) = (Ok entryStream, h1) ->
        In e (entries entryStream) -> is_link e = true ->
        exists err h', extractTarball stream h = (Throw err, h')).
Proof.
  split; [apply extractTarball_throws|]. split; [|split].
  - intros l h st error h1 -> Hl Htry.
    assert (Hrun : extractTarball (Some l) h
                   = (Throw (if is_DiffError error then error
                             else DiffError_wrap TAR error
                                    (Some "Failed to parse tarball")), h1)).
    { unfold extractTarball, is_readable_stream. unfold bind at 1. rewrite Hl.
      unfold Map_new, alloc. unfold bind at 1. unfold bind at 1.
      unfold catch. fold (extract_try l (length h)). rewrite Htry.
      by destruct (is_DiffError error). }
    split; intros Hd; rewrite Hd in Hrun; [exact Hrun|].
    assert (Hwrap : diff_error_of [TAR]
                      (DiffError_wrap TAR error
                         (Some "Failed to parse tarball")))
      by (apply wrap_context_of; [done|cbn; tauto]).
    destruct Hwrap as (ph & msg & cause & Hw & [<- | []]).
    exists msg, cause. by rewrite Hrun, Hw.
  - intros l h st error h1 -> Hl Hdec. unfold extract_try.
    by rewrite (bind_throw _ _ _ _ _ Hdec).
  - intros l h st entryStream h1 e -> Hl Hdec Hin Hlink.
    unfold extractTarball, is_readable_stream. unfold bind at 1. rewrite Hl.
    unfold Map_new, alloc. unfold bind at 1. unfold bind at 1.
    unfold catch. unfold bind at 1. rewrite Hdec. unfold bind at 1.
    destruct (for_each_throws (extract_entry (length h)) _ e Hin
                (extract_entry_link_throws _ e Hlink) h1) as (err & h2 & ->).
    destruct (is_DiffError err); unfold throw; eauto.
Qed.

Lemma fold_extract_step_ext strip keep (h h' : heap) es m :
  (forall e, In e es -> h' !! body e = h !! body e) ->
  fold_left (extract_step_with strip keep h') es m
  = fold_left (extract_step_with strip keep h) es m.
Proof.
  revert m. induction es as [|e es IH]; intros m Heq; [done|].
  cbn [fold_left].
  assert (extract_step_with strip keep h' m e
          = extract_step_with strip keep h m e) as ->.
  { unfold extract_step_with, entry_content.
    rewrite Heq by (by left). done. }
  apply IH. intros e' He'. apply Heq. by right.
Qed.

Lemma extract_entry_with_step strip keep filter (f : loc) (e : TarEntry)
    (h : heap) m chunks :
  (filter = Some (pure_filter keep)
   \/ (filter = None /\ keep = fun _ _ => true)) ->
  h !! f = Some (MapObj m) ->
  h !! body e = Some (StreamObj (mkStream chunks None)) ->
  is_link e = false ->
  exists h',
    extract_entry_with strip filter f e h = (Ok tt, h')
    /\ h' !! f = Some (MapObj (extract_step_with strip keep h m e))
    /\ forall b, b <> body e -> b <> f -> h' !! b = h !! b.
Proof.
  intros Hfilter Hf Hb Hlink.
  assert (Hne : body e <> f) by (intros Heq; rewrite Heq in Hb; congruence).
  assert (Hcancel : stream_cancel (body e) h
                    = (Ok tt, <[body e := StreamObj (mkStream [] None)]> h)).
  { unfold stream_cancel. by rewrite Hb. }
  assert (Hskip : exists h',
             stream_cancel (body e) h = (Ok tt, h')
             /\ h' !! f = Some (MapObj m)
             /\ forall b, b <> body e -> b <> f -> h' !! b = h !! b).
  { eexists. split; [exact Hcancel|]. split.
    - by rewrite list_lookup_insert_ne.
    - intros b Hb1 _. by rewrite list_lookup_insert_ne. }
  unfold extract_entry_with, extract_step_with.
  unfold is_link in Hlink. rewrite Hlink.
  destruct (has FILE_TYPES (type (header e))); cbn [negb]; [|done].
  set (path := if strip then _ else _).
  destruct (String.eqb path "") eqn:Epath; [done|].
  assert (match filter with
          | Some g => g path (header e)
          | None => ret true
          end h = (Ok (keep path (header e)), h)) as Hkeep.
  { destruct Hfilter as [->|[-> ->]]; reflexivity. }
  rewrite (bind_eval _ _ _ _ _ Hkeep).
  destruct (keep path (header e)); cbn [negb]; [|done].
  rewrite (bind_eval _ _ _ _ _ (streamToBytes_concat _ _ _ Hb)).
  assert (Hset : forall p c,
            Map_set f p c (<[body e := StreamObj (mkStream [] None)]> h)
            = (Ok tt, <[f := MapObj (assoc_set p c m)]>
                        (<[body e := StreamObj (mkStream [] None)]> h))).
  { intros p c. unfold Map_set. unfold loc in *.
    rewrite (list_lookup_insert_ne h (body e) f _ Hne). by rewrite Hf. }
  rewrite Hset.
  eexists. split; [reflexivity|]. split.
  - rewrite list_lookup_insert_eq.
    + unfold entry_content. by rewrite Hb.
    + rewrite length_insert. by eapply lookup_lt_Some.
  - intros b Hb1 Hb2. by rewrite !list_lookup_insert_ne.
Qed.

Lemma for_each_extract_with strip keep filter (f : loc) (es : list TarEntry) :
  (filter = Some (pure_filter keep)
   \/ (filter = None /\ keep = fun _ _ => true)) ->
  forall (h : heap) m,
    h !! f = Some (MapObj m) ->
    NoDup (map body es) ->
    bodies_ready h es ->
    Forall (fun e => is_link e = false) es ->
    exists h',
      for_each es (extract_entry_with strip filter f) h = (Ok tt, h')
      /\ h' !! f
         = Some (MapObj (fold_left (extract_step_with strip keep h) es m)).
Proof.
  intros Hfilter.
  induction es as [|e es IH]; intros h m Hf Hnd Hready Hlinks.
  - exists h. by split.
  - apply NoDup_cons in Hnd as [Hnotin Hnd].
    apply Forall_cons in Hready as [[chunks Hb] Hready].
    apply Forall_cons in Hlinks as [Hlink Hlinks].
    destruct (extract_entry_with_step strip keep filter f e h m chunks
                Hfilter Hf Hb Hlink) as (h1 & Hstep & Hf1 & Hframe).
    assert (Hsame : forall e', In e' es -> h1 !! body e' = h !! body e').
    { intros e' He'. apply Hframe.
      - intros Heq. apply Hnotin. rewrite <- Heq.
        apply list_elem_of_In, in_map, He'.
      - intros Heq. rewrite Forall_forall in Hready.
        destruct (Hready e' (proj2 (list_elem_of_In _ _) He')) as [c Hc].
        congruence. }
    destruct (IH h1 (extract_step_with strip keep h m e) Hf1 Hnd)
      as (h2 & Hrest & Hf2).
    + unfold bodies_ready in *. rewrite Forall_forall in Hready |- *.
      intros e' He'. destruct (Hready e' He') as [c Hc]. exists c.
      rewrite Hsame; [done|]. by apply list_elem_of_In.
    + done.
    + exists h2. cbn [for_each fold_left].
      rewrite (bind_eval _ _ _ _ _ Hstep). split; [done|].
      by rewrite Hf2, (fold_extract_step_ext strip keep h h1).
Qed.

Lemma extractTarballWithOptions_run strip keep filter (l : loc)
    (h h1 : heap) (st : StreamState) (es : list TarEntry) :
  (filter = Some (pure_filter keep)
   \/ (filter = None /\ keep = fun _ _ => true)) ->
  h !! l = Some (StreamObj st) ->
  tar_entries l (h ++ [MapObj []]) = (Ok (mkTarStream es None), h1) ->
  h1 !! length h = Some (MapObj []) ->
  NoDup (map body es) ->
  bodies_ready h1 es ->
  Forall (fun e => is_link e = false) es ->
  exists h',
    extractTarballWithOptions (Some l)
      (Some (ExtractOptions.mk (Some strip) filter)) h
    = (Ok (length h), h')
    /\ h' !! length h = Some (MapObj (expected_files_with strip keep h1 es)).
Proof.
  intros Hfilter Hl Hdec Hf Hnd Hready Hlinks.
  destruct (for_each_extract_with strip keep filter (length h) es Hfilter
              h1 [] Hf Hnd Hready Hlinks) as (h2 & Hloop & Hf2).
  exists h2. split; [|exact Hf2].
  unfold extractTarballWithOptions.
  cbn [default ExtractOptions.stripPackagePrefix ExtractOptions.filter].
  assert (Hvalid : is_readable_stream (Some l) h = (Ok true, h))
    by (unfold is_readable_stream; by rewrite Hl).
  rewrite (bind_eval _ _ _ _ _ Hvalid).
  assert (Hnew : Map_new h = (Ok (length h), h ++ [MapObj []])) by reflexivity.
  rewrite (bind_eval _ _ _ _ _ Hnew).
  erewrite bind_eval; [reflexivity|]. unfold catch.
  rewrite (bind_eval _ _ _ _ _ Hdec). cbn [entries stream_failure].
  by rewrite (bind_eval _ _ _ _ _ Hloop).
Qed.

(** X14. What [extractTarball] returns for an archive without links whose
    decoder ends well: a new map that holds, for every regular file whose name
    is not empty once a leading [package/] is removed, the bytes of its body
    under the stripped name; the entries are taken in archive order, so of two
    files with the same name the later one wins and keeps the place of the
    first; directories and other entries are skipped. *)
Theorem extractTarball_files (l : loc) (h h1 : heap) (st : StreamState)
    (es : list TarEntry) :
  h !! l = Some (StreamObj st) ->
  tar_entries l (h ++ [MapObj []]) = (Ok (mkTarStream es None), h1) ->
  h1 !! length h = Some (MapObj []) ->
  NoDup (map body es) ->
  bodies_ready h1 es ->
  Forall (fun e => is_link e = false) es ->
  exists h',
    extractTarball (Some l) h = (Ok (length h), h')
    /\ h' !! length h = Some (MapObj (expected_files h1 es)).
Proof.
  intros Hl Hdec Hf Hnd Hready Hlinks.
  apply (extractTarballWithOptions_run true (fun _ _ => true) None l h h1 st es);
    auto.
Qed.

(** X15. [extractTarballWithOptions] with a filter that only computes: the map
    holds the regular files whose path is not empty and passes the filter; the
    path is the entry name, without a leading [package/] unless
    [stripPackagePrefix] is false. Without options, with an empty options
    object, or with [stripPackagePrefix: true] alone, the function does what
    [extractTarball] does. *)
Theorem extractTarballWithOptions_files (strip : bool)
    (keep : string -> TarHeader -> bool) (l : loc)
    (h h1 : heap) (st : StreamState) (es : list TarEntry) :
  h !! l = Some (StreamObj st) ->
  tar_entries l (h ++ [MapObj []]) = (Ok (mkTarStream es None), h1) ->
  h1 !! length h = Some (MapObj []) ->
  NoDup (map body es) ->
  bodies_ready h1 es ->
  Forall (fun e => is_link e = false) es ->
  (exists h',
     extractTarballWithOptions (Some l)
       (Some (ExtractOptions.mk (Some strip) (Some (pure_filter keep)))) h
     = (Ok (length h), h')
     /\ h' !! length h = Some (MapObj (expected_files_with strip keep h1 es)))
  /\ (forall stream h0 options,
        options = None
        \/ options = Some (ExtractOptions.mk None None)
        \/ options = Some (ExtractOptions.mk (Some true) None) ->
        extractTarballWithOptions stream options h0
        = extractTarball stream h0).
Proof.
  intros. split.
  - eapply extractTarballWithOptions_run; eauto.
  - intros stream h0 options [->|[->| ->]]; reflexivity.
Qed.

End TarMore.

(** Two chunks are read and concatenated. *)
Lemma streamToBytes_reads_all_witness :
  streamToBytes 0 [StreamObj (mkStream [[x01; x02]; [x03]] None)]
  = (Ok [x01; x02; x03], [StreamObj (mkStream [] None)]).
Proof.
  exact (streamToBytes_reads_all 0
           [StreamObj (mkStream [[x01; x02]; [x03]] None)]
           [[x01; x02]; [x03]] None eq_refl).
Defined.

(** An archive of two files. *)
Lemma extractTarball_files_witness :
  let P := Reference.platform (mkResponse 200 "OK" [] None)
             [("a.js", Reference.encode "1"); ("b.js", Reference.encode "2")] in
  exists h',
    extractTarball (Some 0) [StreamObj (mkStream [] None)]
    = (Ok 1, h')
    /\ h' !! 1
       = Some (MapObj [("a.js", Reference.encode "1");
                       ("b.js", Reference.encode "2")]).
Proof.
  intros P.
  apply (extractTarball_files (H := P) 0 [StreamObj (mkStream [] None)]
           [StreamObj (mkStream [] None); MapObj [];
            StreamObj (mkStream [Reference.encode "1"] None);
            StreamObj (mkStream [Reference.encode "2"] None)]
           (mkStream [] None)
           [mkTarEntry (mkTarHeader "package/a.js" "file" None) 2;
            mkTarEntry (mkTarHeader "package/b.js" "file" None) 3]
           eq_refl eq_refl eq_refl).
  - apply (bool_decide_unpack _). reflexivity.
  - repeat constructor; eexists; reflexivity.
  - repeat constructor.
Defined.

(** The same archive, unstripped and filtered. *)
Lemma extractTarballWithOptions_files_witness :
  let P := Reference.platform (mkResponse 200 "OK" [] None)
             [("a.js", Reference.encode "1"); ("b.js", Reference.encode "2")] in
  let keep (path : string) (_ : TarHeader) := String.eqb path "package/b.js" in
  exists h',
    extractTarballWithOptions (Some 0)
      (Some (ExtractOptions.mk (Some false) (Some (pure_filter keep))))
      [StreamObj (mkStream [] None)]
    = (Ok 1, h')
    /\ h' !! 1 = Some (MapObj [("package/b.js", Reference.encode "2")]).
Proof.
  intros P keep.
  refine (proj1 (extractTarballWithOptions_files (H := P) false keep 0
           [StreamObj (mkStream [] None)]
           [StreamObj (mkStream [] None); MapObj [];
            StreamObj (mkStream [Reference.encode "1"] None);
            StreamObj (mkStream [Reference.encode "2"] None)]
           (mkStream [] None)
           [mkTarEntry (mkTarHeader "package/a.js" "file" None) 2;
            mkTarEntry (mkTarHeader "package/b.js" "file" None) 3]
           eq_refl eq_refl eq_refl _ _ _)).
  - apply (bool_decide_unpack _). reflexivity.
  - repeat constructor; eexists; reflexivity.
  - repeat constructor.
Defined.

(** ** binary.js: the extension of a path *)

Lemma getExtension_file (file : string) :
  indexOf "/" file = None ->
  (forall dir, getExtension (dir +:+ String "/" file) = getExtension file)
  /\ (indexOf "." file = None -> getExtension file = "")
  /\ (forall base ext, file = base +:+ String "." ext ->
      indexOf "." ext = None -> getExtension file = toLowerCase ext).
Proof.
  intros Hslash. apply indexOf_None_iff in Hslash.
  assert (Hfile : forall f, lastIndexOf "/" f = None ->
            getExtension f
            = match lastIndexOf "." f with
              | None => ""
              | Some O => toLowerCase (drop 1 f)
              | Some lastDot => toLowerCase (drop (lastDot + 1) f)
              end).
  { intros f Hf. unfold getExtension. by rewrite Hf. }
  split; [|split].
  - intros dir. rewrite (Hfile file Hslash). unfold getExtension.
    rewrite lastIndexOf_app by done. by rewrite drop_app_cons.
  - intros Hdot. apply indexOf_None_iff in Hdot.
    by rewrite (Hfile file Hslash), Hdot.
  - intros base ext -> Hdot. apply indexOf_None_iff in Hdot.
    rewrite (Hfile _ Hslash), lastIndexOf_app by done.
    destruct (String.length base) eqn:E.
    + destruct base; [|done]. by rewrite sapp_nil_l.
    + rewrite <- E. by rewrite drop_app_cons.
Qed.

(** X16. The extension of a path is the part of the file name after its last
    dot, in lower case: the directories do not count, even when they hold dots;
    a file name without a dot has no extension; a dot file such as [.gitignore]
    has the rest of its name as extension. *)
Theorem getExtension_spec (dir base ext : string) :
  indexOf "/" base = None ->
  indexOf "/" ext = None -> indexOf "." ext = None ->
  getExtension (base +:+ "." +:+ ext) = toLowerCase ext
  /\ getExtension (dir +:+ "/" +:+ base +:+ "." +:+ ext) = toLowerCase ext
  /\ (indexOf "." base = None ->
      getExtension base = ""
      /\ getExtension (dir +:+ "/" +:+ base) = "").
Proof.
  intros Hb He Hd.
  assert (Hfile : indexOf "/" (base +:+ String "." ext) = None).
  { rewrite indexOf_app_none by done. cbn [indexOf]. cbn. by rewrite He. }
  destruct (getExtension_file _ Hfile) as (Hdir & _ & Hext).
  split; [|split].
  - by apply (Hext base ext).
  - change (dir +:+ "/" +:+ base +:+ "." +:+ ext)
      with (dir +:+ String "/" (base +:+ String "." ext)).
    rewrite Hdir. by apply (Hext base ext).
  - intros Hnodot. destruct (getExtension_file _ Hb) as (Hdir' & Hnone & _).
    split; [by apply Hnone|].
    change (dir +:+ "/" +:+ base) with (dir +:+ String "/" base).
    rewrite Hdir'. by apply Hnone.
Qed.

(** The extension is what follows the last dot of the file name. *)
Lemma getExtension_spec_witness :
  getExtension "index.min.JS" = "js"
  /\ getExtension "lib/v1.2/index.min.JS" = "js".
Proof.
  destruct (getExtension_spec "lib/v1.2" "index.min" "JS"
              eq_refl eq_refl eq_refl) as (Hfile & Hpath & _).
  exact (conj Hfile Hpath).
Defined.

Section BinaryMore.
Context `{Platform}.

(** X17. A path is binary exactly when its extension is: [isBinaryPath] is
    [isBinaryExtension] of [getExtension], and for a file name [base.ext] the
    answer does not depend on the directory, on the base name or on the case of
    the extension. *)
Theorem isBinaryPath_by_extension (path : string) :
  isBinaryPath path = isBinaryExtension (getExtension path)
  /\ (forall dir base ext,
        indexOf "/" base = None ->
        indexOf "/" ext = None -> indexOf "." ext = None ->
        path = dir +:+ "/" +:+ base +:+ "." +:+ ext
        \/ path = base +:+ "." +:+ ext ->
        isBinaryPath path = isBinaryExtension ext
        /\ isBinaryPath path = isBinaryExtension (toLowerCase ext)).
Proof.
  assert (Hgen : forall p, isBinaryPath p = isBinaryExtension (getExtension p)).
  { intros p. unfold isBinaryPath, isBinaryExtension.
    destruct p as [|c p]; [reflexivity|]. cbn [String.length Nat.eqb].
    assert (toLowerCase (getExtension (String c p)) = getExtension (String c p))
      as ->.
    { unfold getExtension.
      destruct (lastIndexOf "/" (String c p)) as [i|];
        (destruct (lastIndexOf "." _) as [[|j]|];
         [apply toLowerCase_idem|apply toLowerCase_idem|done]). }
    destruct (getExtension (String c p)) as [|d e]; reflexivity. }
  assert (Hlow : forall e, isBinaryExtension (toLowerCase e) = isBinaryExtension e).
  { intros e. unfold isBinaryExtension.
    rewrite toLowerCase_length, toLowerCase_idem. done. }
  split; [apply Hgen|].
  intros dir base ext Hb He Hd Hpath.
  assert (Hfile : indexOf "/" (base +:+ String "." ext) = None).
  { rewrite indexOf_app_none by done. cbn [indexOf]. cbn. by rewrite He. }
  destruct (getExtension_file _ Hfile) as (Hdir & _ & Hext).
  rewrite Hgen, Hlow.
  assert (getExtension path = toLowerCase ext) as ->.
  { destruct Hpath as [-> | ->].
    - change (dir +:+ "/" +:+ base +:+ "." +:+ ext)
        with (dir +:+ String "/" (base +:+ String "." ext)).
      rewrite Hdir. by apply (Hext base ext).
    - by apply (Hext base ext). }
  by rewrite Hlow.
Qed.

End BinaryMore.

(** ** diff.js: the records of a tree diff *)

Section DiffMore.
Context `{Platform}.

(** X18. [computeDiff] hands the differ the two texts with their line endings
    normalised, empty headers, the context of the options (3 when none is
    given) and the whitespace flag; it returns the patch as the differ made it,
    and a failure of the differ as a DIFF error (500). The store is not
    touched. *)
Theorem computeDiff_call (oldPath newPath oldContent newContent : string)
    (options : option loc) (h : heap) (opts : DiffOptions) :
  read_options options h = (Ok opts, h) ->
  match createTwoFilesPatch oldPath newPath
          (normalizeLineEndings oldContent) (normalizeLineEndings newContent)
          "" ""
          (mkJsDiffOptions (default 3%Z (context opts))
             (if default false (ignoreAllSpace opts)
                 || default false (ignoreSpaceChange opts)
              then Some true else None)) with
  | inr patch =>
      computeDiff oldPath newPath oldContent newContent options h
      = (Ok patch, h)
  | inl error =>
      exists msg cause,
        computeDiff oldPath newPath oldContent newContent options h
        = (Throw (DiffError DIFF 500 msg cause), h)
  end.
Proof.
  intros Ho. unfold computeDiff. rewrite (bind_eval _ _ _ _ _ Ho).
  destruct (createTwoFilesPatch _ _ _ _ _ _ _) as [error|patch]; [|done].
  assert (Hctx : truthy_string (Some ("Failed to compute diff for " +:+ oldPath))
                 = Some ("Failed to compute diff for " +:+ oldPath))
    by reflexivity.
  unfold throw, DiffError_wrap. rewrite Hctx.
  destruct error; unfold new_DiffError; eauto.
Qed.

Lemma diff_cases_record opts p lhs rhs options h d h' L R :
  lhs = assoc_get p L -> rhs = assoc_get p R ->
  diff_cases opts p lhs rhs options h = (Ok (Some d), h') ->
  record_of L R p d.
Proof.
  intros -> ->. unfold diff_cases, record_of, status_of. intros Hb.
  destruct (assoc_get p L) as [l|], (assoc_get p R) as [r0|].
  - destruct (areIdentical l r0); [by injection Hb as <- <-|].
    apply bind_ok in Hb as (pt & h1 & _ & [= <- <-]). cbn.
    repeat split. by destruct (hasChanges pt) eqn:E.
  - apply bind_ok in Hb as (pt & h1 & _ & [= <- <-]). cbn. repeat split; eauto.
  - apply bind_ok in Hb as (pt & h1 & _ & [= <- <-]). cbn. repeat split; eauto.
  - done.
Qed.

(** X19. The records of [computeTreeDiff], path by path over the sorted union:
    a file of both maps is [unchanged] when the bytes are equal and [modified]
    otherwise, a file of the right map alone is [added], one of the left map
    alone [deleted]; no record is marked binary; an unchanged record has no
    patch, an added or deleted one has one, and the patch of a modified record,
    when there is one, has a hunk. Each record is the one [computeFileDiff]
    returns for the path and its two contents. *)
Theorem computeTreeDiff_records (leftTree rightTree : loc)
    (options : option loc) (h h' : heap) (L R : list (string * list byte))
    (diffs : list FileDiff) :
  h !! leftTree = Some (MapObj L) ->
  h !! rightTree = Some (MapObj R) ->
  computeTreeDiff leftTree rightTree options h = (Ok diffs, h') ->
  Forall2 (fun p d =>
             record_of L R p d
             /\ computeFileDiff p (assoc_get p L) (assoc_get p R) options h
                = (Ok d, h))
    (sortedPaths L R) diffs.
Proof.
  intros Hl Hr. unfold computeTreeDiff. intros Hfold.
  apply bind_ok_ro in Hfold as (opts & Ho & Hfold);
    [|apply readonly_read_options].
  rewrite (bind_eval _ _ _ _ _ (Map_keys_eval _ _ _ Hl)) in Hfold.
  rewrite (bind_eval _ _ _ _ _ (Map_keys_eval _ _ _ Hr)) in Hfold.
  fold (sortedPaths L R) in Hfold.
  eapply (foldM_readonly_inv _
            (fun p => In p (keys L) \/ In p (keys R))
            (fun done results =>
               Forall2 (fun p d =>
                  record_of L R p d
                  /\ computeFileDiff p (assoc_get p L) (assoc_get p R)
                       options h = (Ok d, h)) done results))
    with (done := []) in Hfold.
  - apply Hfold.
  - intros results p.
    apply readonly_bind; [apply readonly_Map_get|]. intros lhs.
    apply readonly_bind; [apply readonly_Map_get|]. intros rhs.
    apply readonly_bind; [apply readonly_diff_cases|].
    intros [d|]; apply readonly_ret.
  - intros seen x results results' Hx Hdone Hstep.
    rewrite (bind_eval _ _ _ _ _ (Map_get_eval _ x _ _ Hl)) in Hstep.
    rewrite (bind_eval _ _ _ _ _ (Map_get_eval _ x _ _ Hr)) in Hstep.
    apply bind_ok_ro in Hstep as (res & Hcases & Hret);
      [|apply readonly_diff_cases].
    destruct res as [d|].
    + unfold ret in Hret. injection Hret as <-.
      apply Forall2_app; [done|]. constructor; [|constructor]. split.
      * by eapply diff_cases_record.
      * unfold computeFileDiff. rewrite (bind_eval _ _ _ _ _ Ho).
        by rewrite (bind_eval _ _ _ _ _ Hcases).
    + apply diff_cases_result in Hcases as [HL HR].
      apply assoc_get_None in HL, HR. tauto.
  - apply Forall_forall. intros p Hp.
    destruct (sortedPaths_spec L R) as (_ & _ & Hin).
    by apply Hin, list_elem_of_In.
  - constructor.
Qed.

End DiffMore.

(** Without options the differ is called with three lines of context. *)
Lemma computeDiff_call_witness :
  let P := Reference.platform (mkResponse 200 "OK" [] None) [] in
  exists patch,
    Reference.createTwoFilesPatch "a/f.txt" "b/f.txt"
      "x" ("y" +:+ nl) "" "" (mkJsDiffOptions 3 None) = inr patch
    /\ computeDiff "a/f.txt" "b/f.txt" "x" ("y" +:+ String cr nl) None []
       = (Ok patch, []).
Proof.
  intros P.
  eexists. split; [reflexivity |].
  exact (computeDiff_call (H := P) "a/f.txt" "b/f.txt" "x"
           ("y" +:+ String cr nl) None [] no_options eq_refl).
Defined.

(** The records of the sample trees. *)
Lemma computeTreeDiff_records_witness :
  let P := Reference.platform (mkResponse 200 "OK" [] None) [] in
  let diffs :=
    match computeTreeDiff 0 1 None sample_store with
    | (Ok ds, _) => ds
    | _ => []
    end in
  map status diffs = [added; deleted; modified; unchanged]
  /\ Forall2 (fun p d =>
                record_of sample_left sample_right p d
                /\ computeFileDiff p (assoc_get p sample_left)
                     (assoc_get p sample_right) None sample_store
                   = (Ok d, sample_store))
       (sortedPaths sample_left sample_right) diffs.
Proof.
  intros P diffs. split; [reflexivity |].
  apply (computeTreeDiff_records (H := P) 0 1 None sample_store sample_store
           sample_left sample_right diffs eq_refl eq_refl).
  reflexivity.
Defined.

(** ** format.js: counters, name-only mode and single files *)

Lemma formatNameOnly_lines paths : formatNameOnly paths = lines_of paths.
Proof.
  unfold formatNameOnly. destruct paths as [|p paths]; [done|].
  revert p. induction paths as [|q paths IH]; intros p.
  - cbn. by rewrite sapp_nil_r.
  - cbn [join lines_of fold_right] in *. rewrite <- IH.
    by rewrite !sapp_assoc.
Qed.

Lemma counts_within_changed L R (l : list string) :
  length (List.filter (only_right L R) l)
  + length (List.filter (only_left L R) l)
  <= length (List.filter (changed L R) l).
Proof.
  induction l as [|p l IH]; [done|]. cbn [List.filter].
  unfold only_right at 1, only_left at 1, changed at 1.
  destruct (assoc_get p L) as [lb|], (assoc_get p R) as [rb|];
    cbn [identical negb length]; try lia.
  destruct (negb _); cbn [length]; lia.
Qed.

Lemma readonly_collectM {A B} (f : A -> M B) (xs : list A) :
  (forall x, readonly (f x)) -> readonly (collectM f xs).
Proof.
  intros Hf. induction xs as [|x xs IH]; [apply readonly_ret|].
  cbn [collectM]. apply readonly_bind; [apply Hf|]. intros y.
  apply readonly_bind; [apply IH|]. intros ys. apply readonly_ret.
Qed.

Lemma collectM_snoc {A B} (f : A -> M B) (xs : list A) (x : A) h ys y :
  (forall x, readonly (f x)) ->
  collectM f xs h = (Ok ys, h) -> f x h = (Ok y, h) ->
  collectM f (xs ++ [x]) h = (Ok (ys ++ [y]), h).
Proof.
  intros Hro. revert ys. induction xs as [|a xs IH]; intros ys Hxs Hx.
  - injection Hxs as <-. cbn [collectM app].
    by rewrite (bind_eval _ _ _ _ _ Hx).
  - cbn [collectM app] in Hxs |- *.
    apply bind_ok_ro in Hxs as (b & Hb & Hxs); [|apply Hro].
    apply bind_ok_ro in Hxs as (bs & Hbs & [= <-]);
      [|by apply readonly_collectM].
    rewrite (bind_eval _ _ _ _ _ Hb).
    by rewrite (bind_eval _ _ _ _ _ (IH bs Hbs Hx)).
Qed.

Section FormatMore.
Context `{Platform}.

(** X20. The counters of [formatDiff]: [filesAdded] is the number of paths that
    only the right map has, [filesDeleted] the number of paths that only the
    left map has, in both modes; the two together never exceed [filesChanged].
    *)
Theorem formatDiff_counts (leftTree rightTree : loc) (options : option loc)
    (h h' : heap) (L R : list (string * list byte)) (res : FormatResult) :
  h !! leftTree = Some (MapObj L) ->
  h !! rightTree = Some (MapObj R) ->
  formatDiff leftTree rightTree options h = (Ok res, h') ->
  filesAdded res = length (List.filter (only_right L R) (sortedPaths L R))
  /\ filesDeleted res = length (List.filter (only_left L R) (sortedPaths L R))
  /\ filesAdded res + filesDeleted res <= filesChanged res.
Proof.
  intros Hl Hr Hf. unfold formatDiff in Hf.
  apply bind_ok in Hf as ([flag st] & h1 & Hloop & [= <- <-]).
  eapply formatDiff_loop_spec in Hloop
    as (opts & Ho & -> & (Hc & Ha & Hd & _) & _); eauto.
  cbn [filesAdded filesDeleted filesChanged]. rewrite Hc, Ha, Hd.
  split; [done|]. split; [done|]. apply counts_within_changed.
Qed.

Lemma returns_step_nameOnly l r options text st p h L R :
  h !! l = Some (MapObj L) ->
  h !! r = Some (MapObj R) ->
  returns (formatDiff_step l r options true text st p) h.
Proof.
  intros Hl Hr. unfold formatDiff_step.
  apply returns_bind; [eexists; by apply Map_get_eval|]. intros lhs _.
  apply returns_bind; [eexists; by apply Map_get_eval|]. intros rhs _.
  destruct (classify lhs rhs) as [status|]; [|apply returns_ret].
  destruct (identical lhs rhs); apply returns_ret.
Qed.

(** X21. In name-only mode [formatDiff] does not depend on the differ and does
    not fail: whatever the differ would do, the store is left as it is, the
    output is the list of the changed paths of the sorted union, each followed
    by a line feed, and [filesChanged] is their number. *)
Theorem formatDiff_nameOnly (leftTree rightTree : loc) (options : option loc)
    (h : heap) (L R : list (string * list byte)) (opts : DiffOptions) :
  h !! leftTree = Some (MapObj L) ->
  h !! rightTree = Some (MapObj R) ->
  read_options options h = (Ok opts, h) ->
  nameOnly opts = Some true ->
  exists res,
    formatDiff leftTree rightTree options h = (Ok res, h)
    /\ output res = lines_of (List.filter (changed L R) (sortedPaths L R))
    /\ filesChanged res
       = length (List.filter (changed L R) (sortedPaths L R)).
Proof.
  intros Hl Hr Ho Hname.
  assert (Hret : returns (formatDiff_loop leftTree rightTree options) h).
  { unfold formatDiff_loop.
    apply returns_bind; [by exists opts|]. intros o Ho'.
    assert (o = opts) as -> by congruence. rewrite Hname. cbn [default].
    apply returns_bind; [eexists; by apply Map_keys_eval|]. intros lk _.
    apply returns_bind; [eexists; by apply Map_keys_eval|]. intros rk _.
    apply returns_bind; [|intros; apply returns_ret].
    apply returns_foldM. intros st p. by eapply returns_step_nameOnly. }
  destruct Hret as [[flag st] Hloop].
  destruct (formatDiff_loop_spec _ _ _ _ L R _ _ _ Hl Hr Hloop)
    as (opts' & Ho' & Hflag & (Hc & _) & _).
  assert (opts' = opts) as -> by congruence.
  rewrite Hname in Hflag. cbn in Hflag. subst flag.
  eexists. unfold formatDiff. rewrite (bind_eval _ _ _ _ _ Hloop).
  split; [reflexivity|]. cbn [output filesChanged].
  by rewrite formatNameOnly_lines, Hc.
Qed.

Lemma readonly_formatFileDiff p lhs rhs options :
  readonly (formatFileDiff p lhs rhs options).
Proof.
  unfold formatFileDiff.
  apply readonly_bind; [apply readonly_read_options|]. intros opts.
  assert (Hcont : forall status,
    readonly
      (if negb (shouldPrintPatch p
                  (mkDiffOptions None None None None None None None
                     (Some (default false (text opts)))))
       then part <- formatBinaryHeader p status options ;; ret (Some part)
       else
         fileDiff <- computeFileDiff p lhs rhs options ;;
         match patch_with_changes (patch fileDiff) with
         | None =>
             match status with
             | added | deleted =>
                 part <- formatTextDiff p
                           (default "" (truthy_string (patch fileDiff)))
                           status options ;;
                 ret (Some part)
             | _ => ret None
             end
         | Some q =>
             part <- formatTextDiff p q status options ;;
             ret (Some part)
         end)).
  { intros status. destruct (negb _).
    - apply readonly_bind; [apply readonly_formatBinaryHeader|].
      intros. apply readonly_ret.
    - apply readonly_bind; [apply readonly_computeFileDiff|]. intros fd.
      destruct (patch_with_changes _).
      + apply readonly_bind; [apply readonly_formatTextDiff|].
        intros. apply readonly_ret.
      + destruct status; try apply readonly_ret;
          (apply readonly_bind; [apply readonly_formatTextDiff|];
           intros; apply readonly_ret). }
  destruct lhs as [l|], rhs as [r|]; try apply Hcont; try apply readonly_ret.
  destruct (_ && _); [apply readonly_ret|apply Hcont].
Qed.

Lemma computeFileDiff_patch_truthy p lhs rhs options h fd h' status :
  differ_nonempty ->
  classify lhs rhs = Some status -> status = added \/ status = deleted ->
  computeFileDiff p lhs rhs options h = (Ok fd, h') ->
  exists q, patch fd = Some q /\ truthy_string (patch fd) = Some q.
Proof.
  intros Hne Hcl Hst. unfold computeFileDiff. intros Hb.
  apply bind_ok_ro in Hb as (opts & Ho & Hb); [|apply readonly_read_options].
  apply bind_ok_ro in Hb as (r & Hr & Hb); [|apply readonly_diff_cases].
  destruct r as [d|]; [|done]. injection Hb as <- <-.
  unfold diff_cases in Hr.
  destruct lhs as [l|], rhs as [r|]; cbn in Hcl; try discriminate;
    injection Hcl as <-; try (by destruct Hst).
  - apply bind_ok in Hr as (pt & h1 & Hpt & [= <- <-]).
    unfold computeDiff in Hpt.
    apply bind_ok in Hpt as (o & h2 & _ & Hpt).
    destruct (createTwoFilesPatch _ _ _ _ _ _ _) as [e|q] eqn:Eq; [done|].
    injection Hpt as <- _. apply Hne in Eq. exists q. cbn.
    split; [done|]. by destruct q.
  - apply bind_ok in Hr as (pt & h1 & Hpt & [= <- <-]).
    unfold computeDiff in Hpt.
    apply bind_ok in Hpt as (o & h2 & _ & Hpt).
    destruct (createTwoFilesPatch _ _ _ _ _ _ _) as [e|q] eqn:Eq; [done|].
    injection Hpt as <- _. apply Hne in Eq. exists q. cbn.
    split; [done|]. by destruct q.
Qed.

Lemma emit_block_formatFile p status lhs rhs options st h opts st' h' :
  differ_nonempty ->
  read_options options h = (Ok opts, h) ->
  classify lhs rhs = Some status -> identical lhs rhs = false ->
  emit_block p status lhs rhs options
    (negb (shouldPrintPatch p
             (mkDiffOptions None None None None None None None
                (Some (default false (text opts)))))) st h = (Ok st', h') ->
  exists r,
    formatFileDiff p lhs rhs options h = (Ok r, h)
    /\ outputParts st' = outputParts st ++ block_list r.
Proof.
  intros Hne Ho Hcl Hid Hemit.
  unfold formatFileDiff. rewrite (bind_eval _ _ _ _ _ Ho).
  unfold emit_block in Hemit.
  assert (Hbin : forall status,
    (part <- formatBinaryHeader p status options ;; ret (push_part part st)) h
    = (Ok st', h') ->
    exists r,
      (part <- formatBinaryHeader p status options ;; ret (Some part)) h
      = (Ok r, h)
      /\ outputParts st' = outputParts st ++ block_list r).
  { intros s0 Hb.
    apply bind_ok_ro in Hb as (part & Hpart & [= <- <-]);
      [|apply readonly_formatBinaryHeader].
    exists (Some part). by rewrite (bind_eval _ _ _ _ _ Hpart). }
  assert (Htext : forall status q,
    (part <- formatTextDiff p q status options ;; ret (push_part part st)) h
    = (Ok st', h') ->
    exists r,
      (part <- formatTextDiff p q status options ;; ret (Some part)) h
      = (Ok r, h)
      /\ outputParts st' = outputParts st ++ block_list r).
  { intros s0 q Hb.
    apply bind_ok_ro in Hb as (part & Hpart & [= <- <-]);
      [|apply readonly_formatTextDiff].
    exists (Some part). by rewrite (bind_eval _ _ _ _ _ Hpart). }
  destruct lhs as [l|], rhs as [r|]; cbn in Hcl; try discriminate;
    injection Hcl as <-; cbn [identical] in Hid; rewrite ?Hid;
    cbn beta iota zeta in Hemit |- *;
    (destruct (negb (shouldPrintPatch _ _)); [by apply Hbin|]).
  - apply bind_ok_ro in Hemit as (fd & Hfd & Hemit);
      [|apply readonly_computeFileDiff].
    rewrite (bind_eval _ _ _ _ _ Hfd).
    destruct (patch_with_changes (patch fd)) as [q|]; [by apply Htext|].
    injection Hemit as <- <-. exists None. by rewrite app_nil_r.
  - apply bind_ok_ro in Hemit as (fd & Hfd & Hemit);
      [|apply readonly_computeFileDiff].
    rewrite (bind_eval _ _ _ _ _ Hfd).
    destruct (patch_with_changes (patch fd)) as [q|]; [by apply Htext|].
    rewrite (bind_eval _ _ _ _ _ Hfd) in Hemit.
    destruct (computeFileDiff_patch_truthy p (Some l) None options h fd h
                deleted Hne eq_refl (or_intror eq_refl) Hfd) as (q & _ & Hq).
    rewrite Hq in Hemit |- *. by apply Htext.
  - apply bind_ok_ro in Hemit as (fd & Hfd & Hemit);
      [|apply readonly_computeFileDiff].
    rewrite (bind_eval _ _ _ _ _ Hfd).
    destruct (patch_with_changes (patch fd)) as [q|]; [by apply Htext|].
    rewrite (bind_eval _ _ _ _ _ Hfd) in Hemit.
    destruct (computeFileDiff_patch_truthy p None (Some r) options h fd h
                added Hne eq_refl (or_introl eq_refl) Hfd) as (q & _ & Hq).
    rewrite Hq in Hemit |- *. by apply Htext.
Qed.

Lemma formatDiff_step_formatFile l r options st p h L R opts st' h' :
  differ_nonempty ->
  h !! l = Some (MapObj L) ->
  h !! r = Some (MapObj R) ->
  read_options options h = (Ok opts, h) ->
  formatDiff_step l r options false (default false (text opts)) st p h
  = (Ok st', h') ->
  exists res,
    formatFileDiff p (assoc_get p L) (assoc_get p R) options h = (Ok res, h)
    /\ outputParts st' = outputParts st ++ block_list res.
Proof.
  intros Hne Hl Hr Ho. unfold formatDiff_step.
  rewrite (bind_eval _ _ _ _ _ (Map_get_eval _ p _ _ Hl)).
  rewrite (bind_eval _ _ _ _ _ (Map_get_eval _ p _ _ Hr)).
  destruct (classify (assoc_get p L) (assoc_get p R)) as [status|] eqn:Ecl.
  - destruct (identical (assoc_get p L) (assoc_get p R)) eqn:Eid.
    + intros [= <- <-]. exists None.
      split; [|destruct status; cbn; by rewrite app_nil_r].
      unfold formatFileDiff. rewrite (bind_eval _ _ _ _ _ Ho).
      destruct (assoc_get p L), (assoc_get p R); try done.
      cbn [identical] in Eid. by rewrite Eid.
    + intros Hemit.
      destruct (emit_block_formatFile _ _ _ _ _ _ _ _ _ _ Hne Ho Ecl Eid Hemit)
        as (res & Hres & Hparts).
      exists res. split; [done|]. rewrite Hparts.
      by destruct status.
  - intros [= <- <-]. exists None. split; [|by rewrite app_nil_r].
    unfold formatFileDiff. rewrite (bind_eval _ _ _ _ _ Ho).
    by destruct (assoc_get p L), (assoc_get p R).
Qed.

(** X22. With a differ that never returns the empty text, and outside name-only
    mode, the output of [formatDiff] is made of the blocks [formatFileDiff]
    returns for the paths of the sorted union, in order, joined by a line feed;
    the paths for which it returns [null] give nothing. *)
Theorem formatDiff_is_formatFileDiff (leftTree rightTree : loc)
    (options : option loc) (h h' : heap) (L R : list (string * list byte))
    (opts : DiffOptions) (res : FormatResult) :
  differ_nonempty ->
  h !! leftTree = Some (MapObj L) ->
  h !! rightTree = Some (MapObj R) ->
  read_options options h = (Ok opts, h) ->
  default false (nameOnly opts) = false ->
  formatDiff leftTree rightTree options h = (Ok res, h') ->
  exists blocks,
    collectM (fun p => formatFileDiff p (assoc_get p L) (assoc_get p R) options)
      (sortedPaths L R) h = (Ok blocks, h)
    /\ output res = join nl (concat (map block_list blocks)).
Proof.
  intros Hne Hl Hr Ho Hname Hf. unfold formatDiff in Hf.
  apply bind_ok in Hf as ([flag st] & h1 & Hloop & [= <- <-]).
  unfold formatDiff_loop in Hloop.
  rewrite (bind_eval _ _ _ _ _ Ho) in Hloop. rewrite Hname in Hloop.
  rewrite (bind_eval _ _ _ _ _ (Map_keys_eval _ _ _ Hl)) in Hloop.
  rewrite (bind_eval _ _ _ _ _ (Map_keys_eval _ _ _ Hr)) in Hloop.
  apply bind_ok in Hloop as (st0 & h2 & Hfold & [= <- <- <-]).
  fold (sortedPaths L R) in Hfold.
  eapply (foldM_readonly_inv _ (fun _ => True)
            (fun done st =>
               exists blocks,
                 collectM (fun p => formatFileDiff p (assoc_get p L)
                                  (assoc_get p R) options) done h
                 = (Ok blocks, h)
                 /\ outputParts st = concat (map block_list blocks)))
    with (done := []) in Hfold.
  - destruct Hfold as [(blocks & Hblocks & Hparts) _].
    exists blocks. split; [done|]. cbn [output]. by rewrite Hparts.
  - intros. apply readonly_formatDiff_step.
  - intros done x s s' _ (blocks & Hblocks & Hparts) Hstep.
    destruct (formatDiff_step_formatFile _ _ _ _ _ _ L R opts _ _
                Hne Hl Hr Ho Hstep) as (r0 & Hr0 & Hparts').
    exists (blocks ++ [r0]). split.
    + apply (collectM_snoc (fun p => formatFileDiff p (assoc_get p L)
                                   (assoc_get p R) options)); try done.
      intros p. apply readonly_formatFileDiff.
    + rewrite Hparts', Hparts, map_app, concat_app. cbn.
      by rewrite app_nil_r.
  - by apply Forall_forall.
  - exists []. by split.
Qed.

End FormatMore.

(** The counters of the sample trees: one addition, one deletion, three
    changed files. *)
Lemma formatDiff_counts_witness :
  let P := Reference.platform (mkResponse 200 "OK" [] None) [] in
  let res :=
    match formatDiff 0 1 None sample_store with
    | (Ok r, _) => r
    | _ => mkFormatResult "" 0 0 0
    end in
  (filesAdded res = 1 /\ filesDeleted res = 1 /\ filesChanged res = 3)
  /\ filesAdded res
     = length (List.filter (only_right sample_left sample_right)
                 (sortedPaths sample_left sample_right))
  /\ filesDeleted res
     = length (List.filter (only_left sample_left sample_right)
                 (sortedPaths sample_left sample_right))
  /\ filesAdded res + filesDeleted res <= filesChanged res.
Proof.
  intros P res. split; [by vm_compute |].
  apply (formatDiff_counts (H := P) 0 1 None sample_store sample_store
           sample_left sample_right res eq_refl eq_refl).
  by vm_compute.
Defined.

(** The names of the sample trees. *)
Lemma formatDiff_nameOnly_witness :
  let P := Reference.platform (mkResponse 200 "OK" [] None) [] in
  let opts := mkDiffOptions (Some true) None None None None None None None in
  let h := sample_store ++ [OptionsObj opts] in
  exists res,
    formatDiff 0 1 (Some 2) h = (Ok res, h)
    /\ output res = lines_of ["added.js"; "deleted.js"; "index.js"]
    /\ filesChanged res = 3.
Proof.
  intros P opts h.
  exact (formatDiff_nameOnly (H := P) 0 1 (Some 2) h sample_left sample_right
           opts eq_refl eq_refl eq_refl eq_refl).
Defined.

(** The reference differ ends every patch with a line feed. *)
Lemma reference_differ_nonempty response files :
  differ_nonempty (H := Reference.platform response files).
Proof.
  intros a b c d e f o p Hp. cbn in Hp. unfold Reference.createTwoFilesPatch in Hp.
  injection Hp as <-.
  match goal with |- ?x +:+ nl <> _ => generalize x end.
  intros body Hempty. destruct body.
  - vm_compute in Hempty. discriminate.
  - rewrite sapp_cons in Hempty. discriminate.
Qed.

(** The output of the sample trees is made of the blocks of their files. *)
Lemma formatDiff_is_formatFileDiff_witness :
  let P := Reference.platform (mkResponse 200 "OK" [] None) [] in
  let res :=
    match formatDiff 0 1 None sample_store with
    | (Ok r, _) => r
    | _ => mkFormatResult "" 0 0 0
    end in
  exists blocks,
    collectM (fun p => formatFileDiff p (assoc_get p sample_left)
                         (assoc_get p sample_right) None)
      (sortedPaths sample_left sample_right) sample_store
    = (Ok blocks, sample_store)
    /\ output res = join nl (concat (map block_list blocks)).
Proof.
  intros P res.
  apply (formatDiff_is_formatFileDiff (H := P) 0 1 None sample_store
           sample_store sample_left sample_right no_options res
           (reference_differ_nonempty _ _) eq_refl eq_refl eq_refl eq_refl).
  by vm_compute.
Defined.

(** ** index.js: the entry points *)

Section IndexFacts.
Context `{Platform}.

(** X23. The two entry points. [diff] is [diffWithStats] followed by the
    selection of [output]: the same store, the same failures, and on success
    the [output] field of the result. Both check their two sources before
    anything is fetched: without a left source they fail with FETCH (502), the
    store untouched, whatever the right source is; with a left source and no
    right one likewise. *)
Theorem diff_entry_points (lhs rhs : option SourceConfig)
    (options : option loc) (h : heap) :
  diff lhs rhs options h
  = (result <- diffWithStats lhs rhs options ;; ret (output result)) h
  /\ (lhs = None ->
      diffWithStats lhs rhs options h
      = (Throw (DiffError FETCH 502 "Left source configuration is required"
                  None), h))
  /\ (is_Some lhs -> rhs = None ->
      diffWithStats lhs rhs options h
      = (Throw (DiffError FETCH 502
                  "Right source configuration is required" None), h)).
Proof.
  split; [|split].
  - unfold diff, diffWithStats, bind.
    destruct (assertDiff (bool_decide (is_Some lhs)) _ _ h) as [[[]|e] h1];
      [|done].
    destruct (assertDiff (bool_decide (is_Some rhs)) _ _ h1) as [[[]|e] h2];
      [|done].
    destruct (Promise_all2 _ _ _ h2) as [[[lf rf]|e] h3]; [|done].
    by destruct (formatDiff lf rf options h3) as [[res|e] h4].
  - intros ->. reflexivity.
  - intros [cfg ->] ->. reflexivity.
Qed.




End IndexFacts.


(** ** bin/difftar.js: package specs *)

Lemma split_none c s : indexOf c s = None -> Cli.split c s = [s].
Proof.
  induction s as [|a s IH]; [done|]. cbn.
  destruct (Ascii.eqb a c); [done|]. intros Hs.
  rewrite IH; [done|]. by destruct (indexOf c s).
Qed.

Lemma split_app c (a b : string) :
  indexOf c a = None ->
  Cli.split c (a +:+ String c b) = a :: Cli.split c b.
Proof.
  induction a as [|d a IH]; cbn [indexOf].
  - intros _. rewrite sapp_nil_l. cbn. by rewrite Ascii.eqb_refl.
  - rewrite sapp_cons. cbn [Cli.split].
    destruct (Ascii.eqb d c); [done|]. intros Ha.
    rewrite IH; [done|]. by destruct (indexOf c a).
Qed.

Lemma startsWith_at_false (s : string) :
  s <> "" -> indexOf "@" s = None -> startsWith "@" s = false.
Proof.
  destruct s as [|c s]; [done|]. intros _ Hs. cbn [indexOf] in Hs.
  cbn [startsWith]. rewrite (Ascii.eqb_sym "@" c).
  by destruct (Ascii.eqb c "@").
Qed.

(** X30. The tarball URL of a package spec on the public registry. A spec that
    is an http or https URL is kept. A plain [name@version] gives
    [.../name/-/name-version.tgz], split at the first [@]; a scoped
    [@scope/pkg@version] gives [.../@scope/pkg/-/pkg-version.tgz], split at the
    last [@]; without a version, [latest] is taken. *)
Theorem specToUrl_spec (spec : string) :
  (startsWith "http://" spec = true \/ startsWith "https://" spec = true ->
   Cli.specToUrl spec = spec)
  /\ (forall name version,
        name <> "" -> indexOf "@" name = None ->
        startsWith "http://" name = false ->
        startsWith "https://" name = false ->
        (spec = name +:+ "@" +:+ version ->
         Cli.specToUrl spec
         = "https://registry.npmjs.org/" +:+ name +:+ "/-/" +:+ name +:+
           "-" +:+ version +:+ ".tgz")
        /\ (spec = name ->
            Cli.specToUrl spec
            = "https://registry.npmjs.org/" +:+ name +:+ "/-/" +:+ name +:+
              "-latest.tgz"))
  /\ (forall scope pkg version,
        indexOf "@" scope = None -> indexOf "/" scope = None ->
        indexOf "@" pkg = None -> indexOf "/" pkg = None ->
        indexOf "@" version = None ->
        (spec = "@" +:+ scope +:+ "/" +:+ pkg +:+ "@" +:+ version ->
         Cli.specToUrl spec
         = "https://registry.npmjs.org/@" +:+ scope +:+ "/" +:+ pkg +:+
           "/-/" +:+ pkg +:+ "-" +:+ version +:+ ".tgz")
        /\ (spec = "@" +:+ scope +:+ "/" +:+ pkg ->
            Cli.specToUrl spec
            = "https://registry.npmjs.org/@" +:+ scope +:+ "/" +:+ pkg +:+
              "/-/" +:+ pkg +:+ "-latest.tgz")).
Proof.
  split; [|split].
  - intros Hurl. unfold Cli.specToUrl.
    by destruct Hurl as [-> | ->]; rewrite ?orb_true_r.
  - intros name version Hne Hat Hh1 Hh2.
    pose proof (startsWith_at_false name Hne Hat) as Hno.
    assert (Hpre : forall p rest,
              indexOf "@" p = None ->
              startsWith p (name +:+ String "@" rest) = startsWith p name).
    { intros p rest. clear. revert name.
      induction p as [|c p IH]; intros name Hp; [done|].
      cbn [indexOf] in Hp. destruct (Ascii.eqb c "@") eqn:Ec; [done|].
      destruct name as [|d name].
      - rewrite sapp_nil_l. cbn [startsWith]. by rewrite Ec.
      - rewrite sapp_cons. cbn [startsWith].
        destruct (Ascii.eqb c d); [|done]. apply IH.
        by destruct (indexOf "@" p). }
    assert (Hfirst : forall rest,
              startsWith "@" (name +:+ rest) = startsWith "@" name).
    { intros rest. destruct name as [|d name]; [done|].
      by rewrite sapp_cons. }
    split.
    + intros ->. unfold Cli.specToUrl.
      change (name +:+ "@" +:+ version) with (name +:+ String "@" version).
      rewrite (Hpre "http://"), (Hpre "https://"), Hfirst by done.
      rewrite Hh1, Hh2, Hno. cbn [orb].
      rewrite indexOf_app_none by done. cbn [indexOf].
      rewrite Ascii.eqb_refl. cbn [fmap option_fmap option_map].
      rewrite Nat.add_0_r.
      destruct (String.length name) as [|n] eqn:En; [by destruct name|].
      rewrite <- En. rewrite take_app_length.
      replace (String.length name + 1) with (String.length name + 1) by done.
      rewrite drop_app_cons. by rewrite Hno.
    + intros ->. unfold Cli.specToUrl. rewrite Hh1, Hh2, Hno, Hat.
      cbn [orb]. by rewrite Hno.
  - intros scope pkg version Hs1 Hs2 Hp1 Hp2 Hv.
    assert (Hnameat : lastIndexOf "@" (scope +:+ String "/" pkg) = None).
    { apply indexOf_None_iff. rewrite indexOf_app_none by done.
      cbn [indexOf]. change (Ascii.eqb "/" "@") with false. cbn iota.
      by rewrite Hp1. }
    assert (Hbase : Cli.split "/" (String "@" (scope +:+ String "/" pkg)) !! 1
                    = Some pkg).
    { change (String "@" (scope +:+ String "/" pkg))
        with (String "@" scope +:+ String "/" pkg).
      rewrite split_app.
      - by rewrite split_none.
      - cbn [indexOf]. change (Ascii.eqb "@" "/") with false. cbn iota.
        by rewrite Hs2. }
    split.
    + intros ->. unfold Cli.specToUrl.
      assert ("@" +:+ scope +:+ "/" +:+ pkg +:+ "@" +:+ version
              = String "@" (scope +:+ String "/" pkg) +:+ String "@" version)
        as ->.
      { change ("@" +:+ scope +:+ "/" +:+ pkg +:+ "@" +:+ version)
          with (String "@" (scope +:+ (String "/" pkg +:+ String "@" version))).
        rewrite (sapp_cons "@" (scope +:+ String "/" pkg)).
        by rewrite (sapp_assoc scope). }
      assert (forall rest, startsWith "http://" (String "@" rest) = false)
        as Hh1 by done.
      assert (forall rest, startsWith "https://" (String "@" rest) = false)
        as Hh2 by done.
      rewrite sapp_cons, Hh1, Hh2. cbn [orb].
      assert (forall rest, startsWith "@" (String "@" rest) = true)
        as Hat by done.
      rewrite Hat. rewrite <- sapp_cons.
      rewrite lastIndexOf_app by (by apply indexOf_None_iff).
      cbn [String.length].
      change (S (String.length (scope +:+ String "/" pkg)))
        with (String.length (String "@" (scope +:+ String "/" pkg))).
      rewrite take_app_length, drop_app_cons. rewrite Hat, Hbase.
      cbn [default]. rewrite !sapp_cons, !sapp_assoc. reflexivity.
    + intros ->. unfold Cli.specToUrl.
      change ("@" +:+ scope +:+ "/" +:+ pkg)
        with (String "@" (scope +:+ String "/" pkg)).
      assert (forall rest, startsWith "http://" (String "@" rest) = false)
        as Hh1 by done.
      assert (forall rest, startsWith "https://" (String "@" rest) = false)
        as Hh2 by done.
      rewrite Hh1, Hh2. cbn [orb].
      assert (forall rest, startsWith "@" (String "@" rest) = true)
        as Hat by done.
      rewrite Hat. cbn [lastIndexOf]. rewrite Hnameat.
      rewrite Ascii.eqb_refl. rewrite Hat, Hbase.
      cbn [default]. rewrite !sapp_cons, !sapp_assoc. reflexivity.
Qed.
